(** * ColorStack: image-to-heightfield pipeline

    A shallow embedding of [public/js/image_worker.js] and
    [public/js/stl_exporter.js]: colour conversion, palette selection,
    filament matching, band quantisation and heightfield triangulation.

    JavaScript numbers are IEEE-754 binary64 values.  Where the source only
    ever computes with integers that a binary64 value holds exactly (8-bit
    channels, squared RGB distances, array indices, pixel counts) the
    embedding uses [Z] and [nat]; where it computes with fractions
    (scores, Delta-E, mesh coordinates) it uses Rocq's primitive binary64
    floats, whose operations are the IEEE ones the engine performs. *)

From Stdlib Require Import ZArith Ascii String Floats HexString.
From stdpp Require Import base gmap sets list strings.

Local Open Scope Z_scope.

(** ** JavaScript values used by the worker *)

(** How a call ends: it returns, it throws, or it never comes back. *)
Inductive exn := TypeError | RangeError.

Inductive completion (A : Type) :=
| Returned (a : A)
| Thrown (e : exn)
| Diverged.
Arguments Returned {A} a.
Arguments Thrown {A} e.
Arguments Diverged {A}.

Global Instance completion_ret : MRet completion := λ A a, Returned a.

Global Instance completion_bind : MBind completion := λ A B k c,
  match c with
  | Returned a => k a
  | Thrown e => Thrown e
  | Diverged => Diverged
  end.

(** A number that is an integer, or NaN ([undefined] turns into NaN in
    every arithmetic position of the source). *)
Inductive number :=
| Num (z : Z)
| NaN.
Coercion Num : Z >-> number.

(** Round-to-nearest, ties-to-even, of a non-negative integer to [p]
    significant bits: what storing an integer in a binary64 ([p = 53]) or
    in a [Float32Array] cell ([p = 24]) keeps of it. *)
Definition roundToBits (p n : Z) : Z :=
  let e := Z.log2 n + 1 - p in
  if e <=? 0 then n
  else
    let q := Z.shiftr n e in
    let r := Z.land n (Z.ones e) in
    let half := Z.shiftl 1 (e - 1) in
    let q' := if (half <? r) || ((r =? half) && Z.odd q) then q + 1 else q in
    Z.shiftl q' e.

(** [StrWhiteSpaceChar] among the code units below 256. *)
Definition isWhiteSpace (c : ascii) : bool :=
  let n := Z.of_nat (nat_of_ascii c) in
  ((9 <=? n) && (n <=? 13)) || (n =? 32) || (n =? 160).

Fixpoint trimStart (s : string) : string :=
  match s with
  | String c s' => if isWhiteSpace c then trimStart s' else s
  | EmptyString => s
  end.

Definition hexDigitValue (c : ascii) : option Z :=
  let n := Z.of_nat (nat_of_ascii c) in
  if (48 <=? n) && (n <=? 57) then Some (n - 48)
  else if (97 <=? n) && (n <=? 102) then Some (n - 87)
  else if (65 <=? n) && (n <=? 70) then Some (n - 55)
  else None.

(** The longest prefix of hexadecimal digits, read most significant first;
    [None] when the prefix is empty. *)
Fixpoint parseHexDigits (acc : option Z) (s : string) : option Z :=
  match s with
  | String c s' =>
      match hexDigitValue c with
      | Some d => parseHexDigits (Some (default 0 acc * 16 + d)) s'
      | None => acc
      end
  | EmptyString => acc
  end.

Definition stripHexPrefix (s : string) : string :=
  match s with
  | String "0" (String "x" s') => s'
  | String "0" (String "X" s') => s'
  | _ => s
  end.

(** [parseInt(s, 16)]: leading white space, an optional sign, an optional
    [0x], then hexadecimal digits.  The mathematical value is rounded to a
    binary64.  A value too large for a binary64 is Infinity in the engine;
    the only consumer here is [ToInt32], which sends Infinity to 0, and so
    does it send the rounded integer, whose low 32 bits are all zero. *)
Definition parseInt16 (s : string) : number :=
  let s1 := trimStart s in
  let '(neg, s2) :=
    match s1 with
    | String "-" r => (true, r)
    | String "+" r => (false, r)
    | _ => (false, s1)
    end in
  match parseHexDigits None (stripHexPrefix s2) with
  | None => NaN
  | Some m => let v := roundToBits 53 m in Num (if neg then - v else v)
  end.

Definition ToInt32 (v : number) : Z :=
  match v with
  | NaN => 0
  | Num z => let m := z mod 2 ^ 32 in if 2 ^ 31 <=? m then m - 2 ^ 32 else m
  end.

(** [s.slice(1)] *)
Definition slice1 (s : string) : string :=
  match s with
  | String _ s' => s'
  | EmptyString => EmptyString
  end.

(** ** Numbers with fractions *)

#[local] Set Warnings "-inexact-float".

(** An integer as a number; the integers here stay below 2^32 in
    magnitude, where the conversion is exact. *)
Definition ofInt (z : Z) : float :=
  if z <? 0 then (- of_uint63 (Uint63.of_Z (- z)))%float
  else of_uint63 (Uint63.of_Z z).

Definition ofNat (n : nat) : float := ofInt (Z.of_nat n).

Definition ofNumber (v : number) : float :=
  match v with
  | Num z => ofInt z
  | NaN => nan
  end.

(** [Math.fround]: the nearest binary32, which is what a [Float32Array]
    cell and [DataView.setFloat32] keep of a number. *)
Definition fround (x : float) : float :=
  match Prim2SF x with
  | S754_finite s m e =>
      SF2Prim (binary_normalize 24 128 (cond_Zopp s (Zpos m)) e s)
  | _ => x
  end.

(** [Math.floor] of a number, as an integer; NaN for NaN and the
    infinities (the callers only index arrays with it). *)
Definition floorNumber (x : float) : number :=
  match Prim2SF x with
  | S754_zero _ => Num 0
  | S754_finite s m e =>
      if 0 <=? e then Num (cond_Zopp s (Zpos m) * 2 ^ e)
      else Num (cond_Zopp s (Zpos m) / 2 ^ (- e))
  | _ => NaN
  end.

(** ** Colours *)

Record rgb := RGB { r : Z; g : Z; b : Z }.

Global Instance rgb_eq_dec : EqDecision rgb.
Proof. solve_decision. Defined.

Definition hexToRgb (hex : string) : rgb :=
  let v := ToInt32 (parseInt16 (slice1 hex)) in
  {| r := Z.land (Z.shiftr v 16) 255;
     g := Z.land (Z.shiftr v 8) 255;
     b := Z.land v 255 |}.

(** [n.toString(16)] on an integer. *)
Definition toString16 (z : Z) : string :=
  match z with
  | Z0 => "0"%string
  | Zpos p => HexString.Raw.of_pos p EmptyString
  | Zneg p => String "-" (HexString.Raw.of_pos p EmptyString)
  end.

(** [s.padStart(2, '0')] *)
Definition padStart2 (s : string) : string :=
  match s with
  | EmptyString => "00"%string
  | String c EmptyString => String "0" s
  | _ => s
  end.

(** [Math.round(v).toString(16).padStart(2, '0')]; every call site passes
    an integer or a missing array cell, so [Math.round] changes nothing. *)
Definition channelToHex (v : number) : string :=
  match v with
  | Num z => padStart2 (toString16 z)
  | NaN => "NaN"%string
  end.

Definition rgbToHex (r g b : number) : string :=
  "#" +:+ channelToHex r +:+ channelToHex g +:+ channelToHex b.

(** [colorDistance]: squared Euclidean distance in RGB; exact on 8-bit
    channels. *)
Definition colorDistance (c1 c2 : rgb) : Z :=
  let rDiff := r c1 - r c2 in
  let gDiff := g c1 - g c2 in
  let bDiff := b c1 - b c2 in
  rDiff * rDiff + gDiff * gDiff + bDiff * bDiff.

(** ** Band quantisation ([processImage]) *)

(** The RGBA cells of a pixel buffer, four bytes each.  The loops of the
    source step [i += 4] while [i < data.length]; on a last, incomplete
    cell they read [undefined], every comparison with the resulting NaN
    distance fails, and the write goes to an index the typed array does
    not have, so such a cell leaves no trace. *)
Fixpoint pixels (data : list Z) : list rgb :=
  match data with
  | r :: g :: b :: _ :: rest => RGB r g b :: pixels rest
  | _ => []
  end.

(** The inner loop over the palette: [minDistance] starts at Infinity
    ([None]), [bandIndex] at 0, and only a strictly smaller distance
    replaces them. *)
Fixpoint closestLoop (pixelColor : rgb) (paletteColors : list rgb) (k : nat)
    (minDistance : option Z) (bandIndex : nat) : nat :=
  match paletteColors with
  | [] => bandIndex
  | c :: rest =>
      let distance := colorDistance pixelColor c in
      let smaller :=
        match minDistance with
        | None => true
        | Some m => distance <? m
        end in
      if smaller then closestLoop pixelColor rest (S k) (Some distance) k
      else closestLoop pixelColor rest (S k) minDistance bandIndex
  end.

Definition closestBand (paletteColors : list rgb) (pixelColor : rgb) : nat :=
  closestLoop pixelColor paletteColors 0 None 0.

(** Writing an index into a [Float32Array] cell. *)
Definition storeFloat32 (k : nat) : Z := roundToBits 24 (Z.of_nat k).

Definition computeBandMap (paletteColors : list rgb) (data : list Z) : list Z :=
  (λ px, storeFloat32 (closestBand paletteColors px)) <$> pixels data.

Record AppState := {
  imageData : list Z;                      (* Uint8ClampedArray *)
  width : nat;
  height : nat;
  suggestedPalette : option (list string); (* structural palette *)
  currentPalette : option (list string)    (* render palette *)
}.

Record DomElements := {
  layerSliderValue : number;        (* parseInt(layerSlider.value, 10) *)
  singleLayerToggle : option bool   (* the toggle's [checked], when present *)
}.

Record PreviewImageData := {
  data : list Z;
  previewWidth : nat;
  previewHeight : nat
}.

Record ProcessResult := {
  bandMap : list Z;
  previewImageData : PreviewImageData
}.

(** Paint cell [j] of the preview. *)
Definition setPixel (previewData : list Z) (j : nat) (c : rgb) : list Z :=
  let i := (4 * j)%nat in
  <[(i + 3)%nat := 255]> (<[(i + 2)%nat := b c]> (<[(i + 1)%nat := g c]> (<[i := r c]> previewData))).

(** One pass over the preview for one layer: each cell whose band is
    [layer] takes the render colour of that layer.  [hexToRgb] is applied
    to [renderPalette[layer]] at every such cell and throws on
    [undefined]. *)
Fixpoint drawLayer (renderPalette : list string) (bandMap : list Z) (layer : Z)
    (cells : list nat) (previewData : list Z) : completion (list Z) :=
  match cells with
  | [] => Returned previewData
  | j :: cells' =>
      if decide (bandMap !! j = Some layer) then
        match renderPalette !! Z.to_nat layer with
        | None => Thrown TypeError
        | Some hex =>
            drawLayer renderPalette bandMap layer cells'
              (setPixel previewData j (hexToRgb hex))
        end
      else drawLayer renderPalette bandMap layer cells' previewData
  end.

Fixpoint drawLayers (renderPalette : list string) (bandMap : list Z)
    (count : nat) (layer : Z) (cells : list nat) (previewData : list Z)
    : completion (list Z) :=
  match count with
  | O => Returned previewData
  | S count' =>
      previewData' ← drawLayer renderPalette bandMap layer cells previewData;
      drawLayers renderPalette bandMap count' (layer + 1) cells previewData'
  end.

(** The counter of the cumulative loop is a binary64: [layer++] no longer
    moves at [2^53], so the loop never ends when [currentLayer] is that
    large. *)
Definition drawCumulative (renderPalette : list string) (bandMap : list Z)
    (currentLayer : Z) (cells : list nat) (previewData : list Z)
    : completion (list Z) :=
  previewData' ← drawLayers renderPalette bandMap
                   (Z.to_nat (Z.min currentLayer (2 ^ 53 - 1))) 1 cells previewData;
  if 2 ^ 53 <=? currentLayer then Diverged else Returned previewData'.

Definition processImage (appState : AppState) (domElements : DomElements)
    : completion (option ProcessResult) :=
  let palette := default [] (suggestedPalette appState) in
  let renderPalette :=
    match currentPalette appState with
    | Some p => p
    | None => palette
    end in
  let paletteColors := hexToRgb <$> palette in
  if decide (length paletteColors = 0%nat) then Returned None
  else
    let bandMap := computeBandMap paletteColors (imageData appState) in
    match renderPalette !! 0%nat with
    | None => Thrown TypeError
    | Some hex0 =>
        let baseColor := hexToRgb hex0 in
        let cells := seq 0 (width appState * height appState) in
        let previewData :=
          mjoin ((λ _, [r baseColor; g baseColor; b baseColor; 255]) <$> cells) in
        let isSingleLayerMode := default false (singleLayerToggle domElements) in
        previewData' ←
          match layerSliderValue domElements with
          | NaN => Returned previewData
          | Num currentLayer =>
              if isSingleLayerMode then
                if 0 <? currentLayer
                then drawLayer renderPalette bandMap currentLayer cells previewData
                else Returned previewData
              else drawCumulative renderPalette bandMap currentLayer cells previewData
          end;
        Returned (Some {| bandMap := bandMap;
                          previewImageData :=
                            {| data := previewData';
                               previewWidth := width appState;
                               previewHeight := height appState |} |})
    end.

(** ** Sorting

    [Array.prototype.sort] with a comparator is stable: among the orders
    that respect a consistent comparator it returns the one that keeps
    equal elements in their original order.  [before y x] says that the
    comparator puts [x] strictly before [y] ([compare(y, x) > 0]). *)
Fixpoint insertSorted {A : Type} (before : A → A → bool) (x : A) (l : list A)
    : list A :=
  match l with
  | [] => [x]
  | y :: l' => if before y x then x :: l else y :: insertSorted before x l'
  end.

Definition stableSort {A : Type} (before : A → A → bool) (l : list A) : list A :=
  foldl (λ sorted x, insertSorted before x sorted) [] l.

(** ** Filament matching ([matchToPalette]) *)

Record Filament := {
  filamentId : string;
  filamentName : string;
  filamentType : string;
  color : string
}.

Record Match := {
  suggestedIndex : nat;
  filamentIndex : nat;
  suggestedColor : string;
  filamentColor : option string;   (* filamentColors[filamentIndex] *)
  distance : Z
}.

Record Matching := {
  matchedPalette : list (option string);   (* [new Array(n)]: holes are [None] *)
  usedFilaments : gset nat;
  usedSuggestions : gset nat
}.

(** The body of [allMatches.forEach]. *)
Definition assignMatch (st : Matching) (m : Match) : Matching :=
  if bool_decide (suggestedIndex m ∈ usedSuggestions st)
     || bool_decide (filamentIndex m ∈ usedFilaments st)
  then st
  else
    {| matchedPalette :=
         <[suggestedIndex m := filamentColor m]> (matchedPalette st);
       usedFilaments := {[filamentIndex m]} ∪ usedFilaments st;
       usedSuggestions := {[suggestedIndex m]} ∪ usedSuggestions st |}.

(** [!cell]: a hole, [undefined] and the empty string are falsy. *)
Definition falsy (cell : option string) : bool :=
  match cell with
  | None => true
  | Some s => bool_decide (s = EmptyString)
  end.

(** The inner loop of the fill pass: the first inventory index that is not
    used yet. *)
Definition firstUnused (count : nat) (used : gset nat) : option nat :=
  head (filter (λ j, j ∉ used) (seq 0 count)).

(** The body of the fill pass for palette index [i]. *)
Definition fillUnmatched (filamentColors : list string)
    (st : list (option string) * gset nat) (i : nat)
    : list (option string) * gset nat :=
  let '(matched, used) := st in
  if falsy (mjoin (matched !! i)) then
    let '(matched1, used1) :=
      match firstUnused (length filamentColors) used with
      | Some j => (<[i := filamentColors !! j]> matched, {[j]} ∪ used)
      | None => (matched, used)
      end in
    if falsy (mjoin (matched1 !! i))
    then (<[i := filamentColors !! 0%nat]> matched1, used1)
    else (matched1, used1)
  else (matched, used).

Definition allMatchesOf (suggestedPalette filamentColors : list string)
    : list Match :=
  let filamentRgb := hexToRgb <$> filamentColors in
  mjoin (imap (λ suggestedIndex suggestedColor,
           let suggestedRgb := hexToRgb suggestedColor in
           imap (λ filamentIndex filamentRgb,
                   {| suggestedIndex := suggestedIndex;
                      filamentIndex := filamentIndex;
                      suggestedColor := suggestedColor;
                      filamentColor := filamentColors !! filamentIndex;
                      distance := colorDistance suggestedRgb filamentRgb |})
                filamentRgb)
           suggestedPalette).

(** The result is an array whose cells are strings; a cell is [None] where
    the array would hold [undefined]. *)
Definition matchToPalette (suggestedPalette : list string)
    (myFilaments : option (list Filament)) : list (option string) :=
  match myFilaments with
  | None => Some <$> suggestedPalette
  | Some filaments =>
      if decide (length filaments = 0%nat) then Some <$> suggestedPalette
      else
        let filamentColors := color <$> filaments in
        let allMatches := allMatchesOf suggestedPalette filamentColors in
        let sorted :=
          stableSort (λ a b, distance b - distance a <? 0) allMatches in
        let greedy :=
          foldl assignMatch
            {| matchedPalette := replicate (length suggestedPalette) None;
               usedFilaments := ∅;
               usedSuggestions := ∅ |} sorted in
        (foldl (fillUnmatched filamentColors)
           (matchedPalette greedy, usedFilaments greedy)
           (seq 0 (length suggestedPalette))).1
  end.

(** ** Colour science *)

(** [Math.max] and [Math.min] of two numbers: NaN if either is, and +0
    above -0. *)
Definition fmax (x y : float) : float :=
  if is_nan x || is_nan y then nan
  else if (x <? y)%float then y
  else if (y <? x)%float then x
  else if is_zero x then (x + y)%float
  else x.

Definition fmin (x y : float) : float :=
  if is_nan x || is_nan y then nan
  else if (x <? y)%float then x
  else if (y <? x)%float then y
  else if is_zero x then (- (- x + - y))%float
  else x.

Definition getSaturation (r g b : float) : float :=
  let rNorm := (r / 255)%float in
  let gNorm := (g / 255)%float in
  let bNorm := (b / 255)%float in
  let max := fmax (fmax rNorm gNorm) bNorm in
  let min := fmin (fmin rNorm gNorm) bNorm in
  if is_zero max then 0%float else ((max - min) / max)%float.

Record Lab := { lab_l : float; lab_a : float; lab_b : float }.

Definition calculateDeltaE (lab1 lab2 : Lab) : float :=
  let deltaL := (lab_l lab1 - lab_l lab2)%float in
  let deltaA := (lab_a lab1 - lab_a lab2)%float in
  let deltaB := (lab_b lab1 - lab_b lab2)%float in
  sqrt (deltaL * deltaL + deltaA * deltaA + deltaB * deltaB)%float.

Section colourSpaces.

(** [Math.pow] is implementation-approximated: the conversions to CIELAB
    are stated over whatever the engine computes. *)
Variable pow : float → float → float.

Definition srgbToLinear (c : float) : float :=
  if (0.04045 <? c)%float then pow ((c + 0.055) / 1.055)%float 2.4%float
  else (c / 12.92)%float.

Definition rgbToXyz (r g b : float) : float * float * float :=
  let rNorm := srgbToLinear (r / 255)%float in
  let gNorm := srgbToLinear (g / 255)%float in
  let bNorm := srgbToLinear (b / 255)%float in
  let x := (rNorm * 0.4124564 + gNorm * 0.3575761 + bNorm * 0.1804375)%float in
  let y := (rNorm * 0.2126729 + gNorm * 0.7151522 + bNorm * 0.0721750)%float in
  let z := (rNorm * 0.0193339 + gNorm * 0.1191920 + bNorm * 0.9503041)%float in
  (x, y, z).

Definition labF (t : float) : float :=
  if (0.008856 <? t)%float then pow t (1 / 3)%float
  else (7.787 * t + 16 / 116)%float.

Definition xyzToLab (x y z : float) : Lab :=
  let xn := 0.95047%float in
  let yn := 1.00000%float in
  let zn := 1.08883%float in
  let xr := (x / xn)%float in
  let yr := (y / yn)%float in
  let zr := (z / zn)%float in
  let fx := labF xr in
  let fy := labF yr in
  let fz := labF zr in
  {| lab_l := (116 * fy - 16)%float;
     lab_a := (500 * (fx - fy))%float;
     lab_b := (200 * (fy - fz))%float |}.

Definition rgbToLab (r g b : float) : Lab :=
  let '(x, y, z) := rgbToXyz r g b in
  xyzToLab x y z.

Definition rgbLab (c : rgb) : Lab :=
  rgbToLab (ofInt (r c)) (ofInt (g c)) (ofInt (b c)).

End colourSpaces.

(** ** Scoring *)

(** [data[i]], a byte or [undefined]. *)
Definition readByte (data : list Z) (i : Z) : number :=
  if i <? 0 then NaN
  else match data !! Z.to_nat i with
       | Some v => Num v
       | None => NaN
       end.

(** [v || 0] on a [Float32Array] cell. *)
Definition cellOrZero (v : option float) : float :=
  match v with
  | Some x => if is_zero x || is_nan x then 0%float else x
  | None => 0%float
  end.

(** The grayscale plane: cell [k] takes the luminance of pixel [k] when
    the buffer has that pixel, and stays 0 otherwise. *)
Definition grayAt (imageData : list Z) (k : nat) : float :=
  let i := 4 * Z.of_nat k in
  if i <? Z.of_nat (length imageData) then
    let r := ofNumber (readByte imageData i) in
    let g := ofNumber (readByte imageData (i + 1)) in
    let b := ofNumber (readByte imageData (i + 2)) in
    fround ((0.299 * r + 0.587 * g + 0.114 * b) / 255)%float
  else 0%float.

Definition sobelX : list float := [-1; 0; 1; -2; 0; 2; -1; 0; 1]%float.
Definition sobelY : list float := [-1; -2; -1; 0; 0; 0; 1; 2; 1]%float.

(** The 3x3 convolution at an interior cell, in the order of the two kernel
    loops. *)
Definition sobelAt (gray : list float) (width x y : nat) : float :=
  let '(gx, gy) :=
    foldl (λ '(gx, gy) kernelIndex,
             let ky := (kernelIndex / 3)%nat in     (* ky + 1 *)
             let kx := (kernelIndex mod 3)%nat in   (* kx + 1 *)
             let pixelIndex := ((y + ky - 1) * width + (x + kx - 1))%nat in
             let pixelValue := default nan (gray !! pixelIndex) in
             ((gx + pixelValue * default nan (sobelX !! kernelIndex))%float,
              (gy + pixelValue * default nan (sobelY !! kernelIndex))%float))
          (0%float, 0%float) (seq 0 9) in
  let magnitude := sqrt (gx * gx + gy * gy)%float in
  fround (fmin (magnitude / 4)%float 1%float).

(** [sobelEdgeDetection]: the border cells keep their initial 0. *)
Definition sobelEdgeDetection (imageData : list Z) (width height : nat)
    : list float :=
  let gray := grayAt imageData <$> seq 0 (width * height) in
  (λ k, let y := (k / width)%nat in
        let x := (k mod width)%nat in
        if bool_decide (1 <= y ∧ y + 1 < height ∧ 1 <= x ∧ x + 1 < width)%nat
        then sobelAt gray width x y
        else 0%float) <$> seq 0 (width * height).

Record Candidate := {
  candidateColor : rgb;      (* the histogram key r,g,b *)
  impactScore : float;
  pixelCount : nat
}.

(** The impact score of the sampled pixel [pixelIndex]. *)
Definition finalImpactScore (edgeData : list float) (width height : nat)
    (pixelIndex : nat) (c : rgb) : float :=
  let centerX := (ofNat width / 2)%float in
  let centerY := (ofNat height / 2)%float in
  let maxDistance := sqrt (centerX * centerX + centerY * centerY)%float in
  let x := (* pixelIndex % width *)
    if decide (width = 0%nat) then nan else ofNat (pixelIndex mod width) in
  let y := (* Math.floor(pixelIndex / width) *)
    if decide (width = 0%nat)
    then (ofNat pixelIndex / 0)%float
    else ofNat (pixelIndex / width) in
  let distanceFromCenter :=
    sqrt ((x - centerX) * (x - centerX) + (y - centerY) * (y - centerY))%float in
  let saliencyWeight := (1 - distanceFromCenter / maxDistance)%float in
  let saturation := getSaturation (ofInt (r c)) (ofInt (g c)) (ofInt (b c)) in
  let edginess := cellOrZero (edgeData !! pixelIndex) in
  ((1 + saturation * 2) * (1 + edginess) * (1 + saliencyWeight * 1.5))%float.

(** The colour histogram, a [Map] in insertion order: a known key
    accumulates, a new key is appended. *)
Fixpoint histogramAdd (key : rgb) (score : float) (histogram : list Candidate)
    : list Candidate :=
  match histogram with
  | [] => [{| candidateColor := key; impactScore := score; pixelCount := 1 |}]
  | c :: rest =>
      if decide (candidateColor c = key) then
        {| candidateColor := key;
           impactScore := (impactScore c + score)%float;
           pixelCount := pixelCount c + 1 |} :: rest
      else c :: histogramAdd key score rest
  end.

(** The sampling loop [i += 16]: every fourth pixel.  The buffer is read
    cell by cell, as an [ImageData] of complete RGBA cells. *)
Definition sampledPixels (data : list Z) : list (nat * rgb) :=
  filter (λ p, p.1 mod 4 = 0)%nat (imap (λ k c, (k, c)) (pixels data)).

Definition colorHistogram (data : list Z) (width height : nat) : list Candidate :=
  let edgeData := sobelEdgeDetection data width height in
  foldl (λ histogram '(pixelIndex, c),
           histogramAdd c (finalImpactScore edgeData width height pixelIndex c)
             histogram)
        [] (sampledPixels data).

(** ** Farthest-point selection *)

Record CandidateLab := {
  candidate : Candidate;
  lab : Lab
}.

(** The minimum Delta-E from a candidate to the colours chosen so far. *)
Definition minDistanceToPalette (c : CandidateLab) (finalPalette : list CandidateLab)
    : float :=
  foldl (λ minDistanceToCurrentPalette paletteColor,
           let distance := calculateDeltaE (lab c) (lab paletteColor) in
           if (distance <? minDistanceToCurrentPalette)%float then distance
           else minDistanceToCurrentPalette)
        infinity finalPalette.

(** The scan of the remaining candidates: the first one with the largest
    minimum distance. *)
Definition bestCandidate (finalPalette remainingCandidates : list CandidateLab)
    : nat :=
  (foldl (λ '(maxMinDistance, bestCandidateIndex) '(i, c),
            let d := minDistanceToPalette c finalPalette in
            if (maxMinDistance <? d)%float then (d, i)
            else (maxMinDistance, bestCandidateIndex))
         ((-1)%float, 0%nat)
         (imap (λ i c, (i, c)) remainingCandidates)).2.

(** The [while] loop; every turn removes one candidate, so
    [length remainingCandidates] turns are enough. *)
Fixpoint selectLoop (turns numColors : nat)
    (finalPalette remainingCandidates : list CandidateLab) : list CandidateLab :=
  match turns with
  | O => finalPalette
  | S turns' =>
      if bool_decide (length finalPalette < numColors)%nat
         && bool_decide (0 < length remainingCandidates)%nat
      then
        let bestCandidateIndex := bestCandidate finalPalette remainingCandidates in
        match remainingCandidates !! bestCandidateIndex with
        | Some c =>
            selectLoop turns' numColors (finalPalette ++ [c])
              (delete bestCandidateIndex remainingCandidates)
        | None => finalPalette
        end
      else finalPalette
  end.

(** Step 3 of [getImpactfulColors].  It is only reached with a non-empty
    pool ([candidates.length > numColors >= 0]). *)
Definition farthestPointSelection (candidatesLab : list CandidateLab)
    (numColors : nat) : list CandidateLab :=
  match candidatesLab with
  | [] => []
  | first :: remainingCandidates =>
      selectLoop (length remainingCandidates) numColors [first] remainingCandidates
  end.

(** ** Palette selection ([getImpactfulColors]) *)

(** A tally in insertion order, as the [Map] of the border sampling. *)
Fixpoint tallyAdd (key : rgb) (counts : list (rgb * nat)) : list (rgb * nat) :=
  match counts with
  | [] => [(key, 1%nat)]
  | (k, n) :: rest =>
      if decide (k = key) then (k, S n) :: rest else (k, n) :: tallyAdd key rest
  end.

(** A border sample goes through [join(',')] and [Number]: a missing
    channel becomes the empty string and then 0. *)
Definition borderColor (imageData : list Z) (index : Z) : rgb :=
  let channel i :=
    match readByte imageData i with
    | Num v => v
    | NaN => 0
    end in
  RGB (channel index) (channel (index + 1)) (channel (index + 2)).

(** [Math.round(sum / 4)] of four channel values. *)
Definition averageOf4 (c1 c2 c3 c4 : number) : number :=
  match c1, c2, c3, c4 with
  | Num v1, Num v2, Num v3, Num v4 => Num ((v1 + v2 + v3 + v4 + 2) / 4)
  | _, _, _, _ => NaN
  end.

Section paletteSelection.

Variable pow : float → float → float.

Definition numberLab (c : number * number * number) : Lab :=
  let '(r, g, b) := c in
  rgbToLab pow (ofNumber r) (ofNumber g) (ofNumber b).

Definition detectBackgroundColor (imageData : list Z) (width height : nat)
    : number * number * number :=
  let w := Z.of_nat width in
  let h := Z.of_nat height in
  let corner index :=
    (readByte imageData index, readByte imageData (index + 1),
     readByte imageData (index + 2)) in
  let topLeft := corner ((0 + 0 * w) * 4) in
  let topRight := corner ((w - 1 + 0 * w) * 4) in
  let bottomLeft := corner ((0 + (h - 1) * w) * 4) in
  let bottomRight := corner ((w - 1 + (h - 1) * w) * 4) in
  let cornerColorsLab := numberLab <$> [topLeft; topRight; bottomLeft; bottomRight] in
  let cornersAreSimilar :=
    forallb (λ '(i, j),
               match cornerColorsLab !! i, cornerColorsLab !! j with
               | Some labI, Some labJ => negb (15 <? calculateDeltaE labI labJ)%float
               | _, _ => true
               end)
            [(0, 1); (0, 2); (0, 3); (1, 2); (1, 3); (2, 3)]%nat in
  if cornersAreSimilar then
    (averageOf4 topLeft.1.1 topRight.1.1 bottomLeft.1.1 bottomRight.1.1,
     averageOf4 topLeft.1.2 topRight.1.2 bottomLeft.1.2 bottomRight.1.2,
     averageOf4 topLeft.2 topRight.2 bottomLeft.2 bottomRight.2)
  else
    let rows :=
      foldl (λ counts x,
               let topIndex := (Z.of_nat x + 0 * w) * 4 in
               let bottomIndex := (Z.of_nat x + (h - 1) * w) * 4 in
               tallyAdd (borderColor imageData bottomIndex)
                 (tallyAdd (borderColor imageData topIndex) counts))
            [] (seq 0 width) in
    let columns :=
      foldl (λ counts y,
               let leftIndex := (0 + Z.of_nat y * w) * 4 in
               let rightIndex := (w - 1 + Z.of_nat y * w) * 4 in
               tallyAdd (borderColor imageData rightIndex)
                 (tallyAdd (borderColor imageData leftIndex) counts))
            rows (seq 1 (height - 2)) in
    let '(_, mostFrequentColor) :=
      foldl (λ '(maxCount, mostFrequentColor) '(key, count),
               if bool_decide (maxCount < count)%nat then (count, key)
               else (maxCount, mostFrequentColor))
            (0%nat, RGB 0 0 0) columns in
    (Num (r mostFrequentColor), Num (g mostFrequentColor),
     Num (b mostFrequentColor)).

(** Step 5: the index of the palette colour closest, in Delta-E, to the
    background. *)
Definition closestToBackground (finalPaletteRGB : list rgb)
    (backgroundColor : number * number * number) : nat :=
  (foldl (λ '(closestColorIndex, minDistance) '(i, paletteColor),
            let distance :=
              calculateDeltaE (rgbLab pow paletteColor) (numberLab backgroundColor) in
            if (distance <? minDistance)%float then (i, distance)
            else (closestColorIndex, minDistance))
         (0%nat, infinity)
         (imap (λ i c, (i, c)) finalPaletteRGB)).1.

(** [splice(i, 1)] then [unshift], for [i > 0]. *)
Definition moveToFront (i : nat) (finalPaletteRGB : list rgb) : list rgb :=
  if bool_decide (0 < i)%nat then
    match finalPaletteRGB !! i with
    | Some closestColor => closestColor :: delete i finalPaletteRGB
    | None => finalPaletteRGB
    end
  else finalPaletteRGB.

(** [analyzeColorUsage]: pixels per band. *)
Definition analyzeColorUsage (bandMap : list Z) : gmap Z nat :=
  foldl (λ colorUsage colorIndex,
           <[colorIndex := (default 0 (colorUsage !! colorIndex) + 1)%nat]> colorUsage)
        ∅ bandMap.

(** Step 6: the detail colours, each with the index it has in
    [finalPaletteRGB], sorted by ascending pixel count. *)
Definition sortByUsage (colorUsage : gmap Z nat) (finalPaletteRGB : list rgb)
    : list rgb :=
  match finalPaletteRGB with
  | [] => []
  | baseLayer :: detailColors =>
      let count (p : nat * rgb) := default 0%nat (colorUsage !! Z.of_nat p.1) in
      baseLayer ::
        (snd <$> stableSort (λ a b, bool_decide (count b < count a)%nat)
                   (imap (λ k c, (S k, c)) detailColors))
  end.

Definition getImpactfulColors (data : list Z) (width height numColors : nat)
    : list rgb :=
  let candidateCount := Nat.min (numColors * 4) 64 in
  let allColors :=
    stableSort (λ a b, (0 <? impactScore b - impactScore a)%float)
      (colorHistogram data width height) in
  let candidates := take candidateCount allColors in
  if bool_decide (length candidates <= numColors)%nat
  then candidateColor <$> candidates
  else
    let candidatesLab :=
      (λ c, {| candidate := c; lab := rgbLab pow (candidateColor c) |})
        <$> candidates in
    let finalPalette := farthestPointSelection candidatesLab numColors in
    let finalPaletteRGB := (candidateColor ∘ candidate) <$> finalPalette in
    let backgroundColor := detectBackgroundColor data width height in
    let closestColorIndex := closestToBackground finalPaletteRGB backgroundColor in
    let reordered := moveToFront closestColorIndex finalPaletteRGB in
    let tempBandMap := computeBandMap reordered data in
    let colorUsage := analyzeColorUsage tempBandMap in
    sortByUsage colorUsage reordered.

End paletteSelection.

(** ** Uniqueness enforcement ([getSuggestedColors]) *)

(** A [Uint8ClampedArray] cell keeps an integer clamped to [0, 255]. *)
Definition clampByte (v : Z) : Z := Z.max 0 (Z.min 255 v).

(** [Math.round(v / 32) * 32], stored in a clamped cell. *)
Definition quantizeChannel (v : Z) : Z := clampByte ((v + 16) / 32 * 32).

Fixpoint preprocessImageData (imageData : list Z) : list Z :=
  match imageData with
  | r :: g :: b :: a :: rest =>
      quantizeChannel r :: quantizeChannel g :: quantizeChannel b :: a
        :: preprocessImageData rest
  | incomplete => quantizeChannel <$> incomplete
  end.

(** [usedColors.add]: a [Set] ignores a member it already has. *)
Definition setAdd (x : string) (used : list string) : list string :=
  if bool_decide (x ∈ used) then used else used ++ [x].

(** The squared distance of [findDistinctColor], where a channel read
    outside the buffer makes it NaN. *)
Definition sampleDistance (c : number * number * number) (used : rgb) : number :=
  match c with
  | (Num r0, Num g0, Num b0) => Num (colorDistance (RGB r0 g0 b0) used)
  | _ => NaN
  end.

Definition lessThan (x : number) (bound : Z) : bool :=
  match x with
  | Num v => v <? bound
  | NaN => false
  end.

(** [Math.floor(Math.random() * n)] for the random number [u]. *)
Definition randomBelow (u : float) (n : float) : number := floorNumber (u * n)%float.

(** The sampling loop of [findDistinctColor]: [attempts] more draws,
    starting at draw number [next] of [Math.random]. *)
Fixpoint samplePixels (random : nat → float) (usedColors : list string)
    (imageData : list Z) (attempts next : nat) : option string * nat :=
  match attempts with
  | O => (None, next)
  | S attempts' =>
      let cells := (ofNat (length imageData) / 4)%float in
      let pixelIndex :=
        match randomBelow (random next) cells with
        | Num k => Num (k * 4)
        | NaN => NaN
        end in
      let read offset :=
        match pixelIndex with
        | Num i => readByte imageData (i + offset)
        | NaN => NaN
        end in
      let sample := (read 0, read 1, read 2) in
      let color := rgbToHex sample.1.1 sample.1.2 sample.2 in
      let isDistinct :=
        forallb (λ usedColor,
                   negb (lessThan (sampleDistance sample (hexToRgb usedColor)) 10000))
                usedColors in
      if isDistinct then (Some color, S next)
      else samplePixels random usedColors imageData attempts' (S next)
  end.

Definition findDistinctColor (random : nat → float) (usedColors : list string)
    (imageData : list Z) (next : nat) : string * nat :=
  match samplePixels random usedColors imageData 100 next with
  | (Some color, next') => (color, next')
  | (None, next') =>
      let r := randomBelow (random next') 256 in
      let g := randomBelow (random (S next')) 256 in
      let b := randomBelow (random (S (S next'))) 256 in
      (rgbToHex r g b, S (S (S next')))
  end.

Fixpoint ensureUniqueLoop (random : nat → float) (imageData : list Z)
    (colors : list string) (uniqueColors usedColors : list string) (next : nat)
    : list string :=
  match colors with
  | [] => uniqueColors
  | color :: colors' =>
      if bool_decide (color ∈ usedColors) then
        let '(alternative, next') :=
          findDistinctColor random usedColors imageData next in
        ensureUniqueLoop random imageData colors'
          (uniqueColors ++ [alternative]) (setAdd alternative usedColors) next'
      else
        ensureUniqueLoop random imageData colors'
          (uniqueColors ++ [color]) (setAdd color usedColors) next
  end.

Definition ensureUniqueColors (random : nat → float) (colors : list string)
    (imageData : list Z) : list string :=
  ensureUniqueLoop random imageData colors [] [] 0.

Definition getSuggestedColors (pow : float → float → float)
    (random : nat → float) (imageData : list Z) (bands width height : nat)
    : list string :=
  let preprocessedData := preprocessImageData imageData in
  let dominantColors := getImpactfulColors pow preprocessedData width height bands in
  let hexColors := (λ c, rgbToHex (r c) (g c) (b c)) <$> dominantColors in
  ensureUniqueColors random hexColors imageData.

(** ** Heightfield mesh ([stl_exporter.js]) *)

Module StlExporter.

Local Open Scope float_scope.

(** [for (let i = 0; i < n; i++) body] over a state; an exception thrown
    by the body ends the loop. *)
Definition forLoop {S : Type} (n : nat) (body : nat → S → completion S) (s : S)
    : completion S :=
  foldl (λ c i, s' ← c; body i s') (Returned s) (seq 0 n).

(** [array.push(x)].  An array holds at most 2^32 - 1 elements: the push
    that would bring the length to 2^32 throws a RangeError. *)
Definition push {A : Type} (array : list A) (x : A) : completion (list A) :=
  if (2 ^ 32 <=? Z.of_nat (length array) + 1)%Z then Thrown RangeError
  else Returned (array ++ [x]).

(** The array index a number denotes as a property key: a non-negative
    integer (or -0); any other number names no element. *)
Definition toIndex (f : float) : option nat :=
  match Prim2SF f with
  | S754_zero _ => Some 0%nat
  | S754_finite false m e =>
      if (0 <=? e)%Z then Some (Z.to_nat (Zpos m * 2 ^ e))
      else if (Zpos m mod 2 ^ (- e) =? 0)%Z then Some (Z.to_nat (Zpos m / 2 ^ (- e)))
      else None
  | _ => None
  end.

(** [new Array(len)] accepts an integer in [0, 2^32 - 1] and throws a
    RangeError on anything else. *)
Definition arrayLength (len : float) : option nat :=
  match toIndex len with
  | Some n => if (Z.of_nat n <? 2 ^ 32)%Z then Some n else None
  | None => None
  end.

(** [v || d] on a number or [undefined]: 0, -0, NaN and [undefined] are
    falsy. *)
Definition orElse (v : option float) (d : float) : float :=
  match v with
  | Some x => if is_zero x || is_nan x then d else x
  | None => d
  end.

Record Canvas := { width : nat; height : nat }.

Record AppState := {
  bandMap : list float;   (* the Float32Array of band indices *)
  origCanvas : Canvas
}.

(** The values of the input elements after [parseFloat] / [parseInt]. *)
Record DomElements := {
  layerHeightInput : float;
  xSizeInput : float;
  ySizeInput : float;
  bandThicknessInput : float;
  baseThicknessInput : float;
  numBandsInput : float
}.

Definition vertex : Type := float * float * float.
Definition face : Type := option nat * option nat * option nat.

(** The height lookup table: [bandHeights[0]] is always assigned, the loop
    fills indices 1 to [numBands - 1]. *)
Fixpoint bandHeightsFrom (previous increment : float) (count : nat) : list float :=
  match count with
  | O => []
  | S count' =>
      let h := previous + increment in
      h :: bandHeightsFrom h increment count'
  end.

Definition makeBandHeights (numBands : nat)
    (baseThicknessInLayers additionalBandLayers singleLayerHeight : float)
    : list float :=
  let h0 := baseThicknessInLayers * singleLayerHeight in
  h0 :: bandHeightsFrom h0 (additionalBandLayers * singleLayerHeight) (numBands - 1).

Definition lookupHeight (bandHeights : list float) (band : option float)
    : option float :=
  match band with
  | Some k =>
      match toIndex k with
      | Some i => bandHeights !! i
      | None => None
      end
  | None => None
  end.

Record Mesh := {
  vertices : list vertex;
  topVertices : list (option nat);
  bottomVertices : list (option nat)
}.

(** The body of the vertex loop for pixel column [i], row [j]. *)
Definition pushPixel (imageWidth imageHeight : nat) (dx dy : float)
    (bandMap bandHeights : list float) (j i : nat) (m : Mesh) : completion Mesh :=
  let x := ofNat i * dx in
  let y := ofNat j * dy in
  let pixelIndex := (j * imageWidth + i)%nat in
  let bottomIndex := length (vertices m) in
  vertices1 ← push (vertices m) (x, y, 0);
  let bandMapIndex := ((imageHeight - 1 - j) * imageWidth + i)%nat in
  let band := bandMap !! bandMapIndex in
  let height := orElse (lookupHeight bandHeights band) 0 in
  let topIndex := length vertices1 in
  vertices2 ← push vertices1 (x, y, height);
  Returned
    {| vertices := vertices2;
       topVertices := <[pixelIndex := Some topIndex]> (topVertices m);
       bottomVertices := <[pixelIndex := Some bottomIndex]> (bottomVertices m) |}.

Definition generateVertices (imageWidth imageHeight : nat) (dx dy : float)
    (bandMap bandHeights : list float) : completion Mesh :=
  forLoop imageHeight
    (λ j, forLoop imageWidth
            (pushPixel imageWidth imageHeight dx dy bandMap bandHeights j))
    {| vertices := [];
       topVertices := replicate (imageWidth * imageHeight) None;
       bottomVertices := replicate (imageWidth * imageHeight) None |}.

(** Reading a cell of an index table: a hole and a missing cell both read
    as [undefined].  The wall loops compute [imageHeight - 1] and
    [imageWidth - 1] as row and column; on an empty canvas the tables are
    empty and every cell reads as [undefined], for the natural-number
    index used here as for the negative one of the source. *)
Definition readIndex (table : list (option nat)) (k : nat) : option nat :=
  mjoin (table !! k).

(** 1. Top and bottom surfaces: four triangles per 2x2 pixel quad. *)
Definition surfaceFaces (imageWidth imageHeight : nat) (m : Mesh)
    (faces : list face) : completion (list face) :=
  forLoop (imageHeight - 1) (λ j,
    forLoop (imageWidth - 1) (λ i faces,
      let top := readIndex (topVertices m) in
      let bottom := readIndex (bottomVertices m) in
      let v00_t := top (j * imageWidth + i)%nat in
      let v10_t := top (j * imageWidth + i + 1)%nat in
      let v01_t := top ((j + 1) * imageWidth + i)%nat in
      let v11_t := top ((j + 1) * imageWidth + i + 1)%nat in
      let v00_b := bottom (j * imageWidth + i)%nat in
      let v10_b := bottom (j * imageWidth + i + 1)%nat in
      let v01_b := bottom ((j + 1) * imageWidth + i)%nat in
      let v11_b := bottom ((j + 1) * imageWidth + i + 1)%nat in
      faces ← push faces (v00_t, v10_t, v11_t);
      faces ← push faces (v00_t, v11_t, v01_t);
      faces ← push faces (v00_b, v11_b, v10_b);
      push faces (v00_b, v01_b, v11_b))) faces.

(** 2. Front ([j = 0]) and back ([j = imageHeight - 1]) walls. *)
Definition frontBackFaces (imageWidth imageHeight : nat) (m : Mesh)
    (faces : list face) : completion (list face) :=
  forLoop (imageWidth - 1) (λ i faces,
    let top := readIndex (topVertices m) in
    let bottom := readIndex (bottomVertices m) in
    let jf := 0%nat in
    let jb := (imageHeight - 1)%nat in
    faces ← push faces
      (bottom (jf * imageWidth + i)%nat, top (jf * imageWidth + i)%nat,
       top (jf * imageWidth + i + 1)%nat);
    faces ← push faces
      (bottom (jf * imageWidth + i)%nat, top (jf * imageWidth + i + 1)%nat,
       bottom (jf * imageWidth + i + 1)%nat);
    faces ← push faces
      (bottom (jb * imageWidth + i)%nat, top (jb * imageWidth + i + 1)%nat,
       top (jb * imageWidth + i)%nat);
    push faces
      (bottom (jb * imageWidth + i)%nat, bottom (jb * imageWidth + i + 1)%nat,
       top (jb * imageWidth + i + 1)%nat)) faces.

(** 3. Left ([i = 0]) and right ([i = imageWidth - 1]) walls. *)
Definition leftRightFaces (imageWidth imageHeight : nat) (m : Mesh)
    (faces : list face) : completion (list face) :=
  forLoop (imageHeight - 1) (λ j faces,
    let top := readIndex (topVertices m) in
    let bottom := readIndex (bottomVertices m) in
    let il := 0%nat in
    let ir := (imageWidth - 1)%nat in
    faces ← push faces
      (bottom (j * imageWidth + il)%nat, top (j * imageWidth + il)%nat,
       top ((j + 1) * imageWidth + il)%nat);
    faces ← push faces
      (bottom (j * imageWidth + il)%nat, top ((j + 1) * imageWidth + il)%nat,
       bottom ((j + 1) * imageWidth + il)%nat);
    faces ← push faces
      (bottom (j * imageWidth + ir)%nat, top ((j + 1) * imageWidth + ir)%nat,
       top (j * imageWidth + ir)%nat);
    push faces
      (bottom (j * imageWidth + ir)%nat, bottom ((j + 1) * imageWidth + ir)%nat,
       top ((j + 1) * imageWidth + ir)%nat)) faces.

Definition generateFaces (imageWidth imageHeight : nat) (m : Mesh)
    : completion (list face) :=
  faces ← surfaceFaces imageWidth imageHeight m [];
  faces ← frontBackFaces imageWidth imageHeight m faces;
  leftRightFaces imageWidth imageHeight m faces.

(** Cross product of the two edge vectors of a triangle. *)
Definition crossProduct (v1 v2 v3 : vertex) : vertex :=
  let '(x1, y1, z1) := v1 in
  let '(x2, y2, z2) := v2 in
  let '(x3, y3, z3) := v3 in
  let ux := x2 - x1 in let uy := y2 - y1 in let uz := z2 - z1 in
  let vx := x3 - x1 in let vy := y3 - y1 in let vz := z3 - z1 in
  (uy * vz - uz * vy, uz * vx - ux * vz, ux * vy - uy * vx).

(** [Math.sqrt(n[0] ** 2 + n[1] ** 2 + n[2] ** 2) || 1]; the square
    [x ** 2] is taken as the IEEE product [x * x]. *)
Definition normalLength (n : vertex) : float :=
  let '(n0, n1, n2) := n in
  orElse (Some (sqrt (n0 * n0 + n1 * n1 + n2 * n2))) 1.

Definition normalizedNormal (v1 v2 v3 : vertex) : vertex :=
  let n := crossProduct v1 v2 v3 in
  let len := normalLength n in
  let '(n0, n1, n2) := n in
  (n0 / len, n1 / len, n2 / len).

(** One 50-byte record: the normal and the three corners, each component
    as [setFloat32] stores it (the two attribute bytes stay zero). *)
Record Triangle := {
  normal : vertex;
  corner1 : vertex;
  corner2 : vertex;
  corner3 : vertex
}.

Definition writeVertex (v : vertex) : vertex :=
  let '(x, y, z) := v in (fround x, fround y, fround z).

(** [vertices[i]] for an index that may be [undefined]. *)
Definition readVertex (vertices : list vertex) (i : option nat) : option vertex :=
  match i with
  | Some k => vertices !! k
  | None => None
  end.

(** Destructuring a missing vertex throws a TypeError. *)
Definition writeFace (vertices : list vertex) (f : face) : completion Triangle :=
  let '(i1, i2, i3) := f in
  match readVertex vertices i1, readVertex vertices i2, readVertex vertices i3 with
  | Some v1, Some v2, Some v3 =>
      Returned {| normal := writeVertex (normalizedNormal v1 v2 v3);
                  corner1 := writeVertex v1;
                  corner2 := writeVertex v2;
                  corner3 := writeVertex v3 |}
  | _, _, _ => Thrown TypeError
  end.

Fixpoint writeFaces (vertices : list vertex) (faces : list face)
    : completion (list Triangle) :=
  match faces with
  | [] => Returned []
  | f :: faces' =>
      t ← writeFace vertices f;
      ts ← writeFaces vertices faces';
      Returned (t :: ts)
  end.

(** The binary STL buffer: 80 header bytes, the triangle count as a
    little-endian uint32 at offset 80, then the records.  The memory
    limit of [new ArrayBuffer] depends on the engine and is left out. *)
Record Blob := {
  byteLength : Z;
  triangleCount : Z;
  triangles : list Triangle
}.

Definition generateStl (appState : AppState) (domElements : DomElements)
    : completion Blob :=
  let singleLayerHeight := layerHeightInput domElements in
  let additionalBandLayers := bandThicknessInput domElements in
  let baseThicknessInLayers := baseThicknessInput domElements in
  let numBands := numBandsInput domElements in
  let modelWidth := xSizeInput domElements in
  let modelDepth := ySizeInput domElements in
  let imageWidth := width (origCanvas appState) in
  let imageHeight := height (origCanvas appState) in
  let dx := modelWidth / ofInt (Z.of_nat imageWidth - 1) in
  let dy := modelDepth / ofInt (Z.of_nat imageHeight - 1) in
  match arrayLength numBands with
  | None => Thrown RangeError
  | Some n =>
      let bandHeights :=
        makeBandHeights n baseThicknessInLayers additionalBandLayers
          singleLayerHeight in
      if (2 ^ 32 <=? Z.of_nat (imageWidth * imageHeight))%Z then Thrown RangeError
      else
        m ← generateVertices imageWidth imageHeight dx dy
              (bandMap appState) bandHeights;
        faces ← generateFaces imageWidth imageHeight m;
        ts ← writeFaces (vertices m) faces;
        Returned {| byteLength := 84 + Z.of_nat (length faces) * 50;
                    triangleCount := Z.of_nat (length faces) mod 2 ^ 32;
                    triangles := ts |}
  end.

End StlExporter.

(* ================================================================== *)
(** * Notions used to state and prove the properties *)
(* ================================================================== *)

(** The two lowercase hexadecimal digits of a channel value. *)
Definition digitChar (k : Z) : ascii :=
  default "0"%char (String.get (Z.to_nat k) "0123456789abcdef").

Definition twoDigits (x : Z) : string :=
  String (digitChar (x / 16)) (String (digitChar (x mod 16)) EmptyString).

(** What the scan of the palette has established after reading the
    prefix [seen]: the candidate is the first among the closest. *)
Definition closestSoFar (pixelColor : rgb) (seen : list rgb)
    (minDistance : option Z) (bandIndex : nat) : Prop :=
  match minDistance with
  | None => seen = []
  | Some m =>
      ∃ c, seen !! bandIndex = Some c ∧ colorDistance pixelColor c = m ∧
        (∀ k c', seen !! k = Some c' → m <= colorDistance pixelColor c') ∧
        (∀ k c', (k < bandIndex)%nat → seen !! k = Some c' →
                 m < colorDistance pixelColor c')
  end.

(** The two vertices that the vertex loop pushes for pixel column [i],
    row [j]. *)
Definition bottomVertexOf (dx dy : float) (i j : nat) : StlExporter.vertex :=
  ((ofNat i * dx)%float, (ofNat j * dy)%float, 0%float).

Definition topVertexOf (imageWidth imageHeight : nat) (dx dy : float)
    (bandMap bandHeights : list float) (i j : nat) : StlExporter.vertex :=
  ((ofNat i * dx)%float, (ofNat j * dy)%float,
   StlExporter.orElse
     (StlExporter.lookupHeight bandHeights
        (bandMap !! ((imageHeight - 1 - j) * imageWidth + i)%nat)) 0%float).

(** The state of the vertex loop after the first [n] pixels, in row-major
    order: the vertices come in pairs, bottom then top, and the two index
    tables point at them. *)
Definition meshUpTo (imageWidth imageHeight : nat) (dx dy : float)
    (bandMap bandHeights : list float) (n : nat) (m : StlExporter.Mesh) : Prop :=
  length (StlExporter.vertices m) = (2 * n)%nat ∧
  length (StlExporter.topVertices m) = (imageWidth * imageHeight)%nat ∧
  length (StlExporter.bottomVertices m) = (imageWidth * imageHeight)%nat ∧
  (∀ p, (p < n)%nat →
     StlExporter.topVertices m !! p = Some (Some (2 * p + 1)%nat) ∧
     StlExporter.bottomVertices m !! p = Some (Some (2 * p)%nat)) ∧
  (∀ i j, (i < imageWidth)%nat → (j * imageWidth + i < n)%nat →
     StlExporter.vertices m !! (2 * (j * imageWidth + i))%nat
       = Some (bottomVertexOf dx dy i j) ∧
     StlExporter.vertices m !! (2 * (j * imageWidth + i) + 1)%nat
       = Some (topVertexOf imageWidth imageHeight dx dy bandMap bandHeights i j)).

(** The vertex loop of [generateStl], run once [new Array(numBands)] has
    accepted the length [n]. *)
Definition stlMesh (appState : StlExporter.AppState)
    (domElements : StlExporter.DomElements) (n : nat)
    : completion StlExporter.Mesh :=
  let w := StlExporter.width (StlExporter.origCanvas appState) in
  let h := StlExporter.height (StlExporter.origCanvas appState) in
  StlExporter.generateVertices w h
    (StlExporter.xSizeInput domElements / ofInt (Z.of_nat w - 1))%float
    (StlExporter.ySizeInput domElements / ofInt (Z.of_nat h - 1))%float
    (StlExporter.bandMap appState)
    (StlExporter.makeBandHeights n
       (StlExporter.baseThicknessInput domElements)
       (StlExporter.bandThicknessInput domElements)
       (StlExporter.layerHeightInput domElements)).

Definition finiteVertex (v : StlExporter.vertex) : bool :=
  let '(x, y, z) := v in is_finite x && is_finite y && is_finite z.

Definition isZero (x : float) : Prop := x = 0%float ∨ x = (-0)%float.

(** A candidate pair of the matcher that indexes the palette and the
    inventory and carries the inventory colour of its index. *)
Definition wfMatch (m : nat) (colors : list string) (mt : Match) : Prop :=
  (suggestedIndex mt < m)%nat ∧ (filamentIndex mt < length colors)%nat ∧
  filamentColor mt = colors !! filamentIndex mt.

(** The state of the greedy pass against the list [pairs] of the
    (palette index, inventory index) assignments committed so far. *)
Definition consistentMatching (m : nat) (colors : list string)
    (st : Matching) (pairs : list (nat * nat)) : Prop :=
  length (matchedPalette st) = m ∧
  NoDup pairs.*1 ∧ NoDup pairs.*2 ∧
  (∀ si, si ∈ usedSuggestions st ↔ si ∈ pairs.*1) ∧
  (∀ fi, fi ∈ usedFilaments st ↔ fi ∈ pairs.*2) ∧
  (∀ si fi, (si, fi) ∈ pairs →
     (si < m)%nat ∧ (fi < length colors)%nat ∧
     matchedPalette st !! si = Some (colors !! fi)) ∧
  (∀ si, (si < m)%nat → si ∉ pairs.*1 → matchedPalette st !! si = Some None).

(** The fill pass once every inventory index is used: a falsy cell takes
    the colour of inventory index 0. *)
Definition fillExhausted (colors : list string) (matched : list (option string))
    (i : nat) : list (option string) :=
  if falsy (mjoin (matched !! i)) then <[i := colors !! 0%nat]> matched
  else matched.

(** A colour whose three channels are bytes. *)
Definition byteColor (c : rgb) : Prop :=
  0 <= r c <= 255 ∧ 0 <= g c <= 255 ∧ 0 <= b c <= 255.

(** A face all of whose corners are vertices of the mesh. *)
Definition faceInRange (count : nat) (f : StlExporter.face) : Prop :=
  let '(i1, i2, i3) := f in
  (∃ k, i1 = Some k ∧ (k < count)%nat) ∧
  (∃ k, i2 = Some k ∧ (k < count)%nat) ∧
  (∃ k, i3 = Some k ∧ (k < count)%nat).

(** What [n] rounds of a loop have pushed when round [i] pushes the
    elements of [block i]. *)
Definition blocks {A : Type} (n : nat) (block : nat → list A) : list A :=
  concat (block <$> seq 0 n).

(** The four faces that the surface loop pushes for the quad at column
    [i], row [j]. *)
Definition quadFaces (imageWidth : nat) (m : StlExporter.Mesh) (j i : nat)
    : list StlExporter.face :=
  let top := StlExporter.readIndex (StlExporter.topVertices m) in
  let bottom := StlExporter.readIndex (StlExporter.bottomVertices m) in
  [ (top (j * imageWidth + i)%nat, top (j * imageWidth + i + 1)%nat,
     top ((j + 1) * imageWidth + i + 1)%nat);
    (top (j * imageWidth + i)%nat, top ((j + 1) * imageWidth + i + 1)%nat,
     top ((j + 1) * imageWidth + i)%nat);
    (bottom (j * imageWidth + i)%nat, bottom ((j + 1) * imageWidth + i + 1)%nat,
     bottom (j * imageWidth + i + 1)%nat);
    (bottom (j * imageWidth + i)%nat, bottom ((j + 1) * imageWidth + i)%nat,
     bottom ((j + 1) * imageWidth + i + 1)%nat) ].

(** The four faces that the front and back wall loop pushes for column
    [i]. *)
Definition frontBackWall (imageWidth imageHeight : nat) (m : StlExporter.Mesh)
    (i : nat) : list StlExporter.face :=
  let top := StlExporter.readIndex (StlExporter.topVertices m) in
  let bottom := StlExporter.readIndex (StlExporter.bottomVertices m) in
  let jf := 0%nat in
  let jb := (imageHeight - 1)%nat in
  [ (bottom (jf * imageWidth + i)%nat, top (jf * imageWidth + i)%nat,
     top (jf * imageWidth + i + 1)%nat);
    (bottom (jf * imageWidth + i)%nat, top (jf * imageWidth + i + 1)%nat,
     bottom (jf * imageWidth + i + 1)%nat);
    (bottom (jb * imageWidth + i)%nat, top (jb * imageWidth + i + 1)%nat,
     top (jb * imageWidth + i)%nat);
    (bottom (jb * imageWidth + i)%nat, bottom (jb * imageWidth + i + 1)%nat,
     top (jb * imageWidth + i + 1)%nat) ].

(** The four faces that the left and right wall loop pushes for row [j]. *)
Definition leftRightWall (imageWidth : nat) (m : StlExporter.Mesh) (j : nat)
    : list StlExporter.face :=
  let top := StlExporter.readIndex (StlExporter.topVertices m) in
  let bottom := StlExporter.readIndex (StlExporter.bottomVertices m) in
  let il := 0%nat in
  let ir := (imageWidth - 1)%nat in
  [ (bottom (j * imageWidth + il)%nat, top (j * imageWidth + il)%nat,
     top ((j + 1) * imageWidth + il)%nat);
    (bottom (j * imageWidth + il)%nat, top ((j + 1) * imageWidth + il)%nat,
     bottom ((j + 1) * imageWidth + il)%nat);
    (bottom (j * imageWidth + ir)%nat, top ((j + 1) * imageWidth + ir)%nat,
     top (j * imageWidth + ir)%nat);
    (bottom (j * imageWidth + ir)%nat, bottom ((j + 1) * imageWidth + ir)%nat,
     top ((j + 1) * imageWidth + ir)%nat) ].

(** The face array once the three face loops have run. *)
Definition stlFaces (imageWidth imageHeight : nat) (m : StlExporter.Mesh)
    : list StlExporter.face :=
  blocks (imageHeight - 1)
    (λ j, blocks (imageWidth - 1) (quadFaces imageWidth m j))
  ++ blocks (imageWidth - 1) (frontBackWall imageWidth imageHeight m)
  ++ blocks (imageHeight - 1) (leftRightWall imageWidth m).

(** The number of faces of a raster: four per quad, four per wall
    segment of the two wall loops. *)
Definition faceTotal (imageWidth imageHeight : nat) : nat :=
  (4 * (imageWidth - 1) * (imageHeight - 1) + 4 * (imageWidth - 1)
   + 4 * (imageHeight - 1))%nat.

(** The vertex indices of a face and the corners of its record, in the
    order in which they are written. *)
Definition faceCorners (f : StlExporter.face) : list (option nat) :=
  let '(i1, i2, i3) := f in [i1; i2; i3].

Definition triangleCorners (t : StlExporter.Triangle) : list StlExporter.vertex :=
  [StlExporter.corner1 t; StlExporter.corner2 t; StlExporter.corner3 t].

(** A vertex whose three coordinates are below 2^250 in magnitude. *)
Definition boundedVertex (v : StlExporter.vertex) : bool :=
  let '(x, y, z) := v in
  ((abs x <? 0x1p+250) && (abs y <? 0x1p+250) && (abs z <? 0x1p+250))%float.

(** A vector whose three components are zeros of either sign. *)
Definition zeroVertex (v : StlExporter.vertex) : Prop :=
  let '(x, y, z) := v in isZero x ∧ isZero y ∧ isZero z.

(** Magnitudes of binary64 values, on their unfolded form: [below M x]
    says |x| < 2^M, [above L x] that x is finite with 2^(L-1) <= |x|, and
    [nonneg x] that x is a finite number whose sign bit is clear. *)
Definition below (M : Z) (x : spec_float) : Prop :=
  match x with
  | S754_zero _ => True
  | S754_finite _ m e => Zdigits2 (Zpos m) + e <= M
  | _ => False
  end.

Definition above (L : Z) (x : spec_float) : Prop :=
  match x with
  | S754_finite _ m e => L <= Zdigits2 (Zpos m) + e
  | _ => False
  end.

Definition nonneg (x : spec_float) : Prop :=
  match x with
  | S754_zero false | S754_finite false _ _ => True
  | _ => False
  end.

(* ================================================================== *)
(** * Properties *)
(* ================================================================== *)

Example hexToRgb_ex : hexToRgb "#FF8000" = RGB 255 128 0.
Proof. reflexivity. Qed.

Example rgbToHex_ex : rgbToHex 255 128 0 = "#ff8000".
Proof. reflexivity. Qed.

(** ** The hexadecimal interchange format *)


Lemma below_cases (n : nat) (x : Z) :
  0 <= x < Z.of_nat n → x ∈ (Z.of_nat <$> seq 0 n).
Proof.
  intros Hx. apply list_elem_of_fmap. exists (Z.to_nat x). split; [lia|].
  apply elem_of_seq. lia.
Qed.

Lemma channelToHex_twoDigits (x : Z) :
  0 <= x <= 255 → channelToHex x = twoDigits x.
Proof.
  intros Hx.
  assert (Hall : Forall (λ x, channelToHex (Num x) = twoDigits x)
                   (Z.of_nat <$> seq 0 256)).
  { apply (bool_decide_unpack _). vm_compute. exact I. }
  rewrite Forall_forall in Hall. apply Hall, (below_cases 256). lia.
Qed.

Ltac enumerate_below n x H :=
  let Hin := fresh "Hin" in
  assert (Hin := below_cases n x H); cbn in Hin;
  repeat (apply elem_of_cons in Hin as [-> | Hin]);
  [.. | by apply elem_of_nil in Hin].

Lemma parseInt16_two_digits (k1 k2 : Z) (s : string) :
  0 <= k1 < 16 → 0 <= k2 < 16 →
  parseInt16 (String (digitChar k1) (String (digitChar k2) s)) =
  match parseHexDigits (Some (k1 * 16 + k2)) s with
  | Some m => Num (roundToBits 53 m)
  | None => NaN
  end.
Proof.
  intros H1 H2.
  enumerate_below 16%nat k1 H1; enumerate_below 16%nat k2 H2; reflexivity.
Qed.

Lemma parseHexDigits_digit (k : Z) (acc : Z) (s : string) :
  0 <= k < 16 →
  parseHexDigits (Some acc) (String (digitChar k) s) =
  parseHexDigits (Some (acc * 16 + k)) s.
Proof. intros H. enumerate_below 16%nat k H; reflexivity. Qed.

Lemma roundToBits_small (p n : Z) : 0 <= n < 2 ^ p → roundToBits p n = n.
Proof.
  intros [H0 Hn]. unfold roundToBits.
  destruct (decide (n = 0)) as [-> | Hne].
  - destruct (Z.leb_spec (Z.log2 0 + 1 - p) 0) as [_ | Hlt]; [done|].
    change (Z.log2 0) with 0 in *. rewrite Z.shiftr_0_l, Z.land_0_l.
    assert (0 < Z.shiftl 1 (0 + 1 - p - 1)).
    { rewrite Z.shiftl_1_l. apply Z.pow_pos_nonneg; lia. }
    destruct (Z.ltb_spec (Z.shiftl 1 (0 + 1 - p - 1)) 0); [lia|].
    destruct (Z.eqb_spec 0 (Z.shiftl 1 (0 + 1 - p - 1))); [lia|].
    cbn. apply Z.shiftl_0_l.
  - assert (0 <= p).
    { destruct (Z.le_gt_cases 0 p); [done|]. rewrite Z.pow_neg_r in Hn; lia. }
    assert (Z.log2 n < p) by (apply Z.log2_lt_pow2; lia).
    destruct (Z.leb_spec (Z.log2 n + 1 - p) 0); [done | lia].
Qed.

(** The string that [rgbToHex] writes for three bytes reads back, as a
    hexadecimal numeral, as the 24-bit number r * 2^16 + g * 2^8 + b. *)
Lemma parseInt16_rgbToHex (r0 g0 b0 : Z) :
  0 <= r0 <= 255 → 0 <= g0 <= 255 → 0 <= b0 <= 255 →
  parseInt16 (slice1 (rgbToHex r0 g0 b0)) = Num (r0 * 65536 + g0 * 256 + b0).
Proof.
  intros Hr Hg Hb. unfold rgbToHex.
  rewrite !channelToHex_twoDigits by done.
  change (slice1 ("#" +:+ twoDigits r0 +:+ twoDigits g0 +:+ twoDigits b0))
    with (String (digitChar (r0 / 16)) (String (digitChar (r0 mod 16))
           (String (digitChar (g0 / 16)) (String (digitChar (g0 mod 16))
             (String (digitChar (b0 / 16)) (String (digitChar (b0 mod 16)) EmptyString)))))).
  assert (Hdiv : ∀ x, 0 <= x <= 255 → 0 <= x / 16 < 16 ∧ 0 <= x mod 16 < 16).
  { intros x Hx. split; [|apply Z.mod_pos_bound; lia].
    split; [apply Z.div_pos; lia | apply Z.div_lt_upper_bound; lia]. }
  destruct (Hdiv _ Hr) as [? ?], (Hdiv _ Hg) as [? ?], (Hdiv _ Hb) as [? ?].
  rewrite parseInt16_two_digits by done.
  rewrite !parseHexDigits_digit by done. cbn [parseHexDigits].
  set (m := (((r0 / 16 * 16 + r0 mod 16) * 16 + g0 / 16) * 16 + g0 mod 16) * 16
            + b0 / 16).
  assert (Hm : m * 16 + b0 mod 16 = r0 * 65536 + g0 * 256 + b0).
  { subst m. pose proof (Z.div_mod r0 16). pose proof (Z.div_mod g0 16).
    pose proof (Z.div_mod b0 16). lia. }
  rewrite Hm. rewrite roundToBits_small; [done|]. lia.
Qed.

(** C9.  For all integers r, g, b in [0, 255], decoding the hex string that
    [rgbToHex] writes gives back exactly the three channels. *)
Theorem hexToRgb_rgbToHex (r0 g0 b0 : Z) :
  0 <= r0 <= 255 → 0 <= g0 <= 255 → 0 <= b0 <= 255 →
  hexToRgb (rgbToHex r0 g0 b0) = RGB r0 g0 b0.
Proof.
  intros Hr Hg Hb. unfold hexToRgb.
  rewrite parseInt16_rgbToHex by done.
  set (v := r0 * 65536 + g0 * 256 + b0).
  assert (Hv : 0 <= v < 2 ^ 24) by (subst v; lia).
  unfold ToInt32.
  rewrite (Z.mod_small v (2 ^ 32)) by lia.
  destruct (Z.leb_spec (2 ^ 31) v) as [? | _]; [lia|].
  rewrite !Z.shiftr_div_pow2 by lia.
  change 255 with (Z.ones 8). rewrite !Z.land_ones by lia.
  change (2 ^ 16) with 65536. change (2 ^ 8) with 256.
  assert (Hq16 : v / 65536 = r0).
  { symmetry. apply (Z.div_unique _ _ _ (g0 * 256 + b0)); subst v; lia. }
  assert (Hq8 : v / 256 = r0 * 256 + g0).
  { symmetry. apply (Z.div_unique _ _ _ b0); subst v; lia. }
  rewrite Hq16, Hq8. f_equal.
  - apply Z.mod_small; lia.
  - symmetry. apply (Z.mod_unique _ _ r0); lia.
  - symmetry. apply (Z.mod_unique _ _ (r0 * 256 + g0)); subst v; lia.
Qed.

Lemma hexToRgb_rgbToHex_witness : hexToRgb (rgbToHex 18 52 86) = RGB 18 52 86.
Proof. apply (hexToRgb_rgbToHex 18 52 86); lia. Defined.

(** ** The band raster *)

Lemma processImage_bandMap (appState : AppState) (domElements : DomElements)
    (res : ProcessResult) :
  processImage appState domElements = Returned (Some res) →
  default [] (suggestedPalette appState) ≠ [] ∧
  bandMap res =
    computeBandMap (hexToRgb <$> default [] (suggestedPalette appState))
      (imageData appState).
Proof.
  unfold processImage. intros H.
  case_decide as Hlen; [done|].
  split; [intros Heq; apply Hlen; by rewrite Heq|].
  destruct (_ !! 0%nat); [|done].
  unfold mbind, completion_bind in H.
  match type of H with match ?c with _ => _ end = _ => destruct c end;
    by simplify_eq.
Qed.


Lemma closestLoop_invariant (pixelColor : rgb) (rest seen : list rgb)
    (minDistance : option Z) (bandIndex : nat) :
  closestSoFar pixelColor seen minDistance bandIndex →
  seen ++ rest ≠ [] →
  ∃ m, closestSoFar pixelColor (seen ++ rest) (Some m)
         (closestLoop pixelColor rest (length seen) minDistance bandIndex).
Proof.
  revert seen minDistance bandIndex.
  induction rest as [|c rest IH]; intros seen minDistance bandIndex Hinv Hne.
  - rewrite app_nil_r in *. destruct minDistance as [m|]; [by exists m|done].
  - cbn [closestLoop].
    replace (seen ++ c :: rest) with ((seen ++ [c]) ++ rest) in *
      by (by rewrite <- app_assoc).
    replace (S (length seen)) with (length (seen ++ [c]))
      by (rewrite length_app; cbn; lia).
    assert (Hnew : (∀ k c', seen !! k = Some c' →
                            colorDistance pixelColor c < colorDistance pixelColor c') →
              closestSoFar pixelColor (seen ++ [c])
                (Some (colorDistance pixelColor c)) (length seen)).
    { intros Hlt. exists c. split; [|split; [done|split]].
      - by rewrite lookup_app_r, Nat.sub_diag.
      - intros k c' Hk. destruct (decide (k < length seen)%nat).
        + rewrite lookup_app_l in Hk by done. specialize (Hlt _ _ Hk). lia.
        + rewrite lookup_app_r in Hk by lia.
          destruct (k - length seen)%nat; [cbn in Hk; simplify_eq; lia|done].
      - intros k c' Hk Hc'. rewrite lookup_app_l in Hc' by done. eauto. }
    destruct minDistance as [m|].
    + destruct Hinv as (c0 & Hc0 & Hd & Hmin & Hfirst).
      destruct (Z.ltb_spec (colorDistance pixelColor c) m) as [Hlt | Hge].
      * apply IH; [|by destruct seen].
        apply Hnew. intros k c' Hk. specialize (Hmin _ _ Hk). lia.
      * apply IH; [|by destruct seen].
        exists c0. pose proof (lookup_lt_Some _ _ _ Hc0) as Hb.
        split; [by rewrite lookup_app_l|]. split; [done|]. split.
        -- intros k c' Hk. destruct (decide (k < length seen)%nat).
           ++ rewrite lookup_app_l in Hk by done. eauto.
           ++ rewrite lookup_app_r in Hk by lia.
              destruct (k - length seen)%nat; [cbn in Hk; simplify_eq; lia|done].
        -- intros k c' Hk Hc'. rewrite lookup_app_l in Hc' by lia. eauto.
    + cbn in Hinv. subst seen. apply IH; [|done].
      apply Hnew. intros k c' Hk. done.
Qed.

Lemma closestBand_spec (paletteColors : list rgb) (pixelColor : rgb) :
  paletteColors ≠ [] →
  ∃ c, paletteColors !! closestBand paletteColors pixelColor = Some c ∧
    (∀ k c', paletteColors !! k = Some c' →
             colorDistance pixelColor c <= colorDistance pixelColor c') ∧
    (∀ k c', (k < closestBand paletteColors pixelColor)%nat →
             paletteColors !! k = Some c' →
             colorDistance pixelColor c < colorDistance pixelColor c').
Proof.
  intros Hne.
  destruct (closestLoop_invariant pixelColor paletteColors [] None 0%nat)
    as (m & c & Hc & Hd & Hmin & Hfirst); [done | done |].
  cbn in *. exists c. rewrite Hd. eauto.
Qed.

(** C2.  Every entry of the band raster that [processImage] returns is the
    index of a palette colour, in [0, N-1]; that colour is at least as
    close to the pixel, in squared RGB distance, as every other palette
    colour, and strictly closer than every colour of lower index.  The
    raster is a [Float32Array], which holds every index below 2^24. *)
Theorem processImage_nearest_band (appState : AppState)
    (domElements : DomElements) (palette : list string) (res : ProcessResult) :
  suggestedPalette appState = Some palette →
  Z.of_nat (length palette) <= 2 ^ 24 →
  processImage appState domElements = Returned (Some res) →
  length (bandMap res) = length (pixels (imageData appState)) ∧
  ∀ j pixelColor, pixels (imageData appState) !! j = Some pixelColor →
    ∃ k c, bandMap res !! j = Some (Z.of_nat k) ∧
      0 <= Z.of_nat k <= Z.of_nat (length palette) - 1 ∧
      (hexToRgb <$> palette) !! k = Some c ∧
      (∀ k' c', (hexToRgb <$> palette) !! k' = Some c' →
                colorDistance pixelColor c <= colorDistance pixelColor c') ∧
      (∀ k' c', (k' < k)%nat → (hexToRgb <$> palette) !! k' = Some c' →
                colorDistance pixelColor c < colorDistance pixelColor c').
Proof.
  intros Hsp Hsize Hrun.
  apply processImage_bandMap in Hrun as [Hne ->]. rewrite Hsp in *. cbn in *.
  unfold computeBandMap. split; [by rewrite length_fmap|].
  intros j pixelColor Hpx.
  assert (Hne' : hexToRgb <$> palette ≠ []) by (by destruct palette).
  destruct (closestBand_spec _ pixelColor Hne') as (c & Hc & Hmin & Hfirst).
  exists (closestBand (hexToRgb <$> palette) pixelColor), c.
  pose proof (lookup_lt_Some _ _ _ Hc) as Hlt. rewrite length_fmap in Hlt.
  split; [|split; [lia|done]].
  rewrite list_lookup_fmap, Hpx. cbn. f_equal.
  apply roundToBits_small. lia.
Qed.

Lemma processImage_nearest_band_witness :
  let appState :=
    {| imageData := [10; 10; 10; 255; 250; 250; 250; 255];
       width := 2; height := 1;
       suggestedPalette := Some ["#000000"; "#ffffff"]%string;
       currentPalette := None |} in
  let palette := ["#000000"; "#ffffff"]%string in
  ∃ res,
    processImage appState {| layerSliderValue := 1; singleLayerToggle := None |}
      = Returned (Some res) ∧
    bandMap res = [0; 1] ∧
    length (bandMap res) = length (pixels (imageData appState)) ∧
    ∀ j pixelColor, pixels (imageData appState) !! j = Some pixelColor →
      ∃ k c, bandMap res !! j = Some (Z.of_nat k) ∧
        0 <= Z.of_nat k <= Z.of_nat (length palette) - 1 ∧
        (hexToRgb <$> palette) !! k = Some c ∧
        (∀ k' c', (hexToRgb <$> palette) !! k' = Some c' →
                  colorDistance pixelColor c <= colorDistance pixelColor c') ∧
        (∀ k' c', (k' < k)%nat → (hexToRgb <$> palette) !! k' = Some c' →
                  colorDistance pixelColor c < colorDistance pixelColor c').
Proof.
  intros appState palette.
  assert (Hrun : processImage appState
                   {| layerSliderValue := 1; singleLayerToggle := None |}
                 = Returned (Some {| bandMap := [0; 1];
                      previewImageData :=
                        {| data := [0; 0; 0; 255; 255; 255; 255; 255];
                           previewWidth := 2; previewHeight := 1 |} |}))
    by (vm_compute; reflexivity).
  eexists. split; [exact Hrun|]. split; [reflexivity|].
  refine (processImage_nearest_band appState _ palette _ eq_refl _ Hrun).
  change (2 <= 2 ^ 24). lia.
Defined.

(** C1.  Two runs of [processImage] on the same pixel buffer and the same
    structural palette return the same band raster, whatever the two
    render palettes (and the two layer selections) are. *)
Theorem processImage_bandMap_render_independent
    (pixelBuffer : list Z) (w h : nat) (structural : option (list string))
    (render1 render2 : option (list string)) (dom1 dom2 : DomElements)
    (res1 res2 : ProcessResult) :
  processImage {| imageData := pixelBuffer; width := w; height := h;
                  suggestedPalette := structural;
                  currentPalette := render1 |} dom1 = Returned (Some res1) →
  processImage {| imageData := pixelBuffer; width := w; height := h;
                  suggestedPalette := structural;
                  currentPalette := render2 |} dom2 = Returned (Some res2) →
  bandMap res1 = bandMap res2.
Proof.
  intros [_ H1]%processImage_bandMap [_ H2]%processImage_bandMap.
  by rewrite H1, H2.
Qed.

Lemma processImage_bandMap_render_independent_witness :
  ∃ res1 res2,
    processImage {| imageData := [10; 10; 10; 255; 250; 250; 250; 255];
                    width := 2; height := 1;
                    suggestedPalette := Some ["#000000"; "#ffffff"]%string;
                    currentPalette := Some ["#ff0000"; "#00ff00"]%string |}
      {| layerSliderValue := 1; singleLayerToggle := None |}
      = Returned (Some res1) ∧
    processImage {| imageData := [10; 10; 10; 255; 250; 250; 250; 255];
                    width := 2; height := 1;
                    suggestedPalette := Some ["#000000"; "#ffffff"]%string;
                    currentPalette := Some ["#0000ff"; "#123456"]%string |}
      {| layerSliderValue := 0; singleLayerToggle := Some true |}
      = Returned (Some res2) ∧
    data (previewImageData res1) ≠ data (previewImageData res2) ∧
    bandMap res1 = bandMap res2.
Proof.
  set (r1 := {| bandMap := [0; 1];
                previewImageData :=
                  {| data := [255; 0; 0; 255; 0; 255; 0; 255];
                     previewWidth := 2; previewHeight := 1 |} |}).
  set (r2 := {| bandMap := [0; 1];
                previewImageData :=
                  {| data := [0; 0; 255; 255; 0; 0; 255; 255];
                     previewWidth := 2; previewHeight := 1 |} |}).
  exists r1, r2.
  assert (H1 : processImage
                 {| imageData := [10; 10; 10; 255; 250; 250; 250; 255];
                    width := 2; height := 1;
                    suggestedPalette := Some ["#000000"; "#ffffff"]%string;
                    currentPalette := Some ["#ff0000"; "#00ff00"]%string |}
                 {| layerSliderValue := 1; singleLayerToggle := None |}
               = Returned (Some r1)) by (vm_compute; reflexivity).
  assert (H2 : processImage
                 {| imageData := [10; 10; 10; 255; 250; 250; 250; 255];
                    width := 2; height := 1;
                    suggestedPalette := Some ["#000000"; "#ffffff"]%string;
                    currentPalette := Some ["#0000ff"; "#123456"]%string |}
                 {| layerSliderValue := 0; singleLayerToggle := Some true |}
               = Returned (Some r2)) by (vm_compute; reflexivity).
  split; [exact H1|]. split; [exact H2|]. split; [discriminate|].
  exact (processImage_bandMap_render_independent _ _ _ _ _ _ _ _ _ _ H1 H2).
Defined.

(** ** Magnitudes of binary64 values *)

(** How large the result of an IEEE operation can be, from the sizes of
    its arguments: enough to show that a computation neither overflows
    nor divides two infinities. *)

(** *** Binary digits *)
Lemma digits2_pos_size (p : positive) : digits2_pos p = Pos.size p.
Proof. induction p; cbn; by rewrite ?IHp. Qed.

Lemma Zdigits2_pos_bounds (p : positive) :
  2 ^ (Zdigits2 (Zpos p) - 1) <= Zpos p < 2 ^ Zdigits2 (Zpos p).
Proof.
  cbn [Zdigits2]. rewrite digits2_pos_size.
  pose proof (Pos.size_gt p) as Hgt. pose proof (Pos.size_le p) as Hle.
  assert (Hpow : ∀ q, Zpos (2 ^ q) = 2 ^ Zpos q).
  { intros q. by rewrite Pos2Z.inj_pow. }
  split.
  - assert (2 ^ Zpos (Pos.size p) <= 2 * Zpos p) as H.
    { rewrite <- Hpow. change (2 * Zpos p) with (Zpos p~0). by apply Pos2Z.pos_le_pos. }
    replace (Zpos (Pos.size p)) with (Zpos (Pos.size p) - 1 + 1) in H by lia.
    rewrite Z.pow_add_r in H by lia. lia.
  - rewrite <- Hpow. by apply Pos2Z.pos_lt_pos.
Qed.

Lemma Zdigits2_nonneg (m : Z) : 0 <= Zdigits2 m.
Proof. destruct m; cbn; lia. Qed.

Lemma Zdigits2_bounds (m : Z) :
  0 < m → 2 ^ (Zdigits2 m - 1) <= m < 2 ^ Zdigits2 m.
Proof. destruct m as [|p|p]; try lia. intros _. apply Zdigits2_pos_bounds. Qed.

Lemma Zdigits2_le_intro (m k : Z) : 0 <= m → 0 <= k → m < 2 ^ k → Zdigits2 m <= k.
Proof.
  intros Hm Hk Hlt. destruct (Z.eq_dec m 0) as [-> | Hne]; [cbn; lia|].
  pose proof (Zdigits2_bounds m ltac:(lia)) as [Hlo _].
  destruct (Z.le_gt_cases (Zdigits2 m) k) as [|Hgt]; [done|].
  assert (2 ^ k <= 2 ^ (Zdigits2 m - 1)) by (apply Z.pow_le_mono_r; lia). lia.
Qed.

Lemma Zdigits2_ge_intro (m k : Z) : 2 ^ (k - 1) <= m → 0 < m → k <= Zdigits2 m.
Proof.
  intros Hle Hm. pose proof (Zdigits2_bounds m Hm) as [_ Hhi].
  destruct (Z.le_gt_cases k (Zdigits2 m)) as [|Hgt]; [done|].
  assert (2 ^ Zdigits2 m <= 2 ^ (k - 1)) by (apply Z.pow_le_mono_r; lia). lia.
Qed.

Lemma Zdigits2_pos (m : Z) : 0 < m → 1 <= Zdigits2 m.
Proof. destruct m; cbn; lia. Qed.

Lemma Zdigits2_mono (m m' : Z) : 0 <= m <= m' → Zdigits2 m <= Zdigits2 m'.
Proof.
  intros [Hm Hle]. destruct (Z.eq_dec m' 0) as [-> | Hne].
  - replace m with 0 by lia. done.
  - apply Zdigits2_le_intro; [done | apply Zdigits2_nonneg|].
    pose proof (Zdigits2_bounds m' ltac:(lia)). lia.
Qed.

Lemma Zdigits2_div_pow2 (m n : Z) :
  0 <= m → 0 <= n → Zdigits2 (m / 2 ^ n) = Z.max (Zdigits2 m - n) 0.
Proof.
  intros Hm Hn. destruct (Z.eq_dec m 0) as [-> | Hne].
  { rewrite Z.div_0_l by lia. cbn. lia. }
  pose proof (Zdigits2_bounds m ltac:(lia)) as [Hlo Hhi].
  pose proof (Zdigits2_pos m ltac:(lia)) as Hd.
  assert (0 < 2 ^ n) by (apply Z.pow_pos_nonneg; lia).
  destruct (Z.le_gt_cases (Zdigits2 m) n) as [Hle | Hgt].
  - rewrite Z.div_small; [cbn; lia|]. split; [lia|].
    assert (2 ^ Zdigits2 m <= 2 ^ n) by (apply Z.pow_le_mono_r; lia). lia.
  - rewrite Z.max_l by lia.
    assert (Hq : 2 ^ (Zdigits2 m - n - 1) <= m / 2 ^ n < 2 ^ (Zdigits2 m - n)).
    { split.
      - apply Z.div_le_lower_bound; [lia|].
        rewrite <- Z.pow_add_r by lia. replace (n + (Zdigits2 m - n - 1)) with (Zdigits2 m - 1) by lia. done.
      - apply Z.div_lt_upper_bound; [lia|].
        rewrite <- Z.pow_add_r by lia. replace (n + (Zdigits2 m - n)) with (Zdigits2 m) by lia. done. }
    assert (0 < m / 2 ^ n).
    { assert (0 < 2 ^ (Zdigits2 m - n - 1)) by (apply Z.pow_pos_nonneg; lia). lia. }
    apply Z.le_antisymm.
    + apply Zdigits2_le_intro; lia.
    + apply Zdigits2_ge_intro; [|lia]. by destruct Hq.
Qed.

Lemma Zdigits2_mul_pow2 (m n : Z) :
  0 < m → 0 <= n → Zdigits2 (m * 2 ^ n) = Zdigits2 m + n.
Proof.
  intros Hm Hn. pose proof (Zdigits2_bounds m Hm) as [Hlo Hhi].
  pose proof (Zdigits2_pos m Hm).
  assert (0 < 2 ^ n) by (apply Z.pow_pos_nonneg; lia).
  assert (0 < m * 2 ^ n) by (apply Z.mul_pos_pos; lia).
  apply Z.le_antisymm.
  - apply Zdigits2_le_intro; [lia | lia|].
    rewrite Z.pow_add_r by lia. by apply Z.mul_lt_mono_pos_r.
  - apply Zdigits2_ge_intro; [|lia].
    replace (Zdigits2 m + n - 1) with (Zdigits2 m - 1 + n) by lia.
    rewrite Z.pow_add_r by lia. apply Z.mul_le_mono_nonneg_r; [lia|exact Hlo].
Qed.

Lemma Zdigits2_succ (m : Z) : 0 <= m → Zdigits2 (m + 1) <= Zdigits2 m + 1.
Proof.
  intros Hm. destruct (Z.eq_dec m 0) as [-> | Hne]; [by vm_compute|].
  pose proof (Zdigits2_bounds m ltac:(lia)) as [_ Hhi].
  pose proof (Zdigits2_pos m ltac:(lia)).
  apply Zdigits2_le_intro; [lia | lia|].
  rewrite Z.pow_add_r by lia. lia.
Qed.

(** *** Shifting right *)
Lemma shr_1_m (mrs : shr_record) :
  0 <= shr_m mrs → shr_m (shr_1 mrs) = shr_m mrs / 2.
Proof.
  destruct mrs as [m r s]. cbn [shr_m]. intros Hm.
  destruct m as [|[p|p|]|p]; cbn [shr_1 shr_m]; try lia; try reflexivity.
  all: (apply Z.div_unique with 1; lia) || (apply Z.div_unique with 0; lia).
Qed.

Lemma iter_pos_shr_1_m (p : positive) (mrs : shr_record) :
  0 <= shr_m mrs → shr_m (SpecFloat.iter_pos shr_1 p mrs) = shr_m mrs / 2 ^ Zpos p.
Proof.
  revert mrs. induction p as [p IH|p IH|]; intros mrs Hm; cbn [SpecFloat.iter_pos].
  - assert (H1 : 0 <= shr_m (shr_1 mrs)).
    { rewrite shr_1_m by done. apply Z.div_pos; lia. }
    assert (H2 : 0 <= shr_m (SpecFloat.iter_pos shr_1 p (shr_1 mrs))).
    { rewrite IH by done. apply Z.div_pos; [done|]. apply Z.pow_pos_nonneg; lia. }
    rewrite IH, IH, shr_1_m by done.
    rewrite !Z.div_div by (try apply Z.pow_pos_nonneg; lia).
    f_equal. rewrite Pos2Z.inj_xI, Z.pow_add_r, Z.pow_mul_r by lia.
    change (2 ^ 2) with 4. change (2 ^ 1) with 2.
    replace (4 ^ Zpos p) with (2 ^ Zpos p * 2 ^ Zpos p); [lia|].
    rewrite <- Z.pow_add_r by lia. replace (Zpos p + Zpos p) with (2 * Zpos p) by lia.
    by rewrite Z.pow_mul_r by lia.
  - assert (H2 : 0 <= shr_m (SpecFloat.iter_pos shr_1 p mrs)).
    { rewrite IH by done. apply Z.div_pos; [done|]. apply Z.pow_pos_nonneg; lia. }
    rewrite IH, IH by done.
    rewrite !Z.div_div by (try apply Z.pow_pos_nonneg; lia).
    f_equal. rewrite Pos2Z.inj_xO.
    rewrite <- Z.pow_add_r by lia. f_equal. lia.
  - rewrite shr_1_m by done. done.
Qed.

Lemma shr_spec (mrs : shr_record) (e n : Z) :
  0 <= shr_m mrs →
  shr_m (fst (shr mrs e n)) = shr_m mrs / 2 ^ Z.max n 0 ∧
  snd (shr mrs e n) = e + Z.max n 0.
Proof.
  intros Hm. destruct n as [|p|p]; cbn [shr fst snd].
  - rewrite Z.max_r by lia. cbn. rewrite Z.div_1_r. lia.
  - rewrite Z.max_l by lia. by rewrite iter_pos_shr_1_m.
  - rewrite Z.max_r by lia. cbn. rewrite Z.div_1_r. lia.
Qed.

Lemma round_nearest_even_cases (m : Z) (l : location) :
  round_nearest_even m l = m ∨ round_nearest_even m l = m + 1.
Proof. destruct l as [|[]]; cbn; auto. destruct (Z.even m); auto. Qed.

Section rounding.
Variables prec emax : Z.
Hypothesis prec_pos : 0 < prec.
Hypothesis emax_big : 3 <= 2 * emax.

Local Abbreviation fexp := (SpecFloat.fexp prec emax).
Local Abbreviation emin := (SpecFloat.emin prec emax).

Lemma shr_record_of_loc_m (m : Z) (l : location) : shr_m (shr_record_of_loc m l) = m.
Proof. by destruct l as [|[]]. Qed.

(** One rounding step: the mantissa after the shift to the target
    exponent and the rounding. *)
Lemma shr_fexp_spec (m e : Z) (l : location) :
  0 <= m →
  let n := Z.max (fexp (Zdigits2 m + e) - e) 0 in
  shr_m (fst (shr_fexp prec emax m e l)) = m / 2 ^ n ∧
  snd (shr_fexp prec emax m e l) = e + n.
Proof.
  intros Hm n. unfold shr_fexp.
  destruct (shr_spec (shr_record_of_loc m l) e (fexp (Zdigits2 m + e) - e)) as [H1 H2].
  { by rewrite shr_record_of_loc_m. }
  rewrite shr_record_of_loc_m in H1. done.
Qed.

(** Upper bound: no overflow. *)
Lemma binary_round_aux_upper (sx : bool) (mx ex : Z) (lx : location) (M : Z) :
  0 <= mx → ex <= emax - prec → Zdigits2 mx + ex <= M → emin <= M → M + 1 <= emax →
  binary_round_aux prec emax sx mx ex lx = S754_zero sx ∨
  ∃ m e, binary_round_aux prec emax sx mx ex lx = S754_finite sx m e ∧
         Zdigits2 (Zpos m) + e <= M + 1.
Proof.
  intros Hmx Hex HD HM Hmax. unfold binary_round_aux.
  pose proof (Zdigits2_nonneg mx) as Hdnn.
  destruct (shr_fexp_spec mx ex lx Hmx) as [Hm1 He1]. cbv zeta in Hm1, He1.
  destruct (shr_fexp prec emax mx ex lx) as [mrs' e']. cbn [fst snd] in Hm1, He1.
  set (n1 := Z.max (fexp (Zdigits2 mx + ex) - ex) 0) in *.
  assert (En1 : n1 = Z.max (Z.max (Zdigits2 mx + ex - prec) emin - ex) 0) by reflexivity.
  clearbody n1.
  set (mx' := round_nearest_even (shr_m mrs') (loc_of_shr_record mrs')).
  assert (0 < 2 ^ n1) by (apply Z.pow_pos_nonneg; lia).
  assert (Hm1pos : 0 <= shr_m mrs') by (rewrite Hm1; apply Z.div_pos; lia).
  assert (Hmx' : 0 <= mx' ∧ Zdigits2 mx' + e' <= M + 1).
  { assert (Hd1 : Zdigits2 (shr_m mrs') + e' <= M).
    { rewrite Hm1, Zdigits2_div_pow2, He1 by lia.
      lia. }
    subst mx'. destruct (round_nearest_even_cases (shr_m mrs') (loc_of_shr_record mrs'))
      as [-> | ->]; [lia|].
    pose proof (Zdigits2_succ (shr_m mrs') Hm1pos). lia. }
  destruct Hmx' as [Hmx'pos Hd'].
  pose proof (Zdigits2_nonneg mx') as Hdnn'.
  destruct (shr_fexp_spec mx' e' loc_Exact Hmx'pos) as [Hm2 He2]. cbv zeta in Hm2, He2.
  destruct (shr_fexp prec emax mx' e' loc_Exact) as [mrs'' e'']. cbn [fst snd] in Hm2, He2.
  set (n2 := Z.max (fexp (Zdigits2 mx' + e') - e') 0) in *.
  assert (En2 : n2 = Z.max (Z.max (Zdigits2 mx' + e' - prec) emin - e') 0) by reflexivity.
  clearbody n2.
  assert (0 < 2 ^ n2) by (apply Z.pow_pos_nonneg; lia).
  destruct (shr_m mrs'') as [|m|m] eqn:Hm; [by left | right | exfalso].
  - assert (He'' : e'' <= emax - prec).
    { rewrite He2, He1. unfold SpecFloat.emin in *. lia. }
    apply Z.leb_le in He''. rewrite He''. exists m, e''. split; [done|].
    rewrite Hm2, Zdigits2_div_pow2, He2 by lia.
    lia.
  - assert (0 <= mx' / 2 ^ n2) by (apply Z.div_pos; lia). lia.
Qed.

(** Lower bound: no underflow to zero, and the magnitude is kept. *)
Lemma binary_round_aux_lower (sx : bool) (mx ex : Z) (lx : location) :
  0 < mx → emin + 1 <= Zdigits2 mx + ex →
  binary_round_aux prec emax sx mx ex lx = S754_infinity sx ∨
  ∃ m e, binary_round_aux prec emax sx mx ex lx = S754_finite sx m e ∧
         Zdigits2 mx + ex <= Zdigits2 (Zpos m) + e.
Proof.
  intros Hmx HD. unfold binary_round_aux.
  destruct (shr_fexp_spec mx ex lx ltac:(lia)) as [Hm1 He1]. cbv zeta in Hm1, He1.
  destruct (shr_fexp prec emax mx ex lx) as [mrs' e']. cbn [fst snd] in Hm1, He1.
  set (n1 := Z.max (fexp (Zdigits2 mx + ex) - ex) 0) in *.
  assert (En1 : n1 = Z.max (Z.max (Zdigits2 mx + ex - prec) emin - ex) 0) by reflexivity.
  clearbody n1.
  set (mx' := round_nearest_even (shr_m mrs') (loc_of_shr_record mrs')).
  assert (0 < 2 ^ n1) by (apply Z.pow_pos_nonneg; lia).
  pose proof (Zdigits2_pos mx Hmx) as Hdpos.
  assert (Hn1 : n1 < Zdigits2 mx).
  { lia. }
  assert (Hd1 : Zdigits2 (shr_m mrs') + e' = Zdigits2 mx + ex).
  { rewrite Hm1, Zdigits2_div_pow2, He1 by lia. lia. }
  assert (Hm1pos : 0 < shr_m mrs').
  { destruct (shr_m mrs') as [|p|p] eqn:E; [|lia|].
    - cbn in Hd1. lia.
    - assert (0 <= mx / 2 ^ n1) by (apply Z.div_pos; lia). lia. }
  assert (Hmx' : 0 < mx' ∧ Zdigits2 mx + ex <= Zdigits2 mx' + e').
  { subst mx'. destruct (round_nearest_even_cases (shr_m mrs') (loc_of_shr_record mrs'))
      as [-> | ->]; [lia|].
    pose proof (Zdigits2_mono (shr_m mrs') (shr_m mrs' + 1) ltac:(lia)). lia. }
  destruct Hmx' as [Hmx'pos Hd'].
  destruct (shr_fexp_spec mx' e' loc_Exact ltac:(lia)) as [Hm2 He2]. cbv zeta in Hm2, He2.
  destruct (shr_fexp prec emax mx' e' loc_Exact) as [mrs'' e'']. cbn [fst snd] in Hm2, He2.
  set (n2 := Z.max (fexp (Zdigits2 mx' + e') - e') 0) in *.
  assert (En2 : n2 = Z.max (Z.max (Zdigits2 mx' + e' - prec) emin - e') 0) by reflexivity.
  clearbody n2.
  assert (0 < 2 ^ n2) by (apply Z.pow_pos_nonneg; lia).
  pose proof (Zdigits2_pos mx' Hmx'pos) as Hd'pos.
  assert (Hn2 : n2 < Zdigits2 mx').
  { lia. }
  assert (Hd2 : Zdigits2 (shr_m mrs'') + e'' = Zdigits2 mx' + e').
  { rewrite Hm2, Zdigits2_div_pow2, He2 by lia. lia. }
  destruct (shr_m mrs'') as [|m|m] eqn:Hm.
  - cbn in Hd2. lia.
  - destruct (e'' <=? emax - prec); [right | by left].
    exists m, e''. split; [done|]. lia.
  - assert (0 <= mx' / 2 ^ n2) by (apply Z.div_pos; lia). lia.
Qed.

Lemma iter_xO_spec (m d : positive) : Zpos (Pos.iter xO m d) = Zpos m * 2 ^ Zpos d.
Proof.
  induction d as [|d IH] using Pos.peano_ind.
  - cbn. lia.
  - rewrite Pos.iter_succ, Pos2Z.inj_xO, IH, Pos2Z.inj_succ, Z.pow_succ_r by lia. lia.
Qed.

Lemma shl_align_spec (mx : positive) (ex ex' : Z) :
  snd (shl_align mx ex ex') = Z.min ex ex' ∧
  Zpos (fst (shl_align mx ex ex')) = Zpos mx * 2 ^ (ex - Z.min ex ex').
Proof.
  unfold shl_align. destruct (ex' - ex) as [|d|d] eqn:Hd; cbn [fst snd].
  - rewrite Z.min_l by lia. rewrite Z.sub_diag. cbn. lia.
  - rewrite Z.min_l by lia. rewrite Z.sub_diag. cbn. lia.
  - rewrite Z.min_r by lia. split; [done|].
    rewrite iter_xO_spec. f_equal. f_equal. lia.
Qed.

Lemma shl_align_digits (mx : positive) (ex ex' : Z) :
  Zdigits2 (Zpos (fst (shl_align mx ex ex'))) + snd (shl_align mx ex ex')
  = Zdigits2 (Zpos mx) + ex.
Proof.
  destruct (shl_align_spec mx ex ex') as [-> ->].
  rewrite Zdigits2_mul_pow2 by lia. lia.
Qed.

Lemma binary_round_upper (sx : bool) (mx : positive) (ex M : Z) :
  Zdigits2 (Zpos mx) + ex <= M → emin <= M → M + 1 <= emax →
  binary_round prec emax sx mx ex = S754_zero sx ∨
  ∃ m e, binary_round prec emax sx mx ex = S754_finite sx m e ∧
         Zdigits2 (Zpos m) + e <= M + 1.
Proof.
  intros HD HM Hmax. unfold binary_round.
  pose proof (shl_align_digits mx ex (fexp (Zpos (digits2_pos mx) + ex))) as Hd.
  pose proof (shl_align_spec mx ex (fexp (Zpos (digits2_pos mx) + ex))) as [He _].
  destruct (shl_align mx ex _) as [mz ez]. cbn [fst snd] in Hd, He.
  apply binary_round_aux_upper; [lia | | lia | done | done].
  rewrite He. change (Zpos (digits2_pos mx)) with (Zdigits2 (Zpos mx)).
  unfold SpecFloat.fexp, SpecFloat.emin in *. lia.
Qed.

Lemma binary_round_lower (sx : bool) (mx : positive) (ex : Z) :
  emin + 1 <= Zdigits2 (Zpos mx) + ex →
  binary_round prec emax sx mx ex = S754_infinity sx ∨
  ∃ m e, binary_round prec emax sx mx ex = S754_finite sx m e ∧
         Zdigits2 (Zpos mx) + ex <= Zdigits2 (Zpos m) + e.
Proof.
  intros HD. unfold binary_round.
  pose proof (shl_align_digits mx ex (fexp (Zpos (digits2_pos mx) + ex))) as Hd.
  destruct (shl_align mx ex _) as [mz ez]. cbn [fst snd] in Hd.
  rewrite <- Hd. apply binary_round_aux_lower; lia.
Qed.

End rounding.

(** *** binary64 *)

Abbreviation valid := valid_binary.

Ltac flia :=
  try done;
  change (SpecFloat.emin prec emax) with (-1074);
  change (emax - prec) with 971; change emax with 1024; change prec with 53;
  lia.

Lemma below_mono (M M' : Z) (x : spec_float) : M <= M' → below M x → below M' x.
Proof. destruct x; cbn; try done. lia. Qed.

Lemma above_mono (L L' : Z) (x : spec_float) : L' <= L → above L x → above L' x.
Proof. destruct x; cbn; try done. lia. Qed.

Lemma valid_finite (s : bool) (m : positive) (e : Z) :
  valid (S754_finite s m e) = true →
  e = Z.max (Zdigits2 (Zpos m) + e - 53) (-1074) ∧ e <= 971.
Proof.
  cbn. unfold bounded, canonical_mantissa. intros [H1 H2]%andb_prop.
  apply Z.eqb_eq in H1. apply Z.leb_le in H2. split; [|exact H2].
  symmetry. exact H1.
Qed.

Lemma valid_above (x : spec_float) (L : Z) : valid x = true → above L x → above (-1073) x.
Proof.
  destruct x as [| | |s m e]; try done. intros [He _]%valid_finite _. cbn.
  pose proof (Zdigits2_pos (Zpos m) ltac:(lia)). lia.
Qed.

Lemma rounded_cases (r : spec_float) (sx : bool) (M L : Z) :
  (r = S754_zero sx ∨ ∃ m e, r = S754_finite sx m e ∧ Zdigits2 (Zpos m) + e <= M) →
  (r = S754_infinity sx ∨ ∃ m e, r = S754_finite sx m e ∧ L <= Zdigits2 (Zpos m) + e) →
  below M r ∧ above L r.
Proof.
  intros [-> | (m & e & -> & Hm)] [Hr | (m' & e' & Hr & Hm')]; try done.
  injection Hr as <- <-. done.
Qed.

Lemma Zdigits2_mul (a b : Z) :
  0 < a → 0 < b →
  Zdigits2 a + Zdigits2 b - 1 <= Zdigits2 (a * b) <= Zdigits2 a + Zdigits2 b.
Proof.
  intros Ha Hb.
  pose proof (Zdigits2_bounds a Ha) as [Ha1 Ha2].
  pose proof (Zdigits2_bounds b Hb) as [Hb1 Hb2].
  pose proof (Zdigits2_pos a Ha). pose proof (Zdigits2_pos b Hb).
  assert (0 < a * b) by (apply Z.mul_pos_pos; lia).
  split.
  - apply Zdigits2_ge_intro; [|done].
    replace (Zdigits2 a + Zdigits2 b - 1 - 1) with ((Zdigits2 a - 1) + (Zdigits2 b - 1)) by lia.
    rewrite Z.pow_add_r by lia. apply Z.mul_le_mono_nonneg; try lia.
    all: apply Z.pow_nonneg; lia.
  - apply Zdigits2_le_intro; [lia | lia|].
    rewrite Z.pow_add_r by lia. apply Z.mul_lt_mono_nonneg; lia.
Qed.

(** *** Multiplication *)
Lemma SFmul_finite (sx sy : bool) (mx my : positive) (ex ey Mx My : Z) :
  valid (S754_finite sx mx ex) = true → valid (S754_finite sy my ey) = true →
  Zdigits2 (Zpos mx) + ex <= Mx → Zdigits2 (Zpos my) + ey <= My →
  -1074 <= Mx + My → Mx + My + 1 <= 1024 → Mx <= 1024 → My <= 1024 →
  let r := SFmul prec emax (S754_finite sx mx ex) (S754_finite sy my ey) in
  r = S754_zero (xorb sx sy) ∨
  ∃ m e, r = S754_finite (xorb sx sy) m e ∧ Zdigits2 (Zpos m) + e <= Mx + My + 1.
Proof.
  intros [Hex Hex']%valid_finite [Hey Hey']%valid_finite Hx Hy Hlo Hhi Hx1 Hy1.
  cbn [SFmul].
  pose proof (Zdigits2_mul (Zpos mx) (Zpos my) ltac:(lia) ltac:(lia)) as [_ Hd].
  apply (binary_round_aux_upper prec emax); try done.
  - change (emax - prec) with 971. lia.
  - rewrite Pos2Z.inj_mul. lia.
Qed.

Lemma SFmul_below (x y : spec_float) (Mx My : Z) :
  valid x = true → valid y = true → below Mx x → below My y →
  -1074 <= Mx + My → Mx + My + 1 <= 1024 → Mx <= 1024 → My <= 1024 →
  below (Mx + My + 1) (SFmul prec emax x y).
Proof.
  intros Hvx Hvy Hx Hy Hlo Hhi Hx1 Hy1.
  destruct x as [sx|sx| |sx mx ex], y as [sy|sy| |sy my ey]; try done.
  destruct (SFmul_finite sx sy mx my ex ey Mx My) as [-> | (m & e & -> & Hm)];
    done.
Qed.

Lemma SFmul_above (x y : spec_float) (Lx Ly : Z) :
  above Lx x → above Ly y → -1073 <= Lx + Ly - 1 →
  above (Lx + Ly - 1) (SFmul prec emax x y) ∨
  ∃ s, SFmul prec emax x y = S754_infinity s.
Proof.
  intros Hx Hy Hlo.
  destruct x as [sx|sx| |sx mx ex], y as [sy|sy| |sy my ey]; try done.
  cbn [SFmul]. unfold above in Hx, Hy.
  pose proof (Zdigits2_mul (Zpos mx) (Zpos my) ltac:(lia) ltac:(lia)) as [Hd _].
  destruct (binary_round_aux_lower prec emax ltac:(done)
              (xorb sx sy) (Zpos (mx * my)) (ex + ey) loc_Exact)
    as [-> | (m & e & -> & Hm)]; try done.
  - rewrite Pos2Z.inj_mul. change (SpecFloat.emin prec emax) with (-1074). lia.
  - right. by eexists.
  - left. unfold above. rewrite Pos2Z.inj_mul in Hm. lia.
Qed.

Lemma SFmul_square (x : spec_float) (M : Z) :
  valid x = true → below M x → -1074 <= M + M → M + M + 1 <= 1024 →
  nonneg (SFmul prec emax x x) ∧ below (M + M + 1) (SFmul prec emax x x) ∧
  ∀ L, above L x → -1073 <= L + L - 1 → above (L + L - 1) (SFmul prec emax x x).
Proof.
  intros Hv Hx Hlo Hhi.
  assert (Hb : below (M + M + 1) (SFmul prec emax x x))
    by (apply SFmul_below; try done; lia).
  split; [|split; [done|]].
  - destruct x as [sx|sx| |sx mx ex]; try done.
    + by destruct sx.
    + destruct (SFmul_finite sx sx mx mx ex ex M M) as [Hr | (m & e & Hr & _)];
        try done; try lia.
      all: rewrite Hr, Bool.xorb_nilpotent; done.
  - intros L HL Hlow.
    destruct (SFmul_above x x L L HL HL Hlow) as [|[s Hs]]; [done|].
    by rewrite Hs in Hb.
Qed.

(** *** Addition and subtraction *)
Lemma aligned_mantissa (mx : positive) (ex ez M : Z) :
  ez <= ex → Zdigits2 (Zpos mx) + ex <= M →
  0 < Zpos (fst (shl_align mx ex ez)) < 2 ^ (M - ez) ∧
  Zdigits2 (Zpos (fst (shl_align mx ex ez))) + ez = Zdigits2 (Zpos mx) + ex.
Proof.
  intros Hez HM.
  pose proof (shl_align_digits mx ex ez) as Hd.
  destruct (shl_align_spec mx ex ez) as [He Hm]. rewrite He, Z.min_r in Hd by lia.
  split; [split; [lia|] | done].
  pose proof (Zdigits2_bounds (Zpos (fst (shl_align mx ex ez))) ltac:(lia)) as [_ Hhi].
  eapply Z.lt_le_trans; [exact Hhi|]. apply Z.pow_le_mono_r; lia.
Qed.

Lemma binary_normalize_cases (z ez M : Z) (szero : bool) :
  Zdigits2 z + ez <= M → -1074 <= M → M + 1 <= 1024 →
  let r := binary_normalize prec emax z ez szero in
  (z = 0 ∧ r = S754_zero szero) ∨
  (z ≠ 0 ∧ (r = S754_zero (z <? 0) ∨
            ∃ m e, r = S754_finite (z <? 0) m e ∧ Zdigits2 (Zpos m) + e <= M + 1)).
Proof.
  intros HD Hlo Hhi. destruct z as [|p|p]; cbn [binary_normalize].
  - by left.
  - right. split; [done|]. apply (binary_round_upper prec emax); done.
  - right. split; [done|]. apply (binary_round_upper prec emax); done.
Qed.

Lemma binary_normalize_below (z ez M : Z) (szero : bool) :
  Zdigits2 z + ez <= M → -1074 <= M → M + 1 <= 1024 →
  below (M + 1) (binary_normalize prec emax z ez szero).
Proof.
  intros HD Hlo Hhi.
  destruct (binary_normalize_cases z ez M szero HD Hlo Hhi)
    as [[_ ->] | [_ [-> | (m & e & -> & Hm)]]]; done.
Qed.

Lemma Zdigits2_abs (z : Z) : Zdigits2 z = Zdigits2 (Z.abs z).
Proof. by destruct z. Qed.

Lemma sum_digits (a b z ez M : Z) :
  0 < a < 2 ^ (M - ez) → 0 < b < 2 ^ (M - ez) → Z.abs z <= a + b →
  Zdigits2 z + ez <= M + 1.
Proof.
  intros Ha Hb Hz. rewrite Zdigits2_abs.
  assert (0 <= M - ez).
  { destruct (Z.le_gt_cases 0 (M - ez)) as [|Hneg]; [done|].
    rewrite Z.pow_neg_r in Ha by lia. lia. }
  assert (Zdigits2 (Z.abs z) <= M - ez + 1); [|lia].
  apply Zdigits2_le_intro; [lia | lia|].
  rewrite Z.pow_add_r by lia. lia.
Qed.

Lemma SFadd_below (x y : spec_float) (M : Z) :
  valid x = true → valid y = true → below M x → below M y →
  -1074 <= M → M + 2 <= 1024 →
  below (M + 2) (SFadd prec emax x y).
Proof.
  intros Hvx Hvy Hx Hy Hlo Hhi.
  destruct x as [sx|sx| |sx mx ex], y as [sy|sy| |sy my ey]; try done.
  - by destruct sx, sy.
  - eapply below_mono; [|exact Hy]. lia.
  - eapply below_mono; [|exact Hx]. lia.
  - cbn [SFadd]. unfold below in Hx, Hy.
    destruct (aligned_mantissa mx ex (Z.min ex ey) M ltac:(lia) Hx) as [Ha _].
    destruct (aligned_mantissa my ey (Z.min ex ey) M ltac:(lia) Hy) as [Hb _].
    replace (M + 2) with (M + 1 + 1) by lia.
    apply binary_normalize_below; [|lia|lia].
    eapply sum_digits; [exact Ha | exact Hb|].
    revert Ha Hb.
    generalize (Zpos (fst (shl_align mx ex (Z.min ex ey)))).
    generalize (Zpos (fst (shl_align my ey (Z.min ex ey)))).
    intros b a Ha Hb. destruct sx, sy; cbn [cond_Zopp]; lia.
Qed.

Lemma SFsub_below (x y : spec_float) (M : Z) :
  valid x = true → valid y = true → below M x → below M y →
  -1074 <= M → M + 2 <= 1024 →
  below (M + 2) (SFsub prec emax x y).
Proof.
  intros Hvx Hvy Hx Hy Hlo Hhi.
  destruct x as [sx|sx| |sx mx ex], y as [sy|sy| |sy my ey]; try done.
  - by destruct sx, sy.
  - cbn [SFsub]. unfold below in *. lia.
  - eapply below_mono; [|exact Hx]. lia.
  - cbn [SFsub]. unfold below in Hx, Hy.
    destruct (aligned_mantissa mx ex (Z.min ex ey) M ltac:(lia) Hx) as [Ha _].
    destruct (aligned_mantissa my ey (Z.min ex ey) M ltac:(lia) Hy) as [Hb _].
    replace (M + 2) with (M + 1 + 1) by lia.
    apply binary_normalize_below; [|lia|lia].
    eapply sum_digits; [exact Ha | exact Hb|].
    revert Ha Hb.
    generalize (Zpos (fst (shl_align mx ex (Z.min ex ey)))).
    generalize (Zpos (fst (shl_align my ey (Z.min ex ey)))).
    intros b a Ha Hb. destruct sx, sy; cbn [cond_Zopp]; lia.
Qed.

(** The sum of two non-negative numbers is at least as large as each. *)
Lemma SFadd_nonneg (x y : spec_float) (M : Z) :
  valid x = true → valid y = true → nonneg x → nonneg y →
  below M x → below M y → -1074 <= M → M + 2 <= 1024 →
  nonneg (SFadd prec emax x y) ∧
  (∀ L, above L x → above L (SFadd prec emax x y)) ∧
  (∀ L, above L y → above L (SFadd prec emax x y)).
Proof.
  intros Hvx Hvy Hnx Hny Hx Hy Hlo Hhi.
  destruct x as [[]|[]| |[] mx ex], y as [[]|[]| |[] my ey]; try done.
  cbn [SFadd cond_Zopp].
  unfold below in Hx, Hy.
  destruct (aligned_mantissa mx ex (Z.min ex ey) M ltac:(lia) Hx) as [Ha Hda].
  destruct (aligned_mantissa my ey (Z.min ex ey) M ltac:(lia) Hy) as [Hb Hdb].
  set (a := fst (shl_align mx ex (Z.min ex ey))) in *.
  set (b := fst (shl_align my ey (Z.min ex ey))) in *.
  change (Zpos a + Zpos b) with (Zpos (a + b)). cbn [binary_normalize].
  assert (Hup : Zdigits2 (Zpos (a + b)) + Z.min ex ey <= M + 1).
  { eapply sum_digits; [exact Ha | exact Hb|]. lia. }
  pose proof (Zdigits2_mono (Zpos a) (Zpos (a + b)) ltac:(lia)) as Hma.
  pose proof (Zdigits2_mono (Zpos b) (Zpos (a + b)) ltac:(lia)) as Hmb.
  apply valid_finite in Hvx as [Hex _], Hvy as [Hey _].
  pose proof (Zdigits2_pos (Zpos mx) ltac:(lia)).
  pose proof (Zdigits2_pos (Zpos my) ltac:(lia)).
  destruct (rounded_cases (binary_round prec emax false (a + b) (Z.min ex ey)) false
              (M + 1 + 1) (Zdigits2 (Zpos (a + b)) + Z.min ex ey)) as [Hbelow Habove].
  { apply (binary_round_upper prec emax); flia. }
  { apply (binary_round_lower prec emax); flia. }
  destruct (binary_round prec emax false (a + b) (Z.min ex ey)) as [| | |[] m e] eqn:Hr;
    try done.
  - exfalso. 
    destruct (binary_round_upper prec emax ltac:(done) ltac:(done) false (a + b)
                (Z.min ex ey) (M + 1)) as [Hz | (m0 & e0 & Hz & _)];
      try flia; rewrite Hr in Hz; done.
  - split; [done|]. unfold above in *. split; intros L HL; lia.
Qed.

(** *** Square root *)
Lemma sqrt_digits (m q r : Z) :
  0 < m → m = q * q + r → 0 <= r <= 2 * q → 0 <= q →
  0 < q ∧ Zdigits2 q = (Zdigits2 m + 1) / 2.
Proof.
  intros Hm Heq Hr Hq.
  assert (Hqpos : 0 < q) by nia.
  split; [done|].
  pose proof (Zdigits2_bounds m Hm) as [Hlo Hhi].
  pose proof (Zdigits2_bounds q Hqpos) as [Hqlo Hqhi].
  pose proof (Zdigits2_pos m Hm). pose proof (Zdigits2_pos q Hqpos).
  set (dm := Zdigits2 m) in *. set (dq := Zdigits2 q) in *.
  (* q * q <= m < 2 ^ dm  and  2 ^ (dm - 1) <= m < (q + 1) * (q + 1) *)
  assert (Hsq : 2 ^ (dq - 1) * 2 ^ (dq - 1) <= q * q) by (apply Z.mul_le_mono_nonneg; lia).
  rewrite <- Z.pow_add_r in Hsq by lia.
  assert (Hsq' : (q + 1) * (q + 1) <= 2 ^ dq * 2 ^ dq) by (apply Z.mul_le_mono_nonneg; lia).
  rewrite <- Z.pow_add_r in Hsq' by lia.
  assert (H1 : dq - 1 + (dq - 1) < dm).
  { apply (Z.pow_lt_mono_r_iff 2); lia. }
  assert (H2 : dm - 1 < dq + dq).
  { apply (Z.pow_lt_mono_r_iff 2); [lia | lia | nia]. }
  apply Z.div_unique with (dm + 1 - 2 * dq); lia.
Qed.

Lemma SFsqrt_core_spec (m : positive) (e : Z) :
  let '(q, e', l) := SFsqrt_core_binary prec emax (Zpos m) e in
  0 < q ∧ 2 * e' <= e ∧ Zdigits2 q + e' = (Zdigits2 (Zpos m) + e + 1) / 2.
Proof.
  unfold SFsqrt_core_binary.
  set (e' := Z.min _ (Z.div2 e)).
  assert (He' : 2 * e' <= e).
  { assert (e' <= Z.div2 e) by (subst e'; lia).
    rewrite Z.div2_div in *. pose proof (Z.mul_div_le e 2 ltac:(lia)). lia. }
  set (s := e - 2 * e').
  assert (Hs : 0 <= s) by (subst s; lia).
  set (m' := match s with Zpos _ => Z.shiftl (Zpos m) s | 0 => Zpos m | Zneg _ => 0 end).
  assert (Hm' : m' = Zpos m * 2 ^ s).
  { subst m'. destruct s as [|p|p] eqn:Es; [cbn; lia | | lia].
    by rewrite Z.shiftl_mul_pow2. }
  assert (0 < 2 ^ s) by (apply Z.pow_pos_nonneg; lia).
  assert (Hm'pos : 0 < m') by (rewrite Hm'; apply Z.mul_pos_pos; lia).
  pose proof (Z.sqrtrem_spec m' ltac:(lia)) as Hspec.
  pose proof (Z.sqrtrem_sqrt m') as Hsqrt.
  destruct (Z.sqrtrem m') as [q r]. cbn [fst] in Hsqrt.
  destruct Hspec as [Heq Hr].
  assert (Hq : 0 <= q) by (rewrite Hsqrt; apply Z.sqrt_nonneg).
  destruct (sqrt_digits m' q r Hm'pos Heq Hr Hq) as [Hqpos Hdq].
  split; [done|]. split; [done|].
  rewrite Hdq, Hm', Zdigits2_mul_pow2 by lia.
  subst s.
  replace (Zdigits2 (Zpos m) + (e - 2 * e') + 1) with (Zdigits2 (Zpos m) + e + 1 + (- e') * 2) by lia.
  rewrite Z.div_add by lia. lia.
Qed.

Lemma SFsqrt_spec (x : spec_float) (M : Z) :
  valid x = true → nonneg x → below M x → M <= 1024 →
  nonneg (SFsqrt prec emax x) ∧ below ((M + 1) / 2 + 1) (SFsqrt prec emax x) ∧
  ∀ L, above L x → above ((L + 1) / 2) (SFsqrt prec emax x).
Proof.
  intros Hv Hnn Hx HM.
  destruct x as [[]|[]| |[] mx ex]; try done.
  cbn [SFsqrt]. apply valid_finite in Hv as [Hex Hex']. unfold below in Hx.
  pose proof (SFsqrt_core_spec mx ex) as Hcore.
  destruct (SFsqrt_core_binary prec emax (Zpos mx) ex) as [[q e'] l].
  destruct Hcore as (Hq & He' & HD).
  pose proof (Zdigits2_pos (Zpos mx) ltac:(lia)) as Hdpos.
  assert (Hmono : ∀ a b, a <= b → (a + 1) / 2 <= (b + 1) / 2).
  { intros a b Hab. apply Z.div_le_mono; lia. }
  pose proof (Hmono _ _ Hx) as HDM.
  assert (Hlow : -536 <= (Zdigits2 (Zpos mx) + ex + 1) / 2).
  { change (-536) with ((-1073 + 1) / 2). apply Hmono. lia. }
  destruct (rounded_cases (binary_round_aux prec emax false q e' l) false
              ((M + 1) / 2 + 1) (Zdigits2 q + e')) as [Hbelow Habove].
  { apply (binary_round_aux_upper prec emax); try flia.
    assert ((M + 1) / 2 <= 512); [|flia].
    change 512 with ((1024 + 1) / 2). apply Hmono. lia. }
  { apply (binary_round_aux_lower prec emax); flia. }
  split; [|split; [done|]].
  - destruct (binary_round_aux_upper prec emax ltac:(done) ltac:(done) false q e' l
                ((M + 1) / 2)) as [-> | (m0 & e0 & -> & _)]; try flia.
    assert ((M + 1) / 2 <= 512); [|flia].
    change 512 with ((1024 + 1) / 2). apply Hmono. lia.
  - intros L HL. unfold above in HL. eapply above_mono; [|exact Habove].
    rewrite HD. apply Hmono. lia.
Qed.

(** *** Division *)
Lemma div_digits (a b : Z) :
  0 < a → 0 < b → Zdigits2 (a / b) <= Z.max (Zdigits2 a - Zdigits2 b + 1) 0.
Proof.
  intros Ha Hb.
  pose proof (Zdigits2_bounds a Ha) as [_ Hahi].
  pose proof (Zdigits2_bounds b Hb) as [Hblo _].
  pose proof (Zdigits2_pos a Ha). pose proof (Zdigits2_pos b Hb).
  assert (0 <= a / b) by (apply Z.div_pos; lia).
  destruct (Z.le_gt_cases 0 (Zdigits2 a - Zdigits2 b + 1)) as [Hge | Hlt].
  - rewrite Z.max_l by lia. apply Zdigits2_le_intro; [done | done|].
    apply Z.div_lt_upper_bound; [done|].
    eapply Z.lt_le_trans; [exact Hahi|].
    replace (Zdigits2 a) with ((Zdigits2 b - 1) + (Zdigits2 a - Zdigits2 b + 1)) at 1 by lia.
    rewrite Z.pow_add_r by lia.
    apply Z.mul_le_mono_nonneg_r; [apply Z.pow_nonneg; lia | done].
  - rewrite Z.max_r by lia. rewrite Z.div_small; [done|].
    split; [lia|]. eapply Z.lt_le_trans; [exact Hahi|].
    eapply Z.le_trans; [|exact Hblo]. apply Z.pow_le_mono_r; lia.
Qed.

Lemma SFdiv_core_spec (m1 m2 : positive) (e1 e2 : Z) :
  let '(q, e', l) := SFdiv_core_binary prec emax (Zpos m1) e1 (Zpos m2) e2 in
  let A := Zdigits2 (Zpos m1) + e1 - (Zdigits2 (Zpos m2) + e2) in
  0 <= q ∧ e' <= Z.max (A - 53) (-1074) ∧ Zdigits2 q + e' <= Z.max (A + 1) e'.
Proof.
  unfold SFdiv_core_binary.
  set (A := Zdigits2 (Zpos m1) + e1 - (Zdigits2 (Zpos m2) + e2)).
  set (e' := Z.min (SpecFloat.fexp prec emax A) (e1 - e2)).
  assert (He' : e' <= Z.max (A - 53) (-1074)).
  { subst e'. unfold SpecFloat.fexp. change IntDef.Z.max with Z.max. change IntDef.Z.sub with Z.sub. flia. }
  set (s := e1 - e2 - e').
  assert (Hs : 0 <= s) by (subst s e'; lia).
  set (m' := match s with Zpos _ => Z.shiftl (Zpos m1) s | 0 => Zpos m1 | Zneg _ => 0 end).
  assert (Hm' : m' = Zpos m1 * 2 ^ s).
  { subst m'. destruct s as [|p|p] eqn:Es; [cbn; lia | | lia].
    by rewrite Z.shiftl_mul_pow2. }
  assert (0 < 2 ^ s) by (apply Z.pow_pos_nonneg; lia).
  assert (Hm'pos : 0 < m') by (rewrite Hm'; apply Z.mul_pos_pos; lia).
  assert (Hq : fst (Z.div_eucl m' (Zpos m2)) = m' / Zpos m2) by reflexivity.
  destruct (Z.div_eucl m' (Zpos m2)) as [q r]. cbn [fst] in Hq. cbv zeta.
  assert (0 <= q) by (rewrite Hq; apply Z.div_pos; lia).
  split; [done|]. split; [done|].
  pose proof (div_digits m' (Zpos m2) Hm'pos ltac:(lia)) as Hd.
  rewrite <- Hq, Hm', Zdigits2_mul_pow2 in Hd by lia.
  subst s A. lia.
Qed.

Lemma SFdiv_below (x y : spec_float) (Mx Ly M : Z) :
  valid x = true → valid y = true → below Mx x → above Ly y →
  Mx - Ly + 1 <= M → -1074 <= M → M + 1 <= 1024 →
  below (M + 1) (SFdiv prec emax x y).
Proof.
  intros Hvx Hvy Hx Hy HM Hlo Hhi.
  destruct x as [sx|sx| |sx mx ex], y as [sy|sy| |sy my ey]; try done.
  cbn [SFdiv]. unfold below in Hx. unfold above in Hy.
  pose proof (SFdiv_core_spec mx my ex ey) as Hcore.
  destruct (SFdiv_core_binary prec emax (Zpos mx) ex (Zpos my) ey) as [[q e'] l].
  destruct Hcore as (Hq & He' & HD).
  destruct (binary_round_aux_upper prec emax ltac:(done) ltac:(done)
              (xorb sx sy) q e' l M) as [-> | (m & e & -> & Hm)]; try flia.
Qed.

(** ** The heightfield mesh *)

Section mesh.
Import StlExporter.

(** *** Loops and pushes *)

Lemma ret_bind {A B : Type} (a : A) (k : A → completion B) :
  (Returned a ≫= k) = k a.
Proof. done. Qed.

Lemma forLoop_S {S : Type} (n : nat) (body : nat → S → completion S) (s : S) :
  forLoop (Datatypes.S n) body s = forLoop n body s ≫= body n.
Proof. unfold forLoop. by rewrite seq_S, foldl_app. Qed.

(** A loop whose body returns and keeps the invariant returns. *)
Lemma forLoop_returns {S : Type} (P : nat → S → Prop) (n : nat)
    (body : nat → S → completion S) (s : S) :
  P 0%nat s →
  (∀ i s, (i < n)%nat → P i s →
     ∃ s', body i s = Returned s' ∧ P (Datatypes.S i) s') →
  ∃ s', forLoop n body s = Returned s' ∧ P n s'.
Proof.
  intros H0 Hstep.
  assert (∀ k, (k <= n)%nat → ∃ s', forLoop k body s = Returned s' ∧ P k s')
    as Hall; [|by apply Hall].
  induction k as [|k IH]; intros Hk; [by exists s|].
  destruct IH as (s1 & Hrun & Hs1); [lia|].
  destruct (Hstep k s1) as (s2 & Hbody & Hs2); [lia | done|].
  exists s2. by rewrite forLoop_S, Hrun, ret_bind.
Qed.

Lemma push_returns {A : Type} (l : list A) (x : A) :
  (Z.of_nat (length l) + 1 < 2 ^ 32)%Z → push l x = Returned (l ++ [x]).
Proof.
  intros Hlen. unfold push.
  by destruct (Z.leb_spec (2 ^ 32) (Z.of_nat (length l) + 1)); [lia|].
Qed.

(** At the length limit the push throws. *)
Lemma push_throws {A : Type} (l : list A) (x : A) :
  (2 ^ 32 <= Z.of_nat (length l) + 1)%Z → push l x = Thrown RangeError.
Proof.
  intros Hlen. unfold push.
  by destruct (Z.leb_spec (2 ^ 32) (Z.of_nat (length l) + 1)); [|lia].
Qed.

Lemma push4 {A : Type} (l : list A) (a b c d : A) :
  (Z.of_nat (length l + 4) < 2 ^ 32)%Z →
  (l1 ← push l a; l2 ← push l1 b; l3 ← push l2 c; push l3 d)
  = Returned (l ++ [a; b; c; d]).
Proof.
  intros Hlen.
  rewrite push_returns, ret_bind by lia.
  rewrite push_returns, ret_bind by (rewrite length_app; cbn [length]; lia).
  rewrite push_returns, ret_bind by (rewrite !length_app; cbn [length]; lia).
  rewrite push_returns by (rewrite !length_app; cbn [length]; lia).
  by rewrite <- !app_assoc.
Qed.

Lemma blocks_S {A : Type} (n : nat) (block : nat → list A) :
  blocks (S n) block = blocks n block ++ block n.
Proof.
  unfold blocks. rewrite seq_S, fmap_app, concat_app. cbn. by rewrite app_nil_r.
Qed.

Lemma blocks_length {A : Type} (n k : nat) (block : nat → list A) :
  (∀ i, (i < n)%nat → length (block i) = k) →
  length (blocks n block) = (n * k)%nat.
Proof.
  intros Hk. induction n as [|n IH]; [done|].
  rewrite blocks_S, length_app, IH, Hk; [lia | lia|].
  intros i Hi. apply Hk. lia.
Qed.

Lemma Forall_blocks {A : Type} (P : A → Prop) (n : nat) (block : nat → list A) :
  (∀ i, (i < n)%nat → Forall P (block i)) → Forall P (blocks n block).
Proof.
  intros HP. induction n as [|n IH]; [constructor|].
  rewrite blocks_S. apply Forall_app_2; [|apply HP; lia].
  apply IH. intros i Hi. apply HP. lia.
Qed.

Lemma elem_of_blocks {A : Type} (n i : nat) (block : nat → list A) (x : A) :
  (i < n)%nat → x ∈ block i → x ∈ blocks n block.
Proof.
  intros Hi Hx. induction n as [|n IH]; [lia|].
  rewrite blocks_S. apply elem_of_app.
  destruct (decide (i = n)) as [-> | Hne]; [by right|].
  left. apply IH. lia.
Qed.

(** A loop whose round [i] pushes the elements of [block i] returns the
    array extended by all of them, as long as the array stays below the
    length limit. *)
Lemma forLoop_blocks {A : Type} (n k : nat) (block : nat → list A)
    (body : nat → list A → completion (list A)) (l : list A) :
  (∀ i, (i < n)%nat → length (block i) = k) →
  (∀ i l', (i < n)%nat → (Z.of_nat (length l' + k) < 2 ^ 32)%Z →
     body i l' = Returned (l' ++ block i)) →
  (Z.of_nat (length l + n * k) < 2 ^ 32)%Z →
  forLoop n body l = Returned (l ++ blocks n block).
Proof.
  intros Hk Hbody Hlen.
  assert (∀ q, (q <= n)%nat → forLoop q body l = Returned (l ++ blocks q block))
    as Hall; [|by apply Hall].
  induction q as [|q IH]; intros Hq.
  { unfold forLoop, blocks. cbn. by rewrite app_nil_r. }
  rewrite forLoop_S, IH, ret_bind by lia.
  rewrite Hbody; [by rewrite blocks_S, app_assoc | lia|].
  rewrite length_app, (blocks_length q k) by (intros; apply Hk; lia).
  assert ((q + 1) * k <= n * k)%nat by (apply Nat.mul_le_mono_r; lia).
  lia.
Qed.

Lemma rowMajor_inj (w i j i' j' : nat) :
  (i < w)%nat → (i' < w)%nat → (j' * w + i' = j * w + i)%nat → i' = i ∧ j' = j.
Proof.
  intros Hi Hi' Heq.
  assert (j' = j); [|split; [subst; lia | done]].
  destruct (Nat.lt_trichotomy j' j) as [Hlt | [-> | Hlt]]; [|done|]; exfalso.
  - assert (S j' * w <= j * w)%nat by (apply Nat.mul_le_mono_r; lia). lia.
  - assert (S j * w <= j' * w)%nat by (apply Nat.mul_le_mono_r; lia). lia.
Qed.

Lemma rowMajor_bound (w h i j : nat) :
  (i < w)%nat → (j < h)%nat → (j * w + i < w * h)%nat.
Proof.
  intros Hi Hj.
  assert (S j * w <= h * w)%nat by (apply Nat.mul_le_mono_r; lia). lia.
Qed.

Lemma faceTotal_pixels (w h : nat) :
  (1 <= w)%nat → (1 <= h)%nat → (faceTotal w h + 4 = 4 * (w * h))%nat.
Proof.
  unfold faceTotal. destruct w as [|w], h as [|h]; lia.
Qed.

(** *** The vertex loop *)

Section vertexLoop.
Context (imageWidth imageHeight : nat) (dx dy : float)
        (bandMap bandHeights : list float).

Local Abbreviation upTo :=
  (meshUpTo imageWidth imageHeight dx dy bandMap bandHeights).

Lemma pushPixel_step (i j : nat) (m : Mesh) :
  (i < imageWidth)%nat → (j < imageHeight)%nat →
  (Z.of_nat (2 * (imageWidth * imageHeight)) < 2 ^ 32)%Z →
  upTo (j * imageWidth + i)%nat m →
  ∃ m', pushPixel imageWidth imageHeight dx dy bandMap bandHeights j i m
        = Returned m' ∧
        upTo (S (j * imageWidth + i)) m'.
Proof.
  intros Hi Hj Hsize (Hlen & Htop & Hbot & Htab & Hvs).
  pose proof (rowMajor_bound _ _ _ _ Hi Hj) as Hin.
  unfold pushPixel. cbv zeta.
  rewrite push_returns, ret_bind by lia.
  rewrite push_returns, ret_bind by (rewrite length_app; cbn [length]; lia).
  eexists. split; [done|].
  set (n := (j * imageWidth + i)%nat) in *.
  unfold upTo, meshUpTo. cbn [vertices topVertices bottomVertices].
  rewrite !length_app, !length_insert, Hlen. cbn [length].
  split; [lia|]. split; [done|]. split; [done|]. split.
  - intros p Hp. destruct (decide (p = n)) as [-> | Hne].
    + rewrite !list_lookup_insert_eq by lia.
      split; do 2 f_equal; lia.
    + rewrite !list_lookup_insert_ne by done. apply Htab. lia.
  - intros i' j' Hi' Hlt.
    destruct (decide (j' * imageWidth + i' = n)%nat) as [Heq | Hne].
    + destruct (rowMajor_inj _ _ _ _ _ Hi Hi' Heq) as [-> ->]. fold n.
      split.
      * rewrite lookup_app_l by (rewrite length_app; cbn; lia).
        rewrite lookup_app_r by lia.
        by replace (2 * n - length (vertices m))%nat with 0%nat by lia.
      * rewrite lookup_app_r by (rewrite length_app; cbn; lia).
        rewrite length_app. cbn [length].
        by replace (2 * n + 1 - (length (vertices m) + 1))%nat with 0%nat by lia.
    + destruct (Hvs i' j' Hi') as [Hb Ht]; [lia|].
      rewrite <- app_assoc, !lookup_app_l by lia. done.
Qed.

(** While the vertex array stays below the length limit the vertex loop
    returns, with two vertices per pixel. *)
Lemma generateVertices_upTo :
  (Z.of_nat (2 * (imageWidth * imageHeight)) < 2 ^ 32)%Z →
  ∃ m, generateVertices imageWidth imageHeight dx dy bandMap bandHeights
       = Returned m ∧
       upTo (imageWidth * imageHeight)%nat m.
Proof.
  intros Hsize. unfold generateVertices.
  edestruct (forLoop_returns (λ j m, upTo (j * imageWidth)%nat m) imageHeight)
    as (m & Hrun & Hm); [| |exists m; split; [exact Hrun|]].
  - unfold upTo, meshUpTo. cbn. rewrite !length_replicate.
    repeat split; try done; intros; lia.
  - intros j m Hj Hm.
    edestruct (forLoop_returns (λ i m, upTo (j * imageWidth + i)%nat m) imageWidth)
      as (m' & Hrun & Hm'); [| |exists m'; split; [exact Hrun|]].
    + rewrite Nat.add_0_r. exact Hm.
    + intros i m1 Hi Hm1. rewrite Nat.add_succ_r. by apply pushPixel_step.
    + by replace (S j * imageWidth)%nat with (j * imageWidth + imageWidth)%nat by lia.
  - by rewrite Nat.mul_comm.
Qed.

Lemma readIndex_tables (n p : nat) (m : Mesh) :
  upTo n m → (p < n)%nat →
  readIndex (topVertices m) p = Some (2 * p + 1)%nat ∧
  readIndex (bottomVertices m) p = Some (2 * p)%nat.
Proof.
  intros (_ & _ & _ & Htab & _) Hp. unfold readIndex.
  destruct (Htab p Hp) as [-> ->]. done.
Qed.

Lemma corner_inRange (p : nat) (m : Mesh) :
  upTo (imageWidth * imageHeight) m → (p < imageWidth * imageHeight)%nat →
  (∃ k, readIndex (topVertices m) p = Some k
        ∧ (k < 2 * (imageWidth * imageHeight))%nat) ∧
  (∃ k, readIndex (bottomVertices m) p = Some k
        ∧ (k < 2 * (imageWidth * imageHeight))%nat).
Proof.
  intros Hm Hp. destruct (readIndex_tables _ _ _ Hm Hp) as [-> ->].
  split; eexists; (split; [done | lia]).
Qed.

(** *** The face loops *)

Lemma surfaceFaces_blocks (m : Mesh) (l : list face) :
  (Z.of_nat (length l + (imageHeight - 1) * ((imageWidth - 1) * 4)) < 2 ^ 32)%Z →
  surfaceFaces imageWidth imageHeight m l =
  Returned (l ++ blocks (imageHeight - 1)
                   (λ j, blocks (imageWidth - 1) (quadFaces imageWidth m j))).
Proof.
  intros Hlen. unfold surfaceFaces.
  apply forLoop_blocks with (k := ((imageWidth - 1) * 4)%nat); [| |done].
  - intros j _. by apply blocks_length.
  - intros j l' Hj Hl'. apply forLoop_blocks with (k := 4%nat); [done| |done].
    intros i l'' Hi Hl''. cbv zeta. by apply push4.
Qed.

Lemma frontBackFaces_blocks (m : Mesh) (l : list face) :
  (Z.of_nat (length l + (imageWidth - 1) * 4) < 2 ^ 32)%Z →
  frontBackFaces imageWidth imageHeight m l =
  Returned (l ++ blocks (imageWidth - 1) (frontBackWall imageWidth imageHeight m)).
Proof.
  intros Hlen. unfold frontBackFaces.
  apply forLoop_blocks with (k := 4%nat); [done| |done].
  intros i l' Hi Hl'. cbv zeta. by apply push4.
Qed.

Lemma leftRightFaces_blocks (m : Mesh) (l : list face) :
  (Z.of_nat (length l + (imageHeight - 1) * 4) < 2 ^ 32)%Z →
  leftRightFaces imageWidth imageHeight m l =
  Returned (l ++ blocks (imageHeight - 1) (leftRightWall imageWidth m)).
Proof.
  intros Hlen. unfold leftRightFaces.
  apply forLoop_blocks with (k := 4%nat); [done| |done].
  intros j l' Hj Hl'. cbv zeta. by apply push4.
Qed.

(** Every 2x2 quad contributes four triangles, every perimeter segment of
    each of the four sides two. *)
Lemma stlFaces_length (m : Mesh) :
  length (stlFaces imageWidth imageHeight m) = faceTotal imageWidth imageHeight.
Proof.
  unfold stlFaces, faceTotal. rewrite !length_app.
  rewrite (blocks_length _ ((imageWidth - 1) * 4));
    [|intros; by apply blocks_length].
  rewrite !(blocks_length _ 4) by done.
  set (w := (imageWidth - 1)%nat). set (h := (imageHeight - 1)%nat). lia.
Qed.

(** While the face array stays below the length limit the three face
    loops return. *)
Lemma generateFaces_stlFaces (m : Mesh) :
  (Z.of_nat (faceTotal imageWidth imageHeight) < 2 ^ 32)%Z →
  generateFaces imageWidth imageHeight m
  = Returned (stlFaces imageWidth imageHeight m).
Proof.
  intros Hlen. unfold faceTotal in Hlen.
  assert (Hsurface :
    length (blocks (imageHeight - 1)
              (λ j, blocks (imageWidth - 1) (quadFaces imageWidth m j)))
    = ((imageHeight - 1) * ((imageWidth - 1) * 4))%nat)
    by (apply blocks_length; intros; by apply blocks_length).
  assert (Hwalls :
    length (blocks (imageWidth - 1) (frontBackWall imageWidth imageHeight m))
    = ((imageWidth - 1) * 4)%nat) by (by apply blocks_length).
  set (w := (imageWidth - 1)%nat) in *. set (h := (imageHeight - 1)%nat) in *.
  unfold generateFaces, stlFaces. fold w h.
  rewrite surfaceFaces_blocks, ret_bind by (fold w h; cbn [length]; lia).
  cbn [app]. fold w h.
  rewrite frontBackFaces_blocks, ret_bind by (fold w h; lia).
  fold w h.
  rewrite leftRightFaces_blocks by (fold w h; rewrite length_app; lia).
  by rewrite <- app_assoc.
Qed.

Ltac pixel_bound :=
  first [ apply rowMajor_bound; lia
        | rewrite <- Nat.add_assoc; apply rowMajor_bound; lia ].

Ltac corners_inRange Hm :=
  repeat (apply Forall_cons; split); [..|apply Forall_nil];
  unfold faceInRange;
  repeat split;
  first [ eapply (proj1 (corner_inRange _ _ Hm _))
        | eapply (proj2 (corner_inRange _ _ Hm _)) ].

Lemma stlFaces_inRange (m : Mesh) :
  (1 <= imageWidth)%nat → (1 <= imageHeight)%nat →
  upTo (imageWidth * imageHeight) m →
  Forall (faceInRange (2 * (imageWidth * imageHeight)))
    (stlFaces imageWidth imageHeight m).
Proof.
  intros Hw Hh Hm. unfold stlFaces.
  repeat apply Forall_app_2.
  - apply Forall_blocks. intros j Hj. apply Forall_blocks. intros i Hi.
    unfold quadFaces. cbv zeta. corners_inRange Hm.
  - apply Forall_blocks. intros i Hi.
    unfold frontBackWall. cbv zeta. corners_inRange Hm.
  - apply Forall_blocks. intros j Hj.
    unfold leftRightWall. cbv zeta. corners_inRange Hm.
  Unshelve. all: pixel_bound.
Qed.

(** With at least two columns or two rows, the top vertex of every pixel
    is a corner of some face. *)
Lemma topVertex_used (i j : nat) (m : Mesh) :
  (i < imageWidth)%nat → (j < imageHeight)%nat →
  (2 <= imageWidth ∨ 2 <= imageHeight)%nat →
  upTo (imageWidth * imageHeight) m →
  ∃ f, f ∈ stlFaces imageWidth imageHeight m ∧
       Some (2 * (j * imageWidth + i) + 1)%nat ∈ faceCorners f.
Proof.
  intros Hi Hj Hsize Hm.
  assert (Htop : ∀ i' j', (i' < imageWidth)%nat → (j' < imageHeight)%nat →
            ∀ q, q = (j' * imageWidth + i')%nat →
            readIndex (topVertices m) q = Some (2 * (j' * imageWidth + i') + 1)%nat).
  { intros i' j' Hi' Hj' q ->.
    apply (readIndex_tables _ _ _ Hm). by apply rowMajor_bound. }
  unfold stlFaces.
  destruct (decide (2 <= imageWidth)%nat) as [Hw | Hw];
    [destruct (decide (2 <= imageHeight)%nat) as [Hh | Hh]|].
  - (* a quad of the surface *)
    set (i0 := Nat.min i (imageWidth - 2)). set (j0 := Nat.min j (imageHeight - 2)).
    assert (Hcase : (i = i0 ∨ i = i0 + 1)%nat ∧ (j = j0 ∨ j = j0 + 1)%nat)
      by (subst i0 j0; lia).
    assert (Hi0 : (i0 < imageWidth - 1)%nat) by (subst i0; lia).
    assert (Hj0 : (j0 < imageHeight - 1)%nat) by (subst j0; lia).
    clearbody i0 j0.
    assert (Hquad : ∀ f, f ∈ quadFaces imageWidth m j0 i0 →
              f ∈ blocks (imageHeight - 1)
                    (λ j, blocks (imageWidth - 1) (quadFaces imageWidth m j))
                  ++ blocks (imageWidth - 1) (frontBackWall imageWidth imageHeight m)
                  ++ blocks (imageHeight - 1) (leftRightWall imageWidth m)).
    { intros f Hf. apply elem_of_app. left.
      apply (elem_of_blocks _ j0); [done|]. by apply (elem_of_blocks _ i0). }
    unfold quadFaces in Hquad. cbv zeta in Hquad.
    destruct Hcase as [[-> | ->] [-> | ->]].
    + eexists. split; [apply Hquad; apply list_elem_of_here|].
      cbn [faceCorners]. rewrite (Htop i0 j0) by (lia || done). repeat first [apply list_elem_of_here | apply list_elem_of_further].
    + eexists. split; [apply Hquad; apply list_elem_of_further, list_elem_of_here|].
      cbn [faceCorners]. rewrite (Htop i0 (j0 + 1)%nat ltac:(lia) ltac:(lia)
                                    ((j0 + 1) * imageWidth + i0)%nat) by done.
      repeat first [apply list_elem_of_here | apply list_elem_of_further].
    + eexists. split; [apply Hquad; apply list_elem_of_here|].
      cbn [faceCorners]. rewrite (Htop (i0 + 1)%nat j0 ltac:(lia) ltac:(lia)
                                    (j0 * imageWidth + i0 + 1)%nat) by lia.
      repeat first [apply list_elem_of_here | apply list_elem_of_further].
    + eexists. split; [apply Hquad; apply list_elem_of_here|].
      cbn [faceCorners]. rewrite (Htop (i0 + 1)%nat (j0 + 1)%nat ltac:(lia) ltac:(lia)
                                    ((j0 + 1) * imageWidth + i0 + 1)%nat) by lia.
      repeat first [apply list_elem_of_here | apply list_elem_of_further].
  - (* one row: a segment of the front wall *)
    assert (j = 0)%nat as -> by lia.
    set (i0 := Nat.min i (imageWidth - 2)).
    assert (Hcase : (i = i0 ∨ i = i0 + 1)%nat) by (subst i0; lia).
    assert (Hi0 : (i0 < imageWidth - 1)%nat) by (subst i0; lia).
    clearbody i0.
    assert (Hwall : ∀ f, f ∈ frontBackWall imageWidth imageHeight m i0 →
              f ∈ blocks (imageHeight - 1)
                    (λ j, blocks (imageWidth - 1) (quadFaces imageWidth m j))
                  ++ blocks (imageWidth - 1) (frontBackWall imageWidth imageHeight m)
                  ++ blocks (imageHeight - 1) (leftRightWall imageWidth m)).
    { intros f Hf. apply elem_of_app. right. apply elem_of_app. left.
      by apply (elem_of_blocks _ i0). }
    unfold frontBackWall in Hwall. cbv zeta in Hwall.
    destruct Hcase as [-> | ->].
    + eexists. split; [apply Hwall; apply list_elem_of_here|].
      cbn [faceCorners]. rewrite (Htop i0 0%nat) by (lia || done). repeat first [apply list_elem_of_here | apply list_elem_of_further].
    + eexists. split; [apply Hwall; apply list_elem_of_here|].
      cbn [faceCorners]. rewrite (Htop (i0 + 1)%nat 0%nat ltac:(lia) ltac:(lia)
                                    (0 * imageWidth + i0 + 1)%nat) by lia.
      repeat first [apply list_elem_of_here | apply list_elem_of_further].
  - (* one column: a segment of the left wall *)
    assert (i = 0)%nat as -> by lia.
    set (j0 := Nat.min j (imageHeight - 2)).
    assert (Hcase : (j = j0 ∨ j = j0 + 1)%nat) by (subst j0; lia).
    assert (Hj0 : (j0 < imageHeight - 1)%nat) by (subst j0; lia).
    clearbody j0.
    assert (Hwall : ∀ f, f ∈ leftRightWall imageWidth m j0 →
              f ∈ blocks (imageHeight - 1)
                    (λ j, blocks (imageWidth - 1) (quadFaces imageWidth m j))
                  ++ blocks (imageWidth - 1) (frontBackWall imageWidth imageHeight m)
                  ++ blocks (imageHeight - 1) (leftRightWall imageWidth m)).
    { intros f Hf. apply elem_of_app. right. apply elem_of_app. right.
      by apply (elem_of_blocks _ j0). }
    unfold leftRightWall in Hwall. cbv zeta in Hwall.
    destruct Hcase as [-> | ->].
    + eexists. split; [apply Hwall; apply list_elem_of_here|].
      cbn [faceCorners]. rewrite (Htop 0%nat j0) by (lia || done). repeat first [apply list_elem_of_here | apply list_elem_of_further].
    + eexists. split; [apply Hwall; apply list_elem_of_here|].
      cbn [faceCorners]. rewrite (Htop 0%nat (j0 + 1)%nat ltac:(lia) ltac:(lia)
                                    ((j0 + 1) * imageWidth + 0)%nat) by done.
      repeat first [apply list_elem_of_here | apply list_elem_of_further].
Qed.

End vertexLoop.

(** *** Magnitudes through the normal computation *)

Lemma is_nan_spec (x : float) : is_nan x = true ↔ Prim2SF x = S754_nan.
Proof.
  unfold is_nan. rewrite FloatAxioms.eqb_spec. unfold SFeqb, SFcompare.
  destruct (Prim2SF x) as [[]|[]| |[] m e]; cbn; try done;
    rewrite Z.compare_refl, Pos.compare_cont_refl; done.
Qed.

Lemma is_zero_spec (x : float) : is_zero x = true ↔ ∃ s, Prim2SF x = S754_zero s.
Proof.
  unfold is_zero. rewrite FloatAxioms.eqb_spec.
  change (Prim2SF zero) with (S754_zero false).
  destruct (Prim2SF x) as [[]|[]| |[] m e]; cbn; split; try done; eauto.
  all: by intros [? ?].
Qed.

Lemma is_finite_below (x : float) (M : Z) : below M (Prim2SF x) → is_finite x = true.
Proof.
  intros Hx. unfold is_finite, is_infinity.
  destruct (is_nan x) eqn:Hn.
  { apply is_nan_spec in Hn. by rewrite Hn in Hx. }
  rewrite FloatAxioms.eqb_spec, abs_spec.
  change (Prim2SF infinity) with (S754_infinity false).
  by destruct (Prim2SF x) as [[]|[]| |[] m e].
Qed.

Lemma abs_ltb_below (x : float) :
  (abs x <? 0x1p+250)%float = true → below 250 (Prim2SF x).
Proof.
  rewrite FloatAxioms.ltb_spec, abs_spec.
  change (Prim2SF 0x1p+250) with (S754_finite false 4503599627370496 198).
  pose proof (Prim2SF_valid x) as Hv.
  destruct (Prim2SF x) as [[]|[]| |s m e]; try done.
  apply valid_finite in Hv as [He _].
  pose proof (Zdigits2_pos (Zpos m) ltac:(lia)).
  assert (Hc : Zpos 4503599627370496 = 2 ^ 52) by reflexivity.
  revert Hc. generalize 4503599627370496%positive. intros c Hc.
  unfold SFltb, SFcompare, SFabs, below.
  destruct (Z.compare_spec e 198) as [-> | Hlt | Hgt]; try done.
  - change (PosDef.Pos.compare_cont Eq m c) with (Pos.compare m c).
    destruct (Pos.compare_spec m c) as [|Hm|]; try done.
    intros _. assert (Zdigits2 (Zpos m) <= 52); [|lia].
    apply Zdigits2_le_intro; lia.
  - intros _. lia.
Qed.

Lemma boundedVertex_below (x y z : float) :
  boundedVertex (x, y, z) = true →
  below 250 (Prim2SF x) ∧ below 250 (Prim2SF y) ∧ below 250 (Prim2SF z).
Proof.
  unfold boundedVertex. intros [[Hx Hy]%andb_prop Hz]%andb_prop.
  auto using abs_ltb_below.
Qed.

(** Magnitudes through the primitive operations. *)
Lemma sub_below (x y : float) (M : Z) :
  below M (Prim2SF x) → below M (Prim2SF y) → -1074 <= M → M + 2 <= 1024 →
  below (M + 2) (Prim2SF (x - y)).
Proof. intros. rewrite sub_spec. apply SFsub_below; auto using Prim2SF_valid. Qed.

Lemma mul_below (x y : float) (Mx My : Z) :
  below Mx (Prim2SF x) → below My (Prim2SF y) →
  -1074 <= Mx + My → Mx + My + 1 <= 1024 → Mx <= 1024 → My <= 1024 →
  below (Mx + My + 1) (Prim2SF (x * y)).
Proof. intros. rewrite mul_spec. apply SFmul_below; auto using Prim2SF_valid. Qed.

Lemma crossTerm_below (a b c d : float) :
  below 252 (Prim2SF a) → below 252 (Prim2SF b) →
  below 252 (Prim2SF c) → below 252 (Prim2SF d) →
  below 507 (Prim2SF (a * b - c * d)).
Proof.
  intros Ha Hb Hc Hd.
  apply (sub_below _ _ 505); [| |lia|lia].
  - apply (mul_below _ _ 252 252); done || lia.
  - apply (mul_below _ _ 252 252); done || lia.
Qed.

Lemma crossProduct_below (v1 v2 v3 : vertex) :
  boundedVertex v1 = true → boundedVertex v2 = true → boundedVertex v3 = true →
  let '(n0, n1, n2) := crossProduct v1 v2 v3 in
  below 507 (Prim2SF n0) ∧ below 507 (Prim2SF n1) ∧ below 507 (Prim2SF n2).
Proof.
  destruct v1 as [[x1 y1] z1], v2 as [[x2 y2] z2], v3 as [[x3 y3] z3].
  intros (? & ? & ?)%boundedVertex_below (? & ? & ?)%boundedVertex_below
         (? & ? & ?)%boundedVertex_below.
  cbn [crossProduct].
  repeat split; apply crossTerm_below; apply (sub_below _ _ 250); done || lia.
Qed.

Lemma square_spec (x : float) (M : Z) :
  below M (Prim2SF x) → -1074 <= M + M → M + M + 1 <= 1024 →
  nonneg (Prim2SF (x * x)) ∧ below (M + M + 1) (Prim2SF (x * x)) ∧
  ∀ L, above L (Prim2SF x) → -1073 <= L + L - 1 → above (L + L - 1) (Prim2SF (x * x)).
Proof. intros. rewrite mul_spec. apply SFmul_square; auto using Prim2SF_valid. Qed.

Lemma add_nonneg_spec (x y : float) (M : Z) :
  nonneg (Prim2SF x) → nonneg (Prim2SF y) →
  below M (Prim2SF x) → below M (Prim2SF y) → -1074 <= M → M + 2 <= 1024 →
  nonneg (Prim2SF (x + y)) ∧ below (M + 2) (Prim2SF (x + y)) ∧
  (∀ L, above L (Prim2SF x) → above L (Prim2SF (x + y))) ∧
  (∀ L, above L (Prim2SF y) → above L (Prim2SF (x + y))).
Proof.
  intros. rewrite add_spec.
  destruct (SFadd_nonneg (Prim2SF x) (Prim2SF y) M) as (? & ? & ?);
    auto using Prim2SF_valid.
  split; [done|]. split; [|done].
  apply SFadd_below; auto using Prim2SF_valid.
Qed.

(** The sum of the squares: it is non-negative, does not overflow, and is
    at least the square of each component. *)
Lemma squareSum_spec (n0 n1 n2 : float) :
  below 507 (Prim2SF n0) → below 507 (Prim2SF n1) → below 507 (Prim2SF n2) →
  let s := Prim2SF (n0 * n0 + n1 * n1 + n2 * n2) in
  nonneg s ∧ below 1019 s ∧
  ∀ n, n = n0 ∨ n = n1 ∨ n = n2 →
    ∀ L, above L (Prim2SF n) → -1073 <= L + L - 1 → above (L + L - 1) s.
Proof.
  intros H0 H1 H2 s. subst s.
  destruct (square_spec n0 507 H0) as (N0 & B0 & A0); [lia | lia|].
  destruct (square_spec n1 507 H1) as (N1 & B1 & A1); [lia | lia|].
  destruct (square_spec n2 507 H2) as (N2 & B2 & A2); [lia | lia|].
  destruct (add_nonneg_spec (n0 * n0) (n1 * n1) 1015 N0 N1 B0 B1)
    as (N01 & B01 & A01 & A01'); [lia | lia|].
  destruct (add_nonneg_spec (n0 * n0 + n1 * n1) (n2 * n2) 1017 N01 N2 B01)
    as (N & B & A & A'); [eapply below_mono; [|exact B2]; lia | lia | lia|].
  split; [done|]. split; [done|].
  intros n [-> | [-> | ->]] L HL Hlow; auto.
Qed.

Lemma one_above : above 1 (Prim2SF 1).
Proof. vm_compute. discriminate. Qed.

(** The divisor [len]: 1, or a square root that is finite and not zero. *)
Lemma normalLength_spec (n0 n1 n2 : float) :
  below 507 (Prim2SF n0) → below 507 (Prim2SF n1) → below 507 (Prim2SF n2) →
  let len := normalLength (n0, n1, n2) in
  above (-536) (Prim2SF len) ∧
  ∀ n, n = n0 ∨ n = n1 ∨ n = n2 →
    ∀ L, above L (Prim2SF n) → -536 <= L → above L (Prim2SF len).
Proof.
  intros H0 H1 H2. cbn [normalLength].
  destruct (squareSum_spec n0 n1 n2 H0 H1 H2) as (Hnn & Hb & Ha).
  set (s := (n0 * n0 + n1 * n1 + n2 * n2)%float) in *.
  destruct (SFsqrt_spec (Prim2SF s) 1019 (Prim2SF_valid _) Hnn Hb ltac:(lia))
    as (Rnn & Rb & Ra).
  rewrite <- FloatAxioms.sqrt_spec in *.
  assert (Hbig : ∀ L, above L (Prim2SF (sqrt s)) → orElse (Some (sqrt s)) 1 = sqrt s).
  { intros L HL. unfold orElse.
    destruct (is_zero (sqrt s)) eqn:Hz.
    { apply is_zero_spec in Hz as [sg Hz]. by rewrite Hz in HL. }
    destruct (is_nan (sqrt s)) eqn:Hn; [|done].
    apply is_nan_spec in Hn. by rewrite Hn in HL. }
  split.
  - destruct (Prim2SF s) as [sg|sg| |sg m e] eqn:Es; try done.
    + assert (Hz : is_zero (sqrt s) = true).
      { apply is_zero_spec. rewrite FloatAxioms.sqrt_spec, Es. by eexists. }
      unfold orElse. rewrite Hz. cbn. eapply above_mono; [|exact one_above]. lia.
    + assert (Hs : above (-1073) (Prim2SF s)).
      { apply (valid_above _ (Zdigits2 (Zpos m) + e)); [apply Prim2SF_valid|].
        rewrite Es. cbn. lia. }
      rewrite Es in Hs. specialize (Ra _ Hs).
      rewrite (Hbig _ Ra). exact Ra.
  - intros n Hn L HL Hlow.
    specialize (Ha n Hn L HL ltac:(lia)). specialize (Ra _ Ha).
    replace ((L + L - 1 + 1) / 2) with L in Ra
      by (apply Z.div_unique with 0; lia).
    by rewrite (Hbig _ Ra).
Qed.

Lemma div_below (x y : float) (Mx Ly M : Z) :
  below Mx (Prim2SF x) → above Ly (Prim2SF y) →
  Mx - Ly + 1 <= M → -1074 <= M → M + 1 <= 1024 →
  below (M + 1) (Prim2SF (x / y)).
Proof. intros. rewrite div_spec. eapply SFdiv_below; eauto using Prim2SF_valid. Qed.

(** Each component of the cross product, divided by [len], is below 4 in
    magnitude. *)
Lemma normalizedNormal_below (n0 n1 n2 n : float) :
  below 507 (Prim2SF n0) → below 507 (Prim2SF n1) → below 507 (Prim2SF n2) →
  n = n0 ∨ n = n1 ∨ n = n2 →
  below 2 (Prim2SF (n / normalLength (n0, n1, n2))).
Proof.
  intros H0 H1 H2 Hn.
  destruct (normalLength_spec n0 n1 n2 H0 H1 H2) as [Hlen Hrel].
  specialize (Hrel n Hn).
  set (len := normalLength (n0, n1, n2)) in *. clearbody len.
  assert (Hb : below 507 (Prim2SF n)) by (by destruct Hn as [-> | [-> | ->]]).
  destruct (Prim2SF n) as [sg|sg| |sg m e] eqn:En; try done.
  - rewrite div_spec, En. by destruct (Prim2SF len).
  - destruct (Z.le_gt_cases (-536) (Zdigits2 (Zpos m) + e)) as [Hbig | Hsmall].
    + specialize (Hrel (Zdigits2 (Zpos m) + e) ltac:(cbn; lia) Hbig).
      apply (div_below n len (Zdigits2 (Zpos m) + e) (Zdigits2 (Zpos m) + e) 1);
        [rewrite En; unfold below; lia | done | lia | lia | lia].
    + eapply (below_mono 1); [lia|].
      apply (div_below n len (-537) (-536) 0);
        [rewrite En; unfold below; lia | done | lia | lia | lia].
Qed.

Lemma of_uint63_below (n : Uint63.int) : below 64 (Prim2SF (of_uint63 n)).
Proof.
  rewrite of_uint63_spec.
  pose proof (Uint63.to_Z_bounded n) as Hn.
  apply (binary_normalize_below _ 0 63); [|lia|lia].
  assert (Zdigits2 (Uint63.to_Z n) <= 63); [|lia].
  apply Zdigits2_le_intro; [lia | lia|]. exact (proj2 Hn).
Qed.

Lemma SF2Prim_finite (s : bool) (m : positive) (e : Z) :
  e <= 900 → is_finite (SF2Prim (S754_finite s m e)) = true.
Proof.
  intros He. cbn [SF2Prim].
  set (pm := of_uint63 (Uint63.of_Z (Zpos m))).
  pose proof (of_uint63_below (Uint63.of_Z (Zpos m))) as Hpm. fold pm in Hpm.
  assert (Hf : below 1000 (Prim2SF (Z.ldexp pm e))).
  { rewrite Z_ldexp_spec. unfold SFldexp.
    destruct (Prim2SF pm) as [sg|sg| |sg mx ex]; try done.
    unfold below in Hpm.
    destruct (binary_round_upper prec emax ltac:(done) ltac:(done) sg mx (ex + e) 999)
      as [-> | (m' & e' & -> & Hm)]; flia. }
  destruct s; [|by eapply is_finite_below].
  apply (is_finite_below _ 1000). rewrite opp_spec.
  by destruct (Prim2SF (Z.ldexp pm e)).
Qed.

(** What [setFloat32] stores of a number below 2^126 in magnitude is
    finite. *)
Lemma fround_finite (x : float) (M : Z) :
  below M (Prim2SF x) → M <= 126 → is_finite (fround x) = true.
Proof.
  intros Hx HM. unfold fround.
  destruct (Prim2SF x) as [sg|sg| |sg m e] eqn:Ex; try done.
  - apply (is_finite_below _ 0). by rewrite Ex.
  - unfold below in Hx.
    assert (Hr : binary_normalize 24 128 (cond_Zopp sg (Zpos m)) e sg
                 = binary_round 24 128 sg m e) by (by destruct sg).
    rewrite Hr.
    destruct (binary_round_upper 24 128 ltac:(done) ltac:(done) sg m e (Z.max M (-149)))
      as [-> | (m' & e' & -> & Hm)]; try (unfold SpecFloat.emin; lia).
    + by destruct sg.
    + apply SF2Prim_finite. pose proof (Zdigits2_pos (Zpos m') ltac:(lia)). lia.
Qed.

(** The normal written for a triangle whose corners are below 2^250 in
    magnitude has three finite components. *)
Lemma normalizedNormal_finite (v1 v2 v3 : vertex) :
  boundedVertex v1 = true → boundedVertex v2 = true → boundedVertex v3 = true →
  finiteVertex (writeVertex (normalizedNormal v1 v2 v3)) = true.
Proof.
  intros B1 B2 B3. unfold normalizedNormal.
  pose proof (crossProduct_below v1 v2 v3 B1 B2 B3) as Hn.
  destruct (crossProduct v1 v2 v3) as [[n0 n1] n2]. destruct Hn as (H0 & H1 & H2).
  cbn [writeVertex finiteVertex].
  rewrite !(fround_finite _ 2); try lia; try done.
  all: apply normalizedNormal_below; auto.
Qed.

Lemma normalLength_zero (n : vertex) : zeroVertex n → normalLength n = 1%float.
Proof.
  destruct n as [[n0 n1] n2].
  intros ([-> | ->] & [-> | ->] & [-> | ->]); vm_compute; reflexivity.
Qed.

Lemma normalizedNormal_zero (v1 v2 v3 : vertex) :
  zeroVertex (crossProduct v1 v2 v3) →
  writeVertex (normalizedNormal v1 v2 v3) = crossProduct v1 v2 v3.
Proof.
  unfold normalizedNormal.
  destruct (crossProduct v1 v2 v3) as [[n0 n1] n2].
  intros ([-> | ->] & [-> | ->] & [-> | ->]); vm_compute; reflexivity.
Qed.

(** *** Writing the records *)

Lemma writeFaces_inRange (vs : list vertex) (faces : list face) :
  Forall (faceInRange (length vs)) faces →
  ∃ ts, writeFaces vs faces = Returned ts ∧
        Forall2 (λ f t, writeFace vs f = Returned t) faces ts.
Proof.
  induction 1 as [|[[i1 i2] i3] faces Hf _ (ts & Hts & Hall)].
  - by exists [].
  - destruct Hf as ((k1 & -> & H1) & (k2 & -> & H2) & (k3 & -> & H3)).
    destruct (lookup_lt_is_Some_2 vs k1 H1) as [v1 Hv1].
    destruct (lookup_lt_is_Some_2 vs k2 H2) as [v2 Hv2].
    destruct (lookup_lt_is_Some_2 vs k3 H3) as [v3 Hv3].
    eexists (_ :: ts). cbn [writeFaces].
    assert (Hw : writeFace vs (Some k1, Some k2, Some k3) =
                 Returned {| normal := writeVertex (normalizedNormal v1 v2 v3);
                             corner1 := writeVertex v1;
                             corner2 := writeVertex v2;
                             corner3 := writeVertex v3 |}).
    { unfold writeFace, readVertex. by rewrite Hv1, Hv2, Hv3. }
    rewrite Hw, Hts. split; [done|]. by constructor.
Qed.

(** A record that was written holds the three vertices of its face and
    the normalised cross product of their edge vectors. *)
Lemma writeFace_returned (vs : list vertex) (f : face) (t : Triangle) :
  writeFace vs f = Returned t →
  ∃ v1 v2 v3,
    readVertex vs <$> faceCorners f = [Some v1; Some v2; Some v3] ∧
    triangleCorners t = [writeVertex v1; writeVertex v2; writeVertex v3] ∧
    normal t = writeVertex (normalizedNormal v1 v2 v3).
Proof.
  destruct f as [[i1 i2] i3]. unfold writeFace. cbn [faceCorners fmap list_fmap].
  destruct (readVertex vs i1) as [v1|]; [|done].
  destruct (readVertex vs i2) as [v2|]; [|done].
  destruct (readVertex vs i3) as [v3|]; [|done].
  intros [= <-]. by exists v1, v2, v3.
Qed.

(** With valid array lengths, a canvas of at least one pixel and a face
    count below the length limit of an array, [generateStl] returns: the
    vertex loop and the face loops return, and one record is written per
    face, from the vertices of the mesh. *)
Lemma generateStl_records (appState : AppState) (domElements : DomElements)
    (n : nat) :
  let w := width (origCanvas appState) in
  let h := height (origCanvas appState) in
  (1 <= w)%nat → (1 <= h)%nat →
  arrayLength (numBandsInput domElements) = Some n →
  (4 * Z.of_nat (w * h) - 4 < 2 ^ 32)%Z →
  ∃ m blob,
    stlMesh appState domElements n = Returned m ∧
    meshUpTo w h
      (xSizeInput domElements / ofInt (Z.of_nat w - 1))%float
      (ySizeInput domElements / ofInt (Z.of_nat h - 1))%float
      (bandMap appState)
      (makeBandHeights n (baseThicknessInput domElements)
         (bandThicknessInput domElements) (layerHeightInput domElements))
      (w * h) m ∧
    generateFaces w h m = Returned (stlFaces w h m) ∧
    generateStl appState domElements = Returned blob ∧
    Forall2 (λ f t, writeFace (vertices m) f = Returned t)
      (stlFaces w h m) (triangles blob) ∧
    length (triangles blob) = faceTotal w h ∧
    byteLength blob = (84 + 50 * Z.of_nat (faceTotal w h))%Z ∧
    triangleCount blob = Z.of_nat (faceTotal w h).
Proof.
  intros w h Hw Hh Hn Hsize.
  pose proof (faceTotal_pixels w h Hw Hh) as Htotal.
  destruct (generateVertices_upTo w h
              (xSizeInput domElements / ofInt (Z.of_nat w - 1))%float
              (ySizeInput domElements / ofInt (Z.of_nat h - 1))%float
              (bandMap appState)
              (makeBandHeights n (baseThicknessInput domElements)
                 (bandThicknessInput domElements) (layerHeightInput domElements)))
    as (m & Hrun & Hm); [lia|].
  assert (Hfaces : generateFaces w h m = Returned (stlFaces w h m))
    by (apply generateFaces_stlFaces; lia).
  pose proof (stlFaces_inRange _ _ _ _ _ _ m Hw Hh Hm) as Hrange.
  pose proof Hm as (Hlen & _). rewrite <- Hlen in Hrange.
  destruct (writeFaces_inRange _ _ Hrange) as (ts & Hts & Hall).
  exists m,
    {| byteLength := 84 + Z.of_nat (length (stlFaces w h m)) * 50;
       triangleCount := Z.of_nat (length (stlFaces w h m)) mod 2 ^ 32;
       triangles := ts |}.
  split; [exact Hrun|]. split; [exact Hm|]. split; [exact Hfaces|]. split.
  { unfold generateStl. rewrite Hn. fold w h.
    destruct (Z.leb_spec (2 ^ 32) (Z.of_nat (w * h))) as [? | _]; [lia|].
    by rewrite Hrun, ret_bind, Hfaces, ret_bind, Hts, ret_bind. }
  cbn [triangles byteLength triangleCount].
  split; [exact Hall|].
  rewrite <- (Forall2_length _ _ _ Hall), stlFaces_length.
  split; [done|]. split; [lia|].
  apply Z.mod_small. lia.
Qed.

(** C6.  For a band raster of width W >= 2 and height H >= 2, with array
    lengths that [new Array] accepts and a face count 4WH - 4 below the
    length limit 2^32 of an array (beyond it [faces.push] throws),
    [generateStl] returns a buffer with exactly
    4(W-1)(H-1) + 4(W-1) + 4(H-1) triangle records, and writes that
    number as the triangle count. *)
Theorem generateStl_triangle_total (appState : AppState)
    (domElements : DomElements) (n : nat) :
  (2 <= width (origCanvas appState))%nat →
  (2 <= height (origCanvas appState))%nat →
  arrayLength (numBandsInput domElements) = Some n →
  (4 * Z.of_nat (width (origCanvas appState) * height (origCanvas appState)) - 4
   < 2 ^ 32)%Z →
  ∃ blob, generateStl appState domElements = Returned blob ∧
    length (triangles blob) =
      (4 * (width (origCanvas appState) - 1) * (height (origCanvas appState) - 1)
       + 4 * (width (origCanvas appState) - 1)
       + 4 * (height (origCanvas appState) - 1))%nat ∧
    triangleCount blob =
      Z.of_nat
        (4 * (width (origCanvas appState) - 1) * (height (origCanvas appState) - 1)
         + 4 * (width (origCanvas appState) - 1)
         + 4 * (height (origCanvas appState) - 1)).
Proof.
  intros Hw Hh Hn Hsize.
  destruct (generateStl_records appState domElements n)
    as (m & blob & _ & _ & _ & Hrun & _ & Hlen & _ & Hcount);
    [lia | lia | done | done |].
  by exists blob.
Qed.

Lemma generateStl_triangle_total_witness :
  ∃ blob,
    generateStl
      {| bandMap := [0; 0; 1; 1]%float;
         origCanvas := {| width := 2; height := 2 |} |}
      {| layerHeightInput := 0.25; xSizeInput := 10; ySizeInput := 10;
         bandThicknessInput := 2; baseThicknessInput := 4;
         numBandsInput := 2 |} = Returned blob ∧
    length (triangles blob) = (4 * (2 - 1) * (2 - 1) + 4 * (2 - 1) + 4 * (2 - 1))%nat ∧
    triangleCount blob =
      Z.of_nat (4 * (2 - 1) * (2 - 1) + 4 * (2 - 1) + 4 * (2 - 1)).
Proof.
  apply (generateStl_triangle_total
           {| bandMap := [0; 0; 1; 1]%float;
              origCanvas := {| width := 2; height := 2 |} |}
           {| layerHeightInput := 0.25; xSizeInput := 10; ySizeInput := 10;
              bandThicknessInput := 2; baseThicknessInput := 4;
              numBandsInput := 2 |} 2%nat);
    [cbn; lia | cbn; lia | vm_compute; reflexivity | vm_compute; reflexivity].
Defined.

(** *** Bands without a height *)

Lemma bandHeightsFrom_length (previous increment : float) (count : nat) :
  length (bandHeightsFrom previous increment count) = count.
Proof.
  revert previous. induction count as [|count IH]; intros previous; [done|].
  cbn. by rewrite IH.
Qed.

(** With a band count of at least one, the table has exactly [numBands]
    entries: a band index at or above the count, and a value that is no
    array index at all, both read [undefined]. *)
Lemma lookupHeight_beyond_count (n : nat) (base additional layer band : float) :
  (1 <= n)%nat →
  match toIndex band with
  | Some k => (n <= k)%nat
  | None => True
  end →
  lookupHeight (makeBandHeights n base additional layer) (Some band) = None.
Proof.
  intros Hn Hband. unfold lookupHeight. destruct (toIndex band) as [k|]; [|done].
  apply lookup_ge_None. unfold makeBandHeights. cbn [length].
  rewrite bandHeightsFrom_length. lia.
Qed.

(** C10.  When the band of the pixel in column i, row j has no entry in
    the height lookup table (or the raster has no entry for the pixel),
    [generateStl] does not throw: it returns the buffer, and in every
    record of the buffer each corner taken from the top vertex of that
    pixel is written with the pixel's x and y and with z = 0.  On a raster
    with at least two columns or two rows some record has such a corner. *)
Theorem generateStl_missing_height_is_zero (appState : AppState)
    (domElements : DomElements) (n i j : nat) :
  (i < width (origCanvas appState))%nat →
  (j < height (origCanvas appState))%nat →
  arrayLength (numBandsInput domElements) = Some n →
  (4 * Z.of_nat (width (origCanvas appState) * height (origCanvas appState)) - 4
   < 2 ^ 32)%Z →
  lookupHeight
    (makeBandHeights n (baseThicknessInput domElements)
       (bandThicknessInput domElements) (layerHeightInput domElements))
    (bandMap appState
       !! ((height (origCanvas appState) - 1 - j) * width (origCanvas appState)
           + i)%nat) = None →
  ∃ m faces blob,
    stlMesh appState domElements n = Returned m ∧
    generateFaces (width (origCanvas appState)) (height (origCanvas appState)) m
      = Returned faces ∧
    generateStl appState domElements = Returned blob ∧
    readIndex (topVertices m) (j * width (origCanvas appState) + i)%nat
      = Some (2 * (j * width (origCanvas appState) + i) + 1)%nat ∧
    Forall2
      (λ f t,
         Forall2
           (λ index corner,
              index = Some (2 * (j * width (origCanvas appState) + i) + 1)%nat →
              corner =
                (fround (ofNat i * (xSizeInput domElements
                           / ofInt (Z.of_nat (width (origCanvas appState)) - 1))),
                 fround (ofNat j * (ySizeInput domElements
                           / ofInt (Z.of_nat (height (origCanvas appState)) - 1))),
                 0)%float)
           (faceCorners f) (triangleCorners t))
      faces (triangles blob) ∧
    ((2 <= width (origCanvas appState) ∨ 2 <= height (origCanvas appState))%nat →
     ∃ f, f ∈ faces ∧
          Some (2 * (j * width (origCanvas appState) + i) + 1)%nat ∈ faceCorners f).
Proof.
  intros Hi Hj Hn Hsize Hnone.
  destruct (generateStl_records appState domElements n)
    as (m & blob & Hmesh & Hm & Hfaces & Hrun & Hall & _); [lia | lia | done | done |].
  exists m, (stlFaces (width (origCanvas appState)) (height (origCanvas appState)) m),
    blob.
  pose proof (rowMajor_bound _ _ _ _ Hi Hj) as Hp.
  split; [done|]. split; [done|]. split; [done|]. split; [|split].
  - by apply (readIndex_tables _ _ _ _ _ _ _ _ _ Hm).
  - destruct Hm as (_ & _ & _ & _ & Hvs).
    destruct (Hvs i j Hi Hp) as [_ Hv].
    unfold topVertexOf in Hv. rewrite Hnone in Hv. cbn [orElse] in Hv.
    eapply Forall2_impl; [exact Hall|].
    intros [[i1 i2] i3] t Hw.
    destruct (writeFace_returned _ _ _ Hw) as (v1 & v2 & v3 & Hread & -> & _).
    cbn [faceCorners fmap list_fmap] in *. injection Hread as H1 H2 H3.
    repeat constructor; intros ->; cbn [readVertex] in *.
    + rewrite Hv in H1. by injection H1 as <-.
    + rewrite Hv in H2. by injection H2 as <-.
    + rewrite Hv in H3. by injection H3 as <-.
  - intros Hsome. eapply topVertex_used; [exact Hi | exact Hj | exact Hsome | exact Hm].
Qed.

Lemma generateStl_missing_height_is_zero_witness :
  let appState :=
    {| bandMap := [0; 0; 1; 5]%float;
       origCanvas := {| width := 2; height := 2 |} |} in
  let domElements :=
    {| layerHeightInput := 0.25; xSizeInput := 10; ySizeInput := 10;
       bandThicknessInput := 2; baseThicknessInput := 4;
       numBandsInput := 2 |} in
  ∃ m faces blob,
    stlMesh appState domElements 2 = Returned m ∧
    generateFaces 2 2 m = Returned faces ∧
    generateStl appState domElements = Returned blob ∧
    readIndex (topVertices m) (0 * 2 + 1)%nat = Some (2 * (0 * 2 + 1) + 1)%nat ∧
    Forall2
      (λ f t,
         Forall2
           (λ index corner,
              index = Some (2 * (0 * 2 + 1) + 1)%nat →
              corner =
                (fround (ofNat 1 * (10 / ofInt (Z.of_nat 2 - 1))),
                 fround (ofNat 0 * (10 / ofInt (Z.of_nat 2 - 1))),
                 0)%float)
           (faceCorners f) (triangleCorners t))
      faces (triangles blob) ∧
    ((2 <= 2 ∨ 2 <= 2)%nat →
     ∃ f, f ∈ faces ∧ Some (2 * (0 * 2 + 1) + 1)%nat ∈ faceCorners f).
Proof.
  intros appState domElements.
  apply (generateStl_missing_height_is_zero appState domElements 2 1 0);
    [cbn; lia | cbn; lia | vm_compute; reflexivity | vm_compute; reflexivity
    | vm_compute; reflexivity].
Defined.

(** *** One-pixel-wide rasters *)

(** C5 does not hold of the code.  On a raster one pixel wide the request
    is not rejected: the spacing is the quotient 10 / 0 = Infinity, the
    buffer is returned with its four wall triangles, and the x
    coordinates written are 0 * Infinity = NaN. *)
Lemma generateStl_one_pixel_wide_not_rejected :
  let appState :=
    {| bandMap := [0; 0]%float; origCanvas := {| width := 1; height := 2 |} |} in
  let domElements :=
    {| layerHeightInput := 0.25; xSizeInput := 10; ySizeInput := 10;
       bandThicknessInput := 2; baseThicknessInput := 4;
       numBandsInput := 2 |} in
  (xSizeInput domElements / ofInt (Z.of_nat (width (origCanvas appState)) - 1)
   = infinity)%float ∧
  ∃ blob, generateStl appState domElements = Returned blob ∧
    triangleCount blob = 4%Z ∧
    triangleCorners <$> triangles blob
      = [ [(nan, 0, 0); (nan, 0, 4 * 0.25); (nan, 10, 4 * 0.25)];
          [(nan, 0, 0); (nan, 10, 4 * 0.25); (nan, 10, 0)];
          [(nan, 0, 0); (nan, 10, 4 * 0.25); (nan, 0, 4 * 0.25)];
          [(nan, 0, 0); (nan, 10, 0); (nan, 10, 4 * 0.25)] ]%float.
Proof.
  split; [vm_compute; reflexivity|].
  eexists. split; [vm_compute; reflexivity|].
  split; vm_compute; reflexivity.
Qed.

(** *** Normals *)

(** The claim of C8 fails when a term of the cross product overflows.  On a
    2x2 raster with a physical width and a layer height of 2^600, every
    vertex coordinate is finite; the front wall triangle (0,0,0),
    (0,0,h), (dx,0,h) has the cross product (0, h*dx, 0) = (0, Infinity, 0),
    its length is Infinity, and the normal written is (0, NaN, 0). *)
Lemma generateStl_writes_nan_normal :
  let appState :=
    {| bandMap := [0; 0; 0; 0]%float;
       origCanvas := {| width := 2; height := 2 |} |} in
  let domElements :=
    {| layerHeightInput := 0x1p+600; xSizeInput := 0x1p+600; ySizeInput := 1;
       bandThicknessInput := 1; baseThicknessInput := 1;
       numBandsInput := 1 |} in
  ∃ m faces blob t,
    stlMesh appState domElements 1 = Returned m ∧
    forallb finiteVertex (vertices m) = true ∧
    generateFaces 2 2 m = Returned faces ∧
    faces !! 4%nat = Some (Some 0, Some 1, Some 3)%nat ∧
    vertices m !! 0%nat = Some (0, 0, 0)%float ∧
    vertices m !! 1%nat = Some (0, 0, 0x1p+600)%float ∧
    vertices m !! 3%nat = Some (0x1p+600, 0, 0x1p+600)%float ∧
    crossProduct (0, 0, 0)%float (0, 0, 0x1p+600)%float
      (0x1p+600, 0, 0x1p+600)%float = (0, infinity, 0)%float ∧
    generateStl appState domElements = Returned blob ∧
    triangles blob !! 4%nat = Some t ∧
    normal t = (0, nan, 0)%float.
Proof.
  eexists _, _, _, _.
  repeat (split; [vm_compute; reflexivity|]).
  vm_compute; reflexivity.
Qed.

(** In a mesh all of whose vertices are below 2^250 in magnitude, every
    normal written is finite. *)
Lemma bounded_normals_finite (vs : list vertex) (faces : list face)
    (ts : list Triangle) :
  Forall (λ v, boundedVertex v = true) vs →
  Forall2
    (λ f t, ∃ v1 v2 v3,
       readVertex vs <$> faceCorners f = [Some v1; Some v2; Some v3] ∧
       (boundedVertex v1 = true → boundedVertex v2 = true →
        boundedVertex v3 = true → finiteVertex (normal t) = true) ∧
       (zeroVertex (crossProduct v1 v2 v3) →
        normalLength (crossProduct v1 v2 v3) = 1%float ∧
        normal t = crossProduct v1 v2 v3))
    faces ts →
  Forall (λ t, finiteVertex (normal t) = true) ts.
Proof.
  intros Hvs.
  assert (Hin : ∀ ix v, readVertex vs ix = Some v → boundedVertex v = true).
  { intros [k|] v Hv; [|done]. cbn in Hv.
    eapply (proj1 (Forall_forall _ _) Hvs), list_elem_of_lookup_2, Hv. }
  induction 1 as [|[[i1 i2] i3] t faces ts (v1 & v2 & v3 & Hread & Hfin & _) _ IH];
    constructor; [|done].
  cbn [faceCorners fmap list_fmap] in Hread. injection Hread as H1 H2 H3.
  apply Hfin; eauto.
Qed.

(** C8, with the magnitude bound it needs.  [generateStl] returns, and
    every record it writes comes from three vertices of the mesh.  When
    the coordinates of the three are below 2^250 in magnitude, the three
    components of the normal written are finite: neither NaN nor an
    infinity.  When the cross product of the edge vectors is zero in all
    three components, the length used is the nominal 1 and the normal
    written is that zero vector. *)
Theorem generateStl_normal_finite (appState : AppState)
    (domElements : DomElements) (n : nat) :
  (1 <= width (origCanvas appState))%nat →
  (1 <= height (origCanvas appState))%nat →
  arrayLength (numBandsInput domElements) = Some n →
  (4 * Z.of_nat (width (origCanvas appState) * height (origCanvas appState)) - 4
   < 2 ^ 32)%Z →
  ∃ m faces blob,
    stlMesh appState domElements n = Returned m ∧
    generateFaces (width (origCanvas appState)) (height (origCanvas appState)) m
      = Returned faces ∧
    generateStl appState domElements = Returned blob ∧
    Forall2
      (λ f t, ∃ v1 v2 v3,
         readVertex (vertices m) <$> faceCorners f = [Some v1; Some v2; Some v3] ∧
         (boundedVertex v1 = true → boundedVertex v2 = true →
          boundedVertex v3 = true → finiteVertex (normal t) = true) ∧
         (zeroVertex (crossProduct v1 v2 v3) →
          normalLength (crossProduct v1 v2 v3) = 1%float ∧
          normal t = crossProduct v1 v2 v3))
      faces (triangles blob).
Proof.
  intros Hw Hh Hn Hsize.
  destruct (generateStl_records appState domElements n)
    as (m & blob & Hmesh & _ & Hfaces & Hrun & Hall & _); [done..|].
  exists m, (stlFaces (width (origCanvas appState)) (height (origCanvas appState)) m),
    blob.
  split; [done|]. split; [done|]. split; [done|].
  eapply Forall2_impl; [exact Hall|].
  intros f t Hwrite.
  destruct (writeFace_returned _ _ _ Hwrite) as (v1 & v2 & v3 & Hread & _ & ->).
  exists v1, v2, v3. split; [done|]. split.
  - apply normalizedNormal_finite.
  - intros Hzero. split; [by apply normalLength_zero | by apply normalizedNormal_zero].
Qed.

Lemma generateStl_normal_finite_witness :
  let appState :=
    {| bandMap := [0; 0; 1; 1]%float;
       origCanvas := {| width := 2; height := 2 |} |} in
  let domElements :=
    {| layerHeightInput := 0.25; xSizeInput := 10; ySizeInput := 10;
       bandThicknessInput := 2; baseThicknessInput := 4;
       numBandsInput := 2 |} in
  ∃ blob, generateStl appState domElements = Returned blob ∧
    length (triangles blob) = 12%nat ∧
    Forall (λ t, finiteVertex (normal t) = true) (triangles blob).
Proof.
  intros appState domElements.
  destruct (generateStl_normal_finite appState domElements 2)
    as (m & faces & blob & Hm & Hf & Hb & Hall);
    [cbn; lia | cbn; lia | vm_compute; reflexivity | vm_compute; reflexivity|].
  exists blob. split; [exact Hb|].
  vm_compute in Hm. injection Hm as <-.
  vm_compute in Hf. injection Hf as <-.
  split; [by rewrite <- (Forall2_length _ _ _ Hall)|].
  eapply bounded_normals_finite; [|exact Hall].
  cbn [vertices].
  repeat (apply Forall_cons; split; [vm_compute; reflexivity|]).
  by apply Forall_nil.
Defined.

End mesh.

(** ** Sorting *)

Lemma insertSorted_perm {A : Type} (before : A → A → bool) (x : A) (l : list A) :
  insertSorted before x l ≡ₚ x :: l.
Proof.
  induction l as [|y l IH]; cbn; [done|].
  destruct (before y x); [done|]. rewrite IH. apply Permutation_swap.
Qed.

Lemma stableSort_perm {A : Type} (before : A → A → bool) (l : list A) :
  stableSort before l ≡ₚ l.
Proof.
  unfold stableSort.
  assert (∀ acc, foldl (λ sorted x, insertSorted before x sorted) acc l ≡ₚ l ++ acc)
    as Hgen; [|by rewrite Hgen, app_nil_r].
  induction l as [|x l IH]; intros acc; cbn; [done|].
  rewrite IH, insertSorted_perm. by rewrite Permutation_middle.
Qed.

(** ** Filament matching *)

Lemma NoDup_below_length (l : list nat) (k : nat) :
  NoDup l → (∀ x, x ∈ l → (x < k)%nat) → (length l <= k)%nat.
Proof.
  intros Hnd Hlt. rewrite <- (length_seq k 0).
  apply submseteq_length, NoDup_submseteq; [done|].
  intros x Hx. apply elem_of_seq. specialize (Hlt x Hx). lia.
Qed.

Lemma covers_below_length (l : list nat) (k : nat) :
  (∀ x, (x < k)%nat → x ∈ l) → (k <= length l)%nat.
Proof.
  intros Hall. rewrite <- (length_seq k 0).
  apply submseteq_length, NoDup_submseteq; [apply NoDup_seq|].
  intros x Hx%elem_of_seq. apply Hall. lia.
Qed.

Lemma pairs_snd_inj (pairs : list (nat * nat)) (s1 s2 f : nat) :
  NoDup pairs.*2 → (s1, f) ∈ pairs → (s2, f) ∈ pairs → s1 = s2.
Proof.
  induction pairs as [|[s0 f0] pairs IH]; cbn; intros Hnd H1 H2.
  - by apply elem_of_nil in H1.
  - apply NoDup_cons in Hnd as [Hnotin Hnd].
    apply elem_of_cons in H1 as [H1 | H1], H2 as [H2 | H2]; simplify_eq.
    + done.
    + exfalso. apply Hnotin. apply list_elem_of_fmap. by exists (s2, f0).
    + exfalso. apply Hnotin. apply list_elem_of_fmap. by exists (s1, f0).
    + by apply IH.
Qed.

Section fillPass.
Context (colors : list string).

Lemma fillUnmatched_noop (l : list nat) (matched : list (option string))
    (used : gset nat) :
  (∀ i, i ∈ l → falsy (mjoin (matched !! i)) = false) →
  foldl (fillUnmatched colors) (matched, used) l = (matched, used).
Proof.
  induction l as [|i l IH]; intros Hall; cbn [foldl]; [done|].
  unfold fillUnmatched at 2. rewrite (Hall i) by left.
  apply IH. intros j Hj. apply Hall. by right.
Qed.

Lemma firstUnused_None (used : gset nat) :
  (∀ j, (j < length colors)%nat → j ∈ used) →
  firstUnused (length colors) used = None.
Proof.
  intros Hall. unfold firstUnused. apply head_None.
  destruct (filter _ _) as [|j rest] eqn:Hf; [done|]. exfalso.
  assert (Hj : j ∈ filter (λ j, j ∉ used) (seq 0 (length colors)))
    by (rewrite Hf; left).
  apply list_elem_of_filter in Hj as [Hnot Hj%elem_of_seq]. apply Hnot, Hall. lia.
Qed.

Lemma fillUnmatched_exhausted (l : list nat) (matched : list (option string))
    (used : gset nat) :
  firstUnused (length colors) used = None →
  foldl (fillUnmatched colors) (matched, used) l
  = (foldl (fillExhausted colors) matched l, used).
Proof.
  intros Hnone. revert matched.
  induction l as [|i l IH]; intros matched; cbn [foldl]; [done|].
  rewrite <- IH. f_equal.
  unfold fillUnmatched, fillExhausted. rewrite Hnone.
  by destruct (falsy (mjoin (matched !! i))).
Qed.

Lemma fillExhausted_length (l : list nat) (matched : list (option string)) :
  length (foldl (fillExhausted colors) matched l) = length matched.
Proof.
  revert matched. induction l as [|i l IH]; intros matched; cbn [foldl]; [done|].
  rewrite IH. unfold fillExhausted. destruct (falsy _); [|done].
  by rewrite length_insert.
Qed.

Lemma fillExhausted_lookup (l : list nat) (matched : list (option string))
    (i : nat) :
  NoDup l → i ∈ l → (i < length matched)%nat →
  foldl (fillExhausted colors) matched l !! i
  = if falsy (mjoin (matched !! i)) then Some (colors !! 0%nat)
    else matched !! i.
Proof.
  assert (Hother : ∀ l matched,
            i ∉ l → foldl (fillExhausted colors) matched l !! i = matched !! i).
  { clear l matched. induction l as [|a l IH]; intros matched Hnotin; [done|].
    apply not_elem_of_cons in Hnotin as [Hne Hnotin]. cbn [foldl].
    rewrite IH by done. unfold fillExhausted. destruct (falsy _); [|done].
    by rewrite list_lookup_insert_ne. }
  revert matched. induction l as [|a l IH]; intros matched Hnd Hin Hlt.
  - by apply elem_of_nil in Hin.
  - apply NoDup_cons in Hnd as [Hnotin Hnd]. cbn [foldl].
    destruct (decide (i = a)) as [-> | Hne].
    + rewrite Hother by done. unfold fillExhausted.
      destruct (falsy _); [|done]. by rewrite list_lookup_insert_eq.
    + apply elem_of_cons in Hin as [? | Hin]; [done|].
      assert (Hsame : fillExhausted colors matched a !! i = matched !! i).
      { unfold fillExhausted. destruct (falsy _); [|done].
        by rewrite list_lookup_insert_ne. }
      rewrite IH, Hsame; [done | done | done |].
      unfold fillExhausted. destruct (falsy _); [|done].
      by rewrite length_insert.
Qed.

End fillPass.

Section matcher.
Context (suggestedPalette colors : list string).

Local Abbreviation m := (length suggestedPalette).

Lemma assignMatch_consistent (st : Matching) (pairs : list (nat * nat)) (mt : Match) :
  wfMatch m colors mt →
  consistentMatching m colors st pairs →
  ∃ pairs', consistentMatching m colors (assignMatch st mt) pairs' ∧
    (∀ p, p ∈ pairs → p ∈ pairs') ∧
    (suggestedIndex mt ∈ pairs'.*1 ∨ filamentIndex mt ∈ pairs'.*2).
Proof.
  intros (Hsi & Hfi & Hcol) Hst.
  pose proof Hst as (Hlen & Hnd1 & Hnd2 & HusedS & HusedF & Hpairs & Hfree).
  unfold assignMatch.
  destruct (bool_decide_reflect (suggestedIndex mt ∈ usedSuggestions st)) as [Hs | Hs].
  { exists pairs. split; [done|]. split; [done|]. left. by apply HusedS. }
  destruct (bool_decide_reflect (filamentIndex mt ∈ usedFilaments st)) as [Hf | Hf].
  { exists pairs. split; [done|]. split; [done|]. right. by apply HusedF. }
  cbn [orb].
  assert (Hs' : suggestedIndex mt ∉ pairs.*1) by (by rewrite <- HusedS).
  assert (Hf' : filamentIndex mt ∉ pairs.*2) by (by rewrite <- HusedF).
  exists ((suggestedIndex mt, filamentIndex mt) :: pairs).
  split; [|split; [intros p Hp; by right | left; cbn; by left]].
  unfold consistentMatching. cbn [matchedPalette usedFilaments usedSuggestions fmap list_fmap fst snd].
  rewrite length_insert. split; [done|].
  split; [by apply NoDup_cons|]. split; [by apply NoDup_cons|].
  split; [|split; [|split]].
  - intros si. rewrite elem_of_union, elem_of_singleton, elem_of_cons, HusedS. done.
  - intros fi. rewrite elem_of_union, elem_of_singleton, elem_of_cons, HusedF. done.
  - intros si fi [Heq | Hin]%elem_of_cons.
    + simplify_eq. split; [done|]. split; [done|].
      rewrite list_lookup_insert_eq by lia. by rewrite Hcol.
    + destruct (Hpairs si fi Hin) as (? & ? & Hcell). split; [done|]. split; [done|].
      rewrite list_lookup_insert_ne; [done|].
      intros Heq. apply Hs'. rewrite Heq. apply list_elem_of_fmap. by exists (si, fi).
  - intros si Hlt [Hne Hnotin]%not_elem_of_cons.
    rewrite list_lookup_insert_ne by done. by apply Hfree.
Qed.

Lemma greedy_consistent (l : list Match) (st : Matching) (pairs : list (nat * nat)) :
  Forall (wfMatch m colors) l →
  consistentMatching m colors st pairs →
  ∃ pairs', consistentMatching m colors (foldl assignMatch st l) pairs' ∧
    (∀ p, p ∈ pairs → p ∈ pairs') ∧
    Forall (λ mt, suggestedIndex mt ∈ pairs'.*1 ∨ filamentIndex mt ∈ pairs'.*2) l.
Proof.
  intros Hwf. revert st pairs.
  induction Hwf as [|mt l Hmt _ IH]; intros st pairs Hst; cbn [foldl].
  - exists pairs. split; [done|]. split; [done|]. constructor.
  - destruct (assignMatch_consistent st pairs mt Hmt Hst) as (pairs1 & Hst1 & Hincl1 & Hdone).
    destruct (IH _ _ Hst1) as (pairs' & Hst' & Hincl' & Hall).
    exists pairs'. split; [done|]. split; [by auto|].
    constructor; [|done].
    destruct Hdone as [[[s f] [-> Hin]]%list_elem_of_fmap | [[s f] [-> Hin]]%list_elem_of_fmap].
    + left. apply list_elem_of_fmap. exists (s, f). auto.
    + right. apply list_elem_of_fmap. exists (s, f). auto.
Qed.

Lemma allMatchesOf_wf :
  Forall (wfMatch m colors) (allMatchesOf suggestedPalette colors).
Proof.
  apply Forall_forall. intros mt Hmt. unfold allMatchesOf in Hmt.
  apply list_elem_of_join in Hmt as (row & Hmt & Hrow).
  apply elem_of_lookup_imap in Hrow as (si & sc & -> & Hsi).
  apply elem_of_lookup_imap in Hmt as (fi & frgb & -> & Hfi).
  apply lookup_lt_Some in Hsi, Hfi. rewrite length_fmap in Hfi.
  by repeat split.
Qed.

Lemma allMatchesOf_complete (si fi : nat) :
  (si < m)%nat → (fi < length colors)%nat →
  ∃ mt, mt ∈ allMatchesOf suggestedPalette colors ∧
        suggestedIndex mt = si ∧ filamentIndex mt = fi.
Proof.
  intros Hsi Hfi.
  destruct (lookup_lt_is_Some_2 suggestedPalette si Hsi) as [sc Hsc].
  destruct (lookup_lt_is_Some_2 (hexToRgb <$> colors) fi) as [frgb Hfrgb];
    [by rewrite length_fmap|].
  exists {| suggestedIndex := si; filamentIndex := fi; suggestedColor := sc;
            filamentColor := colors !! fi;
            distance := colorDistance (hexToRgb sc) frgb |}.
  split; [|done].
  unfold allMatchesOf. apply list_elem_of_join.
  exists (imap (λ filamentIndex filamentRgb,
                  {| suggestedIndex := si; filamentIndex := filamentIndex;
                     suggestedColor := sc;
                     filamentColor := colors !! filamentIndex;
                     distance := colorDistance (hexToRgb sc) filamentRgb |})
            (hexToRgb <$> colors)).
  split.
  - apply elem_of_lookup_imap. by exists fi, frgb.
  - apply elem_of_lookup_imap. by exists si, sc.
Qed.

(** After the greedy pass over the sorted cross product, no pair of a
    free palette index and a free inventory index is left. *)
Lemma greedy_maximal (before : Match → Match → bool) :
  ∃ pairs,
    consistentMatching m colors
      (foldl assignMatch
         {| matchedPalette := replicate m None;
            usedFilaments := ∅; usedSuggestions := ∅ |}
         (stableSort before (allMatchesOf suggestedPalette colors))) pairs ∧
    ∀ si fi, (si < m)%nat → (fi < length colors)%nat →
             si ∈ pairs.*1 ∨ fi ∈ pairs.*2.
Proof.
  destruct (greedy_consistent
              (stableSort before (allMatchesOf suggestedPalette colors))
              {| matchedPalette := replicate m None;
                 usedFilaments := ∅; usedSuggestions := ∅ |} [])
    as (pairs & Hst & _ & Hall).
  - rewrite stableSort_perm. apply allMatchesOf_wf.
  - unfold consistentMatching. cbn. rewrite length_replicate.
    split; [done|]. split; [constructor|]. split; [constructor|].
    split; [intros; by rewrite elem_of_empty, elem_of_nil|].
    split; [intros; by rewrite elem_of_empty, elem_of_nil|].
    split; [by intros ?? ?%elem_of_nil|].
    intros si Hsi _. by apply lookup_replicate_2.
  - exists pairs. split; [done|]. intros si fi Hsi Hfi.
    destruct (allMatchesOf_complete si fi Hsi Hfi) as (mt & Hmt & <- & <-).
    rewrite Forall_forall in Hall. apply Hall.
    by rewrite stableSort_perm.
Qed.

(** A palette cell after the greedy pass: matched to the colour of one
    inventory index, or still a hole. *)
Lemma greedy_cell (st : Matching) (pairs : list (nat * nat)) (si : nat) :
  EmptyString ∉ colors →
  consistentMatching m colors st pairs → (si < m)%nat →
  (∃ fi c, (si, fi) ∈ pairs ∧ colors !! fi = Some c ∧
           matchedPalette st !! si = Some (Some c) ∧ falsy (Some c) = false)
  ∨ ((si ∉ pairs.*1) ∧ matchedPalette st !! si = Some None).
Proof.
  intros Hnonempty (_ & _ & _ & _ & _ & Hpairs & Hfree) Hsi.
  destruct (decide (si ∈ pairs.*1)) as [Hin | Hnotin]; [left | right; auto].
  apply list_elem_of_fmap in Hin as ([s fi] & -> & Hin). cbn.
  destruct (Hpairs s fi Hin) as (_ & Hfi & Hcell).
  destruct (lookup_lt_is_Some_2 colors fi Hfi) as [c Hc].
  exists fi, c. rewrite Hcell, Hc. repeat split; [done|].
  cbn. apply bool_decide_eq_false. intros ->.
  apply Hnonempty. by apply list_elem_of_lookup_2 in Hc.
Qed.

(** Counting the committed pairs: with at least as many inventory entries
    as palette entries no palette index stays free, with fewer no
    inventory index stays free. *)
Lemma greedy_saturates (st : Matching) (pairs : list (nat * nat)) :
  consistentMatching m colors st pairs →
  (∀ si fi, (si < m)%nat → (fi < length colors)%nat →
            si ∈ pairs.*1 ∨ fi ∈ pairs.*2) →
  ((m <= length colors)%nat → ∀ si, (si < m)%nat → si ∈ pairs.*1) ∧
  ((length colors < m)%nat → ∀ fi, (fi < length colors)%nat → fi ∈ pairs.*2).
Proof.
  intros (_ & Hnd1 & Hnd2 & _ & _ & Hpairs & _) Hmax.
  assert (Hlt1 : ∀ si, si ∈ pairs.*1 → (si < m)%nat).
  { intros si ([s f] & -> & Hin)%list_elem_of_fmap. by destruct (Hpairs s f Hin). }
  assert (Hlt2 : ∀ fi, fi ∈ pairs.*2 → (fi < length colors)%nat).
  { intros fi ([s f] & -> & Hin)%list_elem_of_fmap.
    by destruct (Hpairs s f Hin) as (_ & ? & _). }
  assert (Hlen : length pairs.*1 = length pairs.*2) by (by rewrite !length_fmap).
  split.
  - intros Hle si Hsi. destruct (decide (si ∈ pairs.*1)) as [|Hfree]; [done|].
    exfalso.
    assert (length colors <= length pairs.*2)%nat.
    { apply covers_below_length. intros fi Hfi.
      by destruct (Hmax si fi Hsi Hfi). }
    assert (length (si :: pairs.*1) <= m)%nat.
    { apply NoDup_below_length; [by apply NoDup_cons|].
      intros x [-> | Hx]%elem_of_cons; auto. }
    cbn in *. lia.
  - intros Hlt fi Hfi. destruct (decide (fi ∈ pairs.*2)) as [|Hfree]; [done|].
    exfalso.
    assert (m <= length pairs.*1)%nat.
    { apply covers_below_length. intros si Hsi.
      by destruct (Hmax si fi Hsi Hfi). }
    assert (length (fi :: pairs.*2) <= length colors)%nat.
    { apply NoDup_below_length; [by apply NoDup_cons|].
      intros x [-> | Hx]%elem_of_cons; auto. }
    cbn in *. lia.
Qed.

End matcher.

(** The claim of C4 fails on an inventory that lists one colour twice:
    two entries, two palette colours, and the colour is returned twice. *)
Lemma matchToPalette_repeats_duplicated_color :
  let inventory :=
    [ {| filamentId := "1"; filamentName := "Red PLA"; filamentType := "PLA";
         color := "#ff0000" |};
      {| filamentId := "2"; filamentName := "Red PETG"; filamentType := "PETG";
         color := "#ff0000" |} ] in
  let palette := ["#000000"; "#ffffff"]%string in
  (length palette <= length inventory)%nat ∧
  matchToPalette palette (Some inventory) = [Some "#ff0000"; Some "#ff0000"]%string ∧
  ¬ NoDup (matchToPalette palette (Some inventory)).
Proof.
  split; [cbn; lia|]. split; [vm_compute; reflexivity|].
  intros Hnd. vm_compute in Hnd. apply NoDup_cons in Hnd as [Hnotin _].
  apply Hnotin. left.
Qed.

(** C4, as the code has it.  The matcher keeps inventory entries apart by
    index.  For an inventory of pairwise distinct, non-empty colours:
    every returned cell is an inventory colour; with at least as many
    inventory entries as palette entries no colour is returned twice;
    with fewer, every inventory colour is returned, and a colour that is
    returned twice is the colour of inventory index 0. *)
Theorem matchToPalette_distinct (suggestedPalette : list string)
    (myFilaments : list Filament) :
  myFilaments ≠ [] →
  NoDup (color <$> myFilaments) →
  EmptyString ∉ color <$> myFilaments →
  length (matchToPalette suggestedPalette (Some myFilaments))
    = length suggestedPalette ∧
  (∀ cell, cell ∈ matchToPalette suggestedPalette (Some myFilaments) →
     ∃ c, cell = Some c ∧ c ∈ color <$> myFilaments) ∧
  ((length suggestedPalette <= length myFilaments)%nat →
     NoDup (matchToPalette suggestedPalette (Some myFilaments))) ∧
  ((length myFilaments < length suggestedPalette)%nat →
     (∀ c, c ∈ color <$> myFilaments →
        Some c ∈ matchToPalette suggestedPalette (Some myFilaments)) ∧
     (∀ i j cell, i ≠ j →
        matchToPalette suggestedPalette (Some myFilaments) !! i = Some cell →
        matchToPalette suggestedPalette (Some myFilaments) !! j = Some cell →
        cell = (color <$> myFilaments) !! 0%nat)).
Proof.
  intros Hne Hnd Hnonempty.
  unfold matchToPalette. case_decide as Hlen; [by destruct myFilaments|].
  clear Hlen.
  set (colors := color <$> myFilaments) in *.
  set (m := length suggestedPalette).
  assert (Hn : length colors = length myFilaments) by apply length_fmap.
  rewrite <- Hn. clearbody colors.
  assert (Hpos : (0 < length colors)%nat).
  { rewrite Hn. destruct myFilaments; [done | cbn; lia]. }
  destruct (lookup_lt_is_Some_2 colors 0 Hpos) as [c0 Hc0].
  destruct (greedy_maximal suggestedPalette colors
              (λ a b, distance b - distance a <? 0)) as (pairs & Hst & Hmax).
  set (st := foldl assignMatch _ _) in *.
  destruct (greedy_saturates _ _ st pairs Hst Hmax) as [Hfull Hexhausted].
  pose proof Hst as (Hlen & _ & Hnd2 & _ & HusedF & Hpairs & _).
  fold m in Hlen, Hfull, Hexhausted.
  (* Every cell of the result is the greedy cell, or colour 0 where the
     greedy cell is falsy. *)
  set (out := (foldl (fillUnmatched colors) _ _).1).
  assert (Hout : length out = m ∧
            ∀ i, (i < m)%nat →
              out !! i = if falsy (mjoin (matchedPalette st !! i))
                         then Some (colors !! 0%nat)
                         else matchedPalette st !! i).
  { subst out. destruct (decide (m <= length colors)%nat) as [Hle | Hgt].
    - rewrite fillUnmatched_noop.
      + cbn [fst]. split; [done|]. intros i Hi.
        destruct (greedy_cell _ _ st pairs i Hnonempty Hst Hi)
          as [(fi & c & _ & _ & Hm & Hf) | [Hfree _]].
        * rewrite Hm. change (mjoin (Some (Some c))) with (Some c).
          by rewrite Hf.
        * destruct Hfree. by apply Hfull.
      + intros i Hi%elem_of_seq.
        destruct (greedy_cell _ _ st pairs i Hnonempty Hst)
          as [(fi & c & _ & _ & Hm & Hf) | [Hfree _]]; [lia | |].
        * rewrite Hm. exact Hf.
        * destruct Hfree. apply Hfull; lia.
    - rewrite fillUnmatched_exhausted.
      + cbn [fst]. split; [by rewrite fillExhausted_length|].
        intros i Hi. apply fillExhausted_lookup;
          [apply NoDup_seq | apply elem_of_seq; lia | lia].
      + apply firstUnused_None. intros j Hj. apply (proj2 (HusedF j)).
        apply Hexhausted; lia. }
  clearbody out. destruct Hout as [Hlenout Hout].
  (* The cells, classified. *)
  assert (Hcell : ∀ i cell, out !! i = Some cell →
            (∃ fi c, (i, fi) ∈ pairs ∧ colors !! fi = Some c ∧ cell = Some c)
            ∨ ((i ∉ pairs.*1) ∧ cell = Some c0)).
  { intros i cell Hi. pose proof (lookup_lt_Some _ _ _ Hi) as Hlt.
    rewrite Hlenout in Hlt. rewrite Hout in Hi by done.
    destruct (greedy_cell _ _ st pairs i Hnonempty Hst Hlt)
      as [(fi & c & Hin & Hc & Hm & Hf) | [Hfree Hm]]; rewrite Hm in Hi.
    - change (mjoin (Some (Some c))) with (Some c) in Hi.
      rewrite Hf in Hi. left. exists fi, c. by simplify_eq.
    - right. split; [done|]. cbn in Hi. rewrite Hc0 in Hi. by simplify_eq. }
  split; [done|]. split; [|split].
  - intros cell [i Hi]%list_elem_of_lookup.
    destruct (Hcell i cell Hi) as [(fi & c & _ & Hc & ->) | [_ ->]].
    + exists c. split; [done|]. by apply list_elem_of_lookup_2 in Hc.
    + exists c0. split; [done|]. by apply list_elem_of_lookup_2 in Hc0.
  - intros Hle. apply NoDup_alt. intros i j cell Hi Hj.
    pose proof (lookup_lt_Some _ _ _ Hi) as Hlti.
    pose proof (lookup_lt_Some _ _ _ Hj) as Hltj. rewrite Hlenout in Hlti, Hltj.
    destruct (Hcell i cell Hi) as [(fi & c & Hini & Hci & ->) | [Hfree _]];
      [|destruct Hfree; by apply Hfull].
    destruct (Hcell j _ Hj) as [(fj & c' & Hinj & Hcj & Heq) | [Hfree _]];
      [|destruct Hfree; by apply Hfull].
    simplify_eq.
    assert (fi = fj) as -> by (by eapply (NoDup_lookup colors)).
    by eapply pairs_snd_inj.
  - intros Hlt. split.
    + intros c [fi Hfi]%list_elem_of_lookup.
      pose proof (lookup_lt_Some _ _ _ Hfi) as Hltf.
      assert (Hin : fi ∈ pairs.*2) by (apply Hexhausted; lia).
      apply list_elem_of_fmap in Hin as ([si f] & -> & Hin). cbn in *.
      destruct (Hpairs si f Hin) as (Hsi & _ & Hm).
      apply list_elem_of_lookup. exists si. rewrite Hout by done.
      rewrite Hm, Hfi. change (mjoin (Some (Some c))) with (Some c).
      unfold falsy. rewrite bool_decide_eq_false_2; [done|].
      intros ->. apply Hnonempty. by apply list_elem_of_lookup_2 in Hfi.
    + intros i j cell Hij Hi Hj. rewrite Hc0.
      destruct (Hcell i cell Hi) as [(fi & c & Hini & Hci & ->) | [_ ->]]; [|done].
      destruct (Hcell j _ Hj) as [(fj & c' & Hinj & Hcj & Heq) | [_ Heq]];
        [|by simplify_eq].
      simplify_eq.
      assert (fi = fj) as -> by (by eapply (NoDup_lookup colors)).
      destruct Hij. by eapply pairs_snd_inj.
Qed.

Lemma matchToPalette_distinct_witness :
  let inventory :=
    [ {| filamentId := "1"; filamentName := "Red"; filamentType := "PLA";
         color := "#fe0000" |};
      {| filamentId := "2"; filamentName := "Charcoal"; filamentType := "PLA";
         color := "#111111" |} ] in
  let palette := ["#000000"; "#ffffff"; "#ff0000"]%string in
  matchToPalette palette (Some inventory)
    = [Some "#111111"; Some "#fe0000"; Some "#fe0000"]%string ∧
  length (matchToPalette palette (Some inventory)) = length palette ∧
  (∀ cell, cell ∈ matchToPalette palette (Some inventory) →
     ∃ c, cell = Some c ∧ c ∈ color <$> inventory) ∧
  ((length palette <= length inventory)%nat →
     NoDup (matchToPalette palette (Some inventory))) ∧
  ((length inventory < length palette)%nat →
     (∀ c, c ∈ color <$> inventory →
        Some c ∈ matchToPalette palette (Some inventory)) ∧
     (∀ i j cell, i ≠ j →
        matchToPalette palette (Some inventory) !! i = Some cell →
        matchToPalette palette (Some inventory) !! j = Some cell →
        cell = (color <$> inventory) !! 0%nat)).
Proof.
  intros inventory palette. split; [vm_compute; reflexivity|].
  apply (matchToPalette_distinct palette inventory).
  - discriminate.
  - apply (bool_decide_unpack _). vm_compute. exact I.
  - apply (bool_decide_unpack _). vm_compute. exact I.
Defined.

(** ** Farthest-point selection *)

Lemma selectLoop_full (turns numColors : nat) (finalPalette remaining : list CandidateLab) :
  (numColors <= length finalPalette)%nat →
  selectLoop turns numColors finalPalette remaining = finalPalette.
Proof.
  intros Hfull. destruct turns as [|turns]; [done|]. cbn [selectLoop].
  rewrite bool_decide_eq_false_2 by lia. done.
Qed.

(** More turns than remaining candidates change nothing: the loop has
    stopped by then. *)
Lemma selectLoop_turns (turns numColors : nat) (finalPalette remaining : list CandidateLab) :
  (length remaining <= turns)%nat →
  selectLoop turns numColors finalPalette remaining
  = selectLoop (length remaining) numColors finalPalette remaining.
Proof.
  revert finalPalette remaining.
  induction turns as [|turns IH]; intros finalPalette remaining Hturns.
  - by destruct remaining; [|cbn in Hturns; lia].
  - destruct remaining as [|c0 remaining].
    { cbn [selectLoop length]. by rewrite andb_false_r. }
    cbn [selectLoop length].
    destruct (bool_decide (length finalPalette < numColors)%nat); [|done].
    rewrite bool_decide_eq_true_2 by (cbn; lia). cbn [andb].
    destruct ((c0 :: remaining) !! bestCandidate finalPalette (c0 :: remaining))
      as [c|] eqn:Hc; [|done].
    assert (length (delete (bestCandidate finalPalette (c0 :: remaining))
                      (c0 :: remaining)) = length remaining) as Hlen.
    { rewrite length_delete by (by eexists). cbn. lia. }
    rewrite IH by (rewrite Hlen; cbn in Hturns; lia).
    by rewrite Hlen.
Qed.

Lemma selectLoop_incremental (turns k : nat) (finalPalette remaining : list CandidateLab) :
  (length finalPalette <= k)%nat →
  selectLoop turns k finalPalette remaining
  = take k (selectLoop turns (S k) finalPalette remaining).
Proof.
  revert finalPalette remaining.
  induction turns as [|turns IH]; intros finalPalette remaining Hlen.
  - cbn. by rewrite take_ge.
  - cbn [selectLoop].
    rewrite (bool_decide_eq_true_2 (length finalPalette < S k)%nat) by lia.
    destruct (bool_decide_reflect (0 < length remaining)%nat) as [Hrem | Hrem];
      [|by rewrite andb_false_r, take_ge].
    rewrite !andb_true_r. cbn [andb].
    destruct (remaining !! bestCandidate finalPalette remaining) as [c|];
      [|by destruct (bool_decide _); rewrite take_ge].
    destruct (bool_decide_reflect (length finalPalette < k)%nat) as [Hlt | Hge].
    + apply IH. rewrite length_app. cbn. lia.
    + rewrite selectLoop_full by (rewrite length_app; cbn; lia).
      rewrite take_app_le by lia. by rewrite take_ge by lia.
Qed.

(** C7.  Over the same candidate pool (whose first element is the seed),
    the colours chosen for a palette of size k >= 1 are exactly the first
    k choices made for a palette of size k + 1. *)
Theorem farthestPointSelection_incremental (candidatesLab : list CandidateLab)
    (k : nat) :
  (1 <= k)%nat →
  farthestPointSelection candidatesLab k
  = take k (farthestPointSelection candidatesLab (S k)).
Proof.
  intros Hk. destruct candidatesLab as [|first remaining]; cbn.
  - by rewrite take_nil.
  - by apply selectLoop_incremental.
Qed.

Lemma farthestPointSelection_incremental_witness :
  let mk c l0 a0 b0 :=
    {| candidate := {| candidateColor := c; impactScore := 1; pixelCount := 1 |};
       lab := {| lab_l := ofInt l0; lab_a := ofInt a0; lab_b := ofInt b0 |} |} in
  let pool :=
    [mk (RGB 0 0 0) 0 0 0; mk (RGB 32 32 32) 12 0 0; mk (RGB 255 255 255) 100 0 0;
     mk (RGB 255 0 0) 53 80 67] in
  farthestPointSelection pool 2 = [mk (RGB 0 0 0) 0 0 0; mk (RGB 255 0 0) 53 80 67] ∧
  farthestPointSelection pool 2 = take 2 (farthestPointSelection pool 3).
Proof.
  intros mk pool. split; [vm_compute; reflexivity|].
  apply (farthestPointSelection_incremental pool 2). lia.
Defined.

(** ** Palette uniqueness *)

Lemma quantizeChannel_byte (v : Z) : 0 <= quantizeChannel v <= 255.
Proof. unfold quantizeChannel, clampByte. lia. Qed.

Lemma pixels_preprocess_bytes (imageData : list Z) :
  Forall byteColor (pixels (preprocessImageData imageData)).
Proof.
  assert (∀ n (d : list Z), (length d <= n)%nat →
            Forall byteColor (pixels (preprocessImageData d))) as Hall;
    [|by apply (Hall (length imageData))].
  induction n as [|n IH]; intros d Hd.
  - destruct d; [constructor | cbn in Hd; lia].
  - destruct d as [|r0 [|g0 [|b0 [|a0 rest]]]]; cbn; constructor.
    + repeat split; apply quantizeChannel_byte.
    + apply IH. cbn in Hd. lia.
Qed.

Lemma histogramAdd_elem (key : rgb) (score : float) (histogram : list Candidate)
    (c : rgb) :
  c ∈ candidateColor <$> histogramAdd key score histogram
  ↔ c = key ∨ c ∈ candidateColor <$> histogram.
Proof.
  induction histogram as [|c0 rest IH]; cbn.
  - rewrite list_elem_of_singleton, elem_of_nil. tauto.
  - case_decide as Heq; cbn; rewrite !elem_of_cons.
    + split; [tauto|]. intros [-> | [-> | ?]]; auto.
    + rewrite IH. tauto.
Qed.

Lemma histogramAdd_NoDup (key : rgb) (score : float) (histogram : list Candidate) :
  NoDup (candidateColor <$> histogram) →
  NoDup (candidateColor <$> histogramAdd key score histogram).
Proof.
  induction histogram as [|c0 rest IH]; cbn; intros Hnd.
  - apply NoDup_singleton.
  - apply NoDup_cons in Hnd as [Hnotin Hnd].
    case_decide as Heq; cbn; apply NoDup_cons.
    + split; [|done]. intros Hin. apply Hnotin. congruence.
    + split; [|by apply IH]. rewrite histogramAdd_elem. intros [? | ?]; done.
Qed.

Lemma colorHistogram_keys (data : list Z) (width height : nat) :
  NoDup (candidateColor <$> colorHistogram data width height) ∧
  ∀ c, c ∈ candidateColor <$> colorHistogram data width height → c ∈ pixels data.
Proof.
  unfold colorHistogram.
  assert (Hsampled : ∀ p, p ∈ sampledPixels data → p.2 ∈ pixels data).
  { intros [k c] [_ Hin]%list_elem_of_filter.
    apply elem_of_lookup_imap in Hin as (i & c' & Heq & Hc'). simplify_eq. cbn.
    by apply list_elem_of_lookup_2 in Hc'. }
  revert Hsampled. generalize (sampledPixels data) as samples.
  generalize (sobelEdgeDetection data width height) as edgeData.
  intros edgeData samples Hsamples.
  induction samples as [|[k c] samples IH] using rev_ind.
  - cbn. split; [constructor | by intros ? ?%elem_of_nil].
  - rewrite foldl_snoc. destruct IH as [Hnd Hin].
    { intros p Hp. apply Hsamples, elem_of_app. by left. }
    split; [by apply histogramAdd_NoDup|].
    intros c' [-> | Hc']%histogramAdd_elem; [|by apply Hin].
    apply (Hsamples (k, c)), elem_of_app. right. by left.
Qed.

Lemma selectLoop_perm (turns numColors : nat) (finalPalette remaining : list CandidateLab) :
  ∃ rest, selectLoop turns numColors finalPalette remaining ++ rest
          ≡ₚ finalPalette ++ remaining.
Proof.
  revert finalPalette remaining.
  induction turns as [|turns IH]; intros finalPalette remaining; cbn [selectLoop].
  - by exists remaining.
  - destruct (_ && _); [|by exists remaining].
    destruct (remaining !! bestCandidate finalPalette remaining) as [c|] eqn:Hc;
      [|by exists remaining].
    destruct (IH (finalPalette ++ [c])
                (delete (bestCandidate finalPalette remaining) remaining))
      as [rest Hrest].
    exists rest. rewrite Hrest, <- app_assoc. cbn.
    by rewrite <- (delete_Permutation _ _ _ Hc).
Qed.

Lemma farthestPointSelection_perm (candidatesLab : list CandidateLab) (numColors : nat) :
  ∃ rest, farthestPointSelection candidatesLab numColors ++ rest ≡ₚ candidatesLab.
Proof.
  destruct candidatesLab as [|first remaining]; cbn; [by exists []|].
  apply (selectLoop_perm _ _ [first]).
Qed.

Lemma moveToFront_perm (i : nat) (palette : list rgb) :
  moveToFront i palette ≡ₚ palette.
Proof.
  unfold moveToFront. destruct (bool_decide _); [|done].
  destruct (palette !! i) eqn:Hi; [|done].
  by rewrite <- (delete_Permutation _ _ _ Hi).
Qed.

Lemma fmap_snd_imap {A B : Type} (f : nat → A → B) (l : list A) :
  snd <$> imap (λ k c, (f k c, c)) l = l.
Proof.
  revert f. induction l as [|x l IH]; intros f; [done|].
  rewrite imap_cons. cbn. f_equal. apply (IH (λ k c, f (S k) c)).
Qed.

Lemma sortByUsage_perm (colorUsage : gmap Z nat) (palette : list rgb) :
  sortByUsage colorUsage palette ≡ₚ palette.
Proof.
  destruct palette as [|baseLayer detailColors]; cbn; [done|].
  apply Permutation_skip. rewrite stableSort_perm.
  by rewrite (fmap_snd_imap (λ k _, S k)).
Qed.

(** The palette of [getImpactfulColors] is made of colours of pixels of
    the buffer, each at most once. *)
Lemma getImpactfulColors_distinct (pow : float → float → float)
    (data : list Z) (width height numColors : nat) :
  NoDup (getImpactfulColors pow data width height numColors) ∧
  ∀ c, c ∈ getImpactfulColors pow data width height numColors → c ∈ pixels data.
Proof.
  unfold getImpactfulColors.
  destruct (colorHistogram_keys data width height) as [Hnd Hin].
  set (allColors := stableSort _ (colorHistogram data width height)).
  assert (Hall : NoDup (candidateColor <$> allColors) ∧
            ∀ c, c ∈ candidateColor <$> allColors → c ∈ pixels data).
  { subst allColors. split.
    - by rewrite stableSort_perm.
    - intros c Hc. rewrite stableSort_perm in Hc. by apply Hin. }
  clearbody allColors. clear Hnd Hin. destruct Hall as [Hnd Hin].
  set (candidates := take _ allColors).
  assert (Hcand : NoDup (candidateColor <$> candidates) ∧
            ∀ c, c ∈ candidateColor <$> candidates → c ∈ pixels data).
  { subst candidates. rewrite fmap_take. split.
    - eapply sublist_NoDup; [exact Hnd | apply sublist_take].
    - intros c Hc. apply Hin. eapply subseteq_take, Hc. }
  clearbody candidates. clear Hnd Hin allColors. destruct Hcand as [Hnd Hin].
  destruct (bool_decide _); [done|].
  set (candidatesLab := _ <$> candidates).
  assert (Hlab : (candidateColor ∘ candidate) <$> candidatesLab
                 = candidateColor <$> candidates).
  { subst candidatesLab. rewrite <- list_fmap_compose. done. }
  destruct (farthestPointSelection_perm candidatesLab numColors) as [rest Hperm].
  apply (fmap_Permutation (candidateColor ∘ candidate)) in Hperm.
  rewrite fmap_app, Hlab in Hperm.
  set (finalPaletteRGB := _ <$> farthestPointSelection candidatesLab numColors) in *.
  assert (Hfinal : NoDup finalPaletteRGB ∧ ∀ c, c ∈ finalPaletteRGB → c ∈ pixels data).
  { split.
    - rewrite <- Hperm in Hnd. by apply NoDup_app in Hnd as (? & _ & _).
    - intros c Hc. apply Hin. rewrite <- Hperm. apply elem_of_app. by left. }
  clearbody finalPaletteRGB. destruct Hfinal as [Hnd' Hin'].
  split.
  - by rewrite sortByUsage_perm, moveToFront_perm.
  - intros c Hc. rewrite sortByUsage_perm, moveToFront_perm in Hc. by apply Hin'.
Qed.

Lemma rgbToHex_inj (c1 c2 : rgb) :
  byteColor c1 → byteColor c2 →
  rgbToHex (r c1) (g c1) (b c1) = rgbToHex (r c2) (g c2) (b c2) → c1 = c2.
Proof.
  intros (Hr1 & Hg1 & Hb1) (Hr2 & Hg2 & Hb2) Heq.
  pose proof (parseInt16_rgbToHex _ _ _ Hr1 Hg1 Hb1) as H1.
  pose proof (parseInt16_rgbToHex _ _ _ Hr2 Hg2 Hb2) as H2.
  rewrite Heq, H2 in H1. injection H1 as H1.
  destruct c1 as [r1 g1 b1], c2 as [r2 g2 b2]. cbn in *.
  f_equal; lia.
Qed.

Lemma setAdd_elem (x y : string) (used : list string) :
  x ∈ setAdd y used ↔ x = y ∨ x ∈ used.
Proof.
  unfold setAdd. case_bool_decide as Hy.
  - split; [by right|]. by intros [-> | ?].
  - rewrite elem_of_app, list_elem_of_singleton. tauto.
Qed.

(** On colours that are already pairwise distinct the uniqueness pass makes
    no replacement and draws no random number. *)
Lemma ensureUniqueLoop_distinct (random : nat → float) (imageData : list Z)
    (colors uniqueColors usedColors : list string) (next : nat) :
  NoDup colors → (∀ c, c ∈ colors → c ∉ usedColors) →
  ensureUniqueLoop random imageData colors uniqueColors usedColors next
  = uniqueColors ++ colors.
Proof.
  revert uniqueColors usedColors.
  induction colors as [|color colors IH]; intros uniqueColors usedColors Hnd Hfresh;
    cbn [ensureUniqueLoop].
  - by rewrite app_nil_r.
  - apply NoDup_cons in Hnd as [Hnotin Hnd].
    rewrite bool_decide_eq_false_2 by (apply Hfresh; left).
    rewrite IH; [by rewrite <- app_assoc | done |].
    intros c Hc [-> | Hused]%setAdd_elem; [done|].
    by apply (Hfresh c); [right|].
Qed.

(** C3.  For every pixel buffer of width x height RGBA cells and every
    requested band count, whatever [Math.pow] and [Math.random] return,
    the palette of [getSuggestedColors] has no two equal hex strings. *)
Theorem getSuggestedColors_NoDup (pow : float → float → float)
    (random : nat → float) (imageData : list Z) (bands width height : nat) :
  length imageData = (4 * (width * height))%nat →
  NoDup (getSuggestedColors pow random imageData bands width height).
Proof.
  intros _. unfold getSuggestedColors, ensureUniqueColors.
  destruct (getImpactfulColors_distinct pow (preprocessImageData imageData)
              width height bands) as [Hnd Hin].
  pose proof (pixels_preprocess_bytes imageData) as Hbytes.
  rewrite Forall_forall in Hbytes.
  set (dominantColors := getImpactfulColors _ _ _ _ _) in *.
  assert (Hhex : NoDup ((λ c, rgbToHex (r c) (g c) (b c)) <$> dominantColors)).
  { apply NoDup_fmap_2_strong; [|done].
    intros c1 c2 H1 H2. apply rgbToHex_inj; auto. }
  rewrite ensureUniqueLoop_distinct; [done | done |].
  by intros c _ ?%elem_of_nil.
Qed.

Lemma getSuggestedColors_NoDup_witness :
  let imageData :=
    [250; 10; 10; 255;  250; 10; 10; 255;  250; 10; 10; 255;  250; 10; 10; 255;
     10; 250; 10; 255;  10; 250; 10; 255;  10; 250; 10; 255;  10; 250; 10; 255;
     10; 10; 250; 255;  10; 10; 250; 255;  10; 10; 250; 255;  10; 10; 250; 255] in
  getSuggestedColors (λ x _, x) (λ _, 0%float) imageData 2 4 3
    = ["#0000ff"; "#00ff00"]%string ∧
  NoDup (getSuggestedColors (λ x _, x) (λ _, 0%float) imageData 2 4 3).
Proof.
  intros imageData. split; [vm_compute; reflexivity|].
  apply (getSuggestedColors_NoDup (λ x _, x) (λ _, 0%float) imageData 2 4 3).
  reflexivity.
Defined.

(** The uniqueness pass on its own does not check its random fallback: on
    an all-black image and a generator that keeps returning 0 it replaces
    a duplicate of black by black.  [getSuggestedColors] never reaches
    the replacement, since the colours it passes are already distinct. *)
Example ensureUniqueColors_fallback_unchecked :
  ensureUniqueColors (λ _, 0%float) ["#000000"; "#000000"]%string [0; 0; 0; 255]
  = ["#000000"; "#000000"]%string.
Proof. vm_compute. reflexivity. Qed.

(** ** [processImage] returns *)

Lemma computeBandMap_entries (paletteColors : list rgb) (data : list Z)
    (j : nat) (v : Z) :
  paletteColors ≠ [] → Z.of_nat (length paletteColors) <= 2 ^ 24 →
  computeBandMap paletteColors data !! j = Some v →
  ∃ k, v = Z.of_nat k ∧ (k < length paletteColors)%nat.
Proof.
  intros Hne Hsize Hv. unfold computeBandMap in Hv.
  rewrite list_lookup_fmap in Hv.
  destruct (pixels data !! j) as [px|]; [|done]. cbn in Hv. simplify_eq.
  destruct (closestBand_spec paletteColors px Hne) as (c & Hc & _).
  apply lookup_lt_Some in Hc.
  exists (closestBand paletteColors px). split; [|done].
  apply roundToBits_small. lia.
Qed.

Lemma drawLayer_returns (renderPalette : list string) (bandMap : list Z)
    (layer : Z) (cells : list nat) (previewData : list Z) :
  (∀ j, bandMap !! j = Some layer → is_Some (renderPalette !! Z.to_nat layer)) →
  ∃ previewData', drawLayer renderPalette bandMap layer cells previewData
                  = Returned previewData'.
Proof.
  intros Hcovered. revert previewData.
  induction cells as [|j cells IH]; intros previewData; cbn [drawLayer].
  - by eexists.
  - case_decide as Hband; [|apply IH].
    destruct (Hcovered j Hband) as [hex ->]. apply IH.
Qed.

Lemma drawLayers_returns (renderPalette : list string) (bandMap : list Z)
    (count : nat) (layer : Z) (cells : list nat) (previewData : list Z) :
  (∀ j v, bandMap !! j = Some v → is_Some (renderPalette !! Z.to_nat v)) →
  ∃ previewData', drawLayers renderPalette bandMap count layer cells previewData
                  = Returned previewData'.
Proof.
  intros Hcovered. revert layer previewData.
  induction count as [|count IH]; intros layer previewData; cbn [drawLayers].
  - by eexists.
  - destruct (drawLayer_returns renderPalette bandMap layer cells previewData)
      as [p ->]; [by eauto|].
    apply IH.
Qed.

(** With a non-empty structural palette, a render palette that covers
    every band and a layer selection below 2^53, [processImage] returns a
    band raster: the two properties above speak about runs that exist. *)
Lemma processImage_returns (appState : AppState) (domElements : DomElements)
    (palette : list string) :
  suggestedPalette appState = Some palette →
  palette ≠ [] →
  Z.of_nat (length palette) <= 2 ^ 24 →
  match currentPalette appState with
  | Some render => (length palette <= length render)%nat
  | None => True
  end →
  match layerSliderValue domElements with
  | Num currentLayer => currentLayer < 2 ^ 53
  | NaN => True
  end →
  ∃ res, processImage appState domElements = Returned (Some res).
Proof.
  intros Hsp Hne Hsize Hrender Hlayer. unfold processImage. rewrite Hsp.
  change (default [] (Some palette)) with palette.
  case_decide as Hlen; [by destruct palette|]. clear Hlen.
  set (renderPalette := match currentPalette appState with
                        | Some p => p | None => palette end).
  assert (Hcover : (length palette <= length renderPalette)%nat).
  { subst renderPalette. by destruct (currentPalette appState). }
  set (bandMap0 := computeBandMap (hexToRgb <$> palette) (imageData appState)).
  assert (Hcovered : ∀ j v, bandMap0 !! j = Some v →
                            is_Some (renderPalette !! Z.to_nat v)).
  { intros j v Hv.
    destruct (computeBandMap_entries (hexToRgb <$> palette)
                (imageData appState) j v)
      as (k & -> & Hk); [by destruct palette | by rewrite length_fmap | done |].
    rewrite length_fmap in Hk. rewrite Nat2Z.id.
    apply lookup_lt_is_Some_2. lia. }
  destruct (lookup_lt_is_Some_2 renderPalette 0) as [hex0 ->];
    [destruct palette; [done | cbn in Hcover; lia]|].
  set (cells := seq 0 _). set (previewData := mjoin _).
  destruct (layerSliderValue domElements) as [currentLayer|]; [|by eexists].
  destruct (default false (singleLayerToggle domElements)).
  - destruct (0 <? currentLayer); [|by eexists].
    destruct (drawLayer_returns renderPalette bandMap0 currentLayer cells previewData)
      as [p ->]; [by eauto | by eexists].
  - unfold drawCumulative.
    destruct (drawLayers_returns renderPalette bandMap0
                (Z.to_nat (Z.min currentLayer (2 ^ 53 - 1))) 1 cells previewData
                Hcovered) as [p ->].
    cbn. destruct (Z.leb_spec (2 ^ 53) currentLayer); [lia | by eexists].
Qed.
